(** * Geodashing: the simulation core of [script.js]

    A shallow embedding of the simulation engine of the game: the quad-tree
    spatial index, the level objects and their one-shot flags, the player
    state machine with its axis-separated collision passes, the trigger
    system, the particle pool, the replay log and the fixed-step frame
    scheduler.

    Conventions of the embedding.

    - JavaScript numbers are modelled by exact rationals extended with
      [NaN].  Rounding, overflow, infinities and signed zeros of IEEE
      doubles are outside the model; the only divisions of the modelled
      code are by non-zero constants.
    - JavaScript objects are mutable and shared by reference.  Level
      objects live in a heap ([Game.heap]) and are denoted by handles; the
      level's object array, the quad-tree and the snapshots iterated by
      [forEach] hold handles, so that a mutation made through one alias is
      seen through every other.  The particle pool is an array of handles
      into a heap of particles for the same reason.
    - A method of [Game] or [Player] is a function on the whole game state
      (the source reaches everything through the global [game]); a method
      of [Player] takes the receiver as a selector ([P1] or [P2]).
    - A [TypeError] of the source (a property read on [undefined] or
      [null]) is the outcome [Throw].
    - Rendering, audio, DOM, persistence and the level editor are not
      modelled: [draw], the camera, [rot], [trail], [color] of the player,
      the FPS counter, the music clock, [localStorage].  Where the source
      hands control to the editor the model answers [Unmodelled]. *)

From Stdlib Require Import QArith Qround Qminmax Lqa ZArith String Bool Lia.
From stdpp Require Import base list.
From Equations Require Import Equations.

Open Scope string_scope.
Open Scope list_scope.
Open Scope Q_scope.

(** ** Numbers *)

Inductive num := Fin (q : Q) | NaN.

Declare Scope num_scope.
Delimit Scope num_scope with num.
Bind Scope num_scope with num.

(** The result of an operation is kept in lowest terms, so that a number
    has one representation. *)
Definition lift2 (f : Q -> Q -> Q) (a b : num) : num :=
  match a, b with
  | Fin p, Fin q => Fin (Qred (f p q))
  | _, _ => NaN
  end.

Definition cmp2 (f : Q -> Q -> bool) (a b : num) : bool :=
  match a, b with
  | Fin p, Fin q => f p q
  | _, _ => false
  end.

Definition Qlt_bool (p q : Q) : bool := negb (Qle_bool q p).

Definition nadd := lift2 Qplus.
Definition nsub := lift2 Qminus.
Definition nmul := lift2 Qmult.
(** [ndiv] is only applied to non-zero constant divisors. *)
Definition ndiv := lift2 Qdiv.
(** Unary minus. *)
Definition nneg (a : num) : num :=
  match a with Fin q => Fin (- q) | NaN => NaN end.
Definition nlt := cmp2 Qlt_bool.
Definition nle := cmp2 Qle_bool.
Definition ngt (a b : num) := nlt b a.
Definition nge (a b : num) := nle b a.
(** [===] on numbers. *)
Definition neq := cmp2 Qeq_bool.
(** [Math.min] and [Math.max]: [NaN] if either argument is. *)
Definition nmin := lift2 (fun p q => if Qle_bool p q then p else q).
Definition nmax := lift2 (fun p q => if Qle_bool p q then q else p).

Infix "+" := nadd : num_scope.
Infix "-" := nsub : num_scope.
Infix "*" := nmul : num_scope.
Infix "/" := ndiv : num_scope.
Infix "<?" := nlt : num_scope.
Infix "<=?" := nle : num_scope.
Infix ">?" := ngt : num_scope.
Infix ">=?" := nge : num_scope.
Infix "=?" := neq : num_scope.

(** A possibly missing numeric property read in a numeric context:
    [undefined] converts to [NaN]. *)
Definition toNum (o : option num) : num := default NaN o.

(** ** Rectangles *)

Module Rect.
Record t := mk { x : num; y : num; w : num; h : num }.
End Rect.

(** ** Level objects *)

(** A property that holds a number, a string, or is absent. *)
Inductive Value := VUndef | VNum (n : num) | VStr (s : string).

(** A string used as a number is not modelled beyond the non-numeric case. *)
Definition numOfValue (v : Value) : num :=
  match v with VNum n => n | _ => NaN end.

Module LevelObject.
(** [rot] and [duration] are never read by the modelled code. *)
Record t := mk {
  x : num; y : num; w : num; h : num;
  type : string;
  group : option Z;
  effect : option string;
  value : Value;
  id : option Z;
  targetX : option num; targetY : option num;
  targetGroup : option Z;
  dx : option num; dy : option num;
  color : option Z; alpha : option num;
  used : bool }.

Definition rect (o : t) : Rect.t := Rect.mk (x o) (y o) (w o) (h o).

Definition set_pos (nx ny : num) (o : t) : t :=
  mk nx ny (w o) (h o) (type o) (group o) (effect o) (value o) (id o)
     (targetX o) (targetY o) (targetGroup o) (dx o) (dy o) (color o)
     (alpha o) (used o).
Definition set_color (c : option Z) (o : t) : t :=
  mk (x o) (y o) (w o) (h o) (type o) (group o) (effect o) (value o) (id o)
     (targetX o) (targetY o) (targetGroup o) (dx o) (dy o) c
     (alpha o) (used o).
Definition set_alpha (a : option num) (o : t) : t :=
  mk (x o) (y o) (w o) (h o) (type o) (group o) (effect o) (value o) (id o)
     (targetX o) (targetY o) (targetGroup o) (dx o) (dy o) (color o)
     a (used o).
Definition set_used (u : bool) (o : t) : t :=
  mk (x o) (y o) (w o) (h o) (type o) (group o) (effect o) (value o) (id o)
     (targetX o) (targetY o) (targetGroup o) (dx o) (dy o) (color o)
     (alpha o) u.

(** A plain [{x, y, w, h, type}] literal. *)
Definition plain (x y w h : num) (ty : string) : t :=
  mk x y w h ty None None VUndef None None None None None None None None
     false.
End LevelObject.

(** Handles and the heap of level objects. *)
Abbreviation handle := nat (only parsing).
Abbreviation Heap := (list LevelObject.t) (only parsing).

(** Reading through a handle.  Every handle the program holds was obtained
    from an allocation, so the default is never reached. *)
Definition deref (hp : Heap) (o : handle) : LevelObject.t :=
  default (LevelObject.plain NaN NaN NaN NaN "") (hp !! o).

(** ** QuadTree *)

(** [divided] is the constructor: a [QNode] carries its four quadrants. *)
Inductive QuadTree :=
| QLeaf (bounds : Rect.t) (capacity : nat) (objects : list handle)
| QNode (bounds : Rect.t) (capacity : nat) (objects : list handle)
        (nw ne sw se : QuadTree).

(** [new QuadTree(bounds)] with the default capacity. *)
Definition QuadTree_new (bounds : Rect.t) : QuadTree := QLeaf bounds 4 [].

Definition QuadTree_bounds (t : QuadTree) : Rect.t :=
  match t with QLeaf b _ _ | QNode b _ _ _ _ _ _ => b end.

Definition QuadTree_intersects (a b : Rect.t) : bool :=
  (Rect.x a <? Rect.x b + Rect.w b)%num && (Rect.x a + Rect.w a >? Rect.x b)%num
  && (Rect.y a <? Rect.y b + Rect.h b)%num && (Rect.y a + Rect.h a >? Rect.y b)%num.

(** The four quadrants created by [subdivide], in the order nw, ne, sw, se. *)
Definition quadrants (b : Rect.t) : Rect.t * Rect.t * Rect.t * Rect.t :=
  let x := Rect.x b in let y := Rect.y b in
  let w := Rect.w b in let h := Rect.h b in
  let two := Fin 2 in
  (Rect.mk x y (w / two) (h / two),
   Rect.mk (x + w / two) y (w / two) (h / two),
   Rect.mk x (y + h / two) (w / two) (h / two),
   Rect.mk (x + w / two) (y + h / two) (w / two) (h / two))%num.

Definition QuadTree_subdivide (t : QuadTree) : QuadTree :=
  match t with
  | QLeaf b c objs | QNode b c objs _ _ _ _ =>
      let '(qnw, qne, qsw, qse) := quadrants b in
      QNode b c objs (QuadTree_new qnw) (QuadTree_new qne)
            (QuadTree_new qsw) (QuadTree_new qse)
  end.

(** [[nw, ne, sw, se].some(q => q.insert(obj))]: the quadrants are tried in
    order and the first that accepts ends the search. *)
Definition some4 (ins : QuadTree -> bool * QuadTree)
    (b : Rect.t) (c : nat) (objs : list handle) (nw ne sw se : QuadTree)
    : bool * QuadTree :=
  let (r1, nw') := ins nw in
  if r1 then (true, QNode b c objs nw' ne sw se) else
  let (r2, ne') := ins ne in
  if r2 then (true, QNode b c objs nw' ne' sw se) else
  let (r3, sw') := ins sw in
  if r3 then (true, QNode b c objs nw' ne' sw' se) else
  let (r4, se') := ins se in
  (r4, QNode b c objs nw' ne' sw' se').

(** [insert] on a quadrant that [subdivide] has just created: it is empty,
    undivided and of capacity 4, so the call ends in its first two lines. *)
Definition insertFresh (r : Rect.t) (obj : handle) (t : QuadTree)
    : bool * QuadTree :=
  match t with
  | QLeaf b c objs =>
      if negb (QuadTree_intersects b r) then (false, t)
      else (true, QLeaf b c (objs ++ [obj]))
  | _ => (false, t)
  end.

(** [insert(obj)]; the rectangle of [obj] is read from the heap.  The
    recursion is on the tree; the calls on the quadrants of a node
    subdivided by this very call go through [insertFresh], and
    [QuadTree_insert_eq] below restores the equation of the source. *)
Fixpoint QuadTree_insert (hp : Heap) (obj : handle) (t : QuadTree)
    : bool * QuadTree :=
  let r := LevelObject.rect (deref hp obj) in
  match t with
  | QLeaf b c objs =>
      if negb (QuadTree_intersects b r) then (false, t)
      else if (length objs <? c)%nat then (true, QLeaf b c (objs ++ [obj]))
      else
        match QuadTree_subdivide t with
        | QNode b' c' objs' nw ne sw se =>
            some4 (insertFresh r obj) b' c' objs' nw ne sw se
        | t' => (false, t')
        end
  | QNode b c objs nw ne sw se =>
      if negb (QuadTree_intersects b r) then (false, t)
      else some4 (QuadTree_insert hp obj) b c objs nw ne sw se
  end.

(** [query(range, found)]. *)
Fixpoint QuadTree_query (hp : Heap) (range : Rect.t) (t : QuadTree)
    (found : list handle) : list handle :=
  match t with
  | QLeaf b _ objs =>
      if negb (QuadTree_intersects b range) then found
      else found ++ filter (fun o => QuadTree_intersects range
                                       (LevelObject.rect (deref hp o)) = true) objs
  | QNode b _ objs nw ne sw se =>
      if negb (QuadTree_intersects b range) then found
      else
        let found := found ++ filter (fun o => QuadTree_intersects range
                                       (LevelObject.rect (deref hp o)) = true) objs in
        QuadTree_query hp range se
          (QuadTree_query hp range sw
             (QuadTree_query hp range ne
                (QuadTree_query hp range nw found)))
  end.


(** ** The player, particles, the level and the game state *)

Module Player.
(** The receiver of the [Player] methods.  [rot], [trail] and [color] are
    cosmetic and not modelled. *)
Record t := mk {
  x : num;
  y : num;
  vx : num;
  vy : num;
  mode : Value;
  flip : num;
  mini : bool;
  size : num;
  active : bool;
  onGround : bool;
  jumpHold : num;
  dashHold : bool;
  mirror : bool }.

Definition set_x (v : num) (r : t) : t :=
  mk v (y r) (vx r) (vy r) (mode r) (flip r) (mini r) (size r) (active r)
     (onGround r) (jumpHold r) (dashHold r) (mirror r).
Definition set_y (v : num) (r : t) : t :=
  mk (x r) v (vx r) (vy r) (mode r) (flip r) (mini r) (size r) (active r)
     (onGround r) (jumpHold r) (dashHold r) (mirror r).
Definition set_vx (v : num) (r : t) : t :=
  mk (x r) (y r) v (vy r) (mode r) (flip r) (mini r) (size r) (active r)
     (onGround r) (jumpHold r) (dashHold r) (mirror r).
Definition set_vy (v : num) (r : t) : t :=
  mk (x r) (y r) (vx r) v (mode r) (flip r) (mini r) (size r) (active r)
     (onGround r) (jumpHold r) (dashHold r) (mirror r).
Definition set_mode (v : Value) (r : t) : t :=
  mk (x r) (y r) (vx r) (vy r) v (flip r) (mini r) (size r) (active r)
     (onGround r) (jumpHold r) (dashHold r) (mirror r).
Definition set_flip (v : num) (r : t) : t :=
  mk (x r) (y r) (vx r) (vy r) (mode r) v (mini r) (size r) (active r)
     (onGround r) (jumpHold r) (dashHold r) (mirror r).
Definition set_mini (v : bool) (r : t) : t :=
  mk (x r) (y r) (vx r) (vy r) (mode r) (flip r) v (size r) (active r)
     (onGround r) (jumpHold r) (dashHold r) (mirror r).
Definition set_active (v : bool) (r : t) : t :=
  mk (x r) (y r) (vx r) (vy r) (mode r) (flip r) (mini r) (size r) v
     (onGround r) (jumpHold r) (dashHold r) (mirror r).
Definition set_onGround (v : bool) (r : t) : t :=
  mk (x r) (y r) (vx r) (vy r) (mode r) (flip r) (mini r) (size r) (active
     r) v (jumpHold r) (dashHold r) (mirror r).
Definition set_jumpHold (v : num) (r : t) : t :=
  mk (x r) (y r) (vx r) (vy r) (mode r) (flip r) (mini r) (size r) (active
     r) (onGround r) v (dashHold r) (mirror r).
Definition set_dashHold (v : bool) (r : t) : t :=
  mk (x r) (y r) (vx r) (vy r) (mode r) (flip r) (mini r) (size r) (active
     r) (onGround r) (jumpHold r) v (mirror r).
Definition set_mirror (v : bool) (r : t) : t :=
  mk (x r) (y r) (vx r) (vy r) (mode r) (flip r) (mini r) (size r) (active
     r) (onGround r) (jumpHold r) (dashHold r) v.
End Player.

Module Particle.
(** A pooled particle; before its first [init] every property is absent. *)
Record t := mk {
  x : num;
  y : num;
  vx : num;
  vy : num;
  life : num;
  type : option string;
  color : option Z }.

Definition fresh : t := mk NaN NaN NaN NaN NaN None None.
End Particle.

Module Level.
Record t := mk { objects : list handle; width : num; height : num }.
End Level.

(** [{p1: player.getState(), p2: player2.getState()}] *)
Module Checkpoint.
Record t := mk { p1 : Player.t; p2 : Player.t }.
End Checkpoint.

(** [{frame, action}] *)
Module ReplayEvent.
Record t := mk { frame : num; action : string }.
End ReplayEvent.

Module Game.
(** The fields of [Game] that the simulation reads or writes, the heap of
    level objects, the heap of particles ([particles], of which
    [particlesPool] holds handles) and the source of [Math.random]:
    [randomSource k] is the value of the [k]-th call, [randomCalls] the
    number of calls made so far. *)
Record t := mk {
  state : string;
  level : option Level.t;
  levelId : Z;
  player : Player.t;
  player2 : Player.t;
  time : num;
  paused : bool;
  practice : bool;
  replayMode : bool;
  checkpoints : list Checkpoint.t;
  currentCP : option nat;
  particles : list Particle.t;
  particlesPool : list nat;
  activeParticles : nat;
  lastTime : num;
  accumulator : num;
  speedMult : num;
  replays : list ReplayEvent.t;
  replayIndex : nat;
  stars : nat;
  coins : nat;
  orbs : nat;
  quadTree : option QuadTree;
  keys : list string;
  heap : Heap;
  randomSource : nat -> Q;
  randomCalls : nat }.

Definition set_state (v : string) (r : t) : t :=
  mk v (level r) (levelId r) (player r) (player2 r) (time r) (paused r)
     (practice r) (replayMode r) (checkpoints r) (currentCP r) (particles r)
     (particlesPool r) (activeParticles r) (lastTime r) (accumulator r)
     (speedMult r) (replays r) (replayIndex r) (stars r) (coins r) (orbs r)
     (quadTree r) (keys r) (heap r) (randomSource r) (randomCalls r).
Definition set_level (v : option Level.t) (r : t) : t :=
  mk (state r) v (levelId r) (player r) (player2 r) (time r) (paused r)
     (practice r) (replayMode r) (checkpoints r) (currentCP r) (particles r)
     (particlesPool r) (activeParticles r) (lastTime r) (accumulator r)
     (speedMult r) (replays r) (replayIndex r) (stars r) (coins r) (orbs r)
     (quadTree r) (keys r) (heap r) (randomSource r) (randomCalls r).
Definition set_levelId (v : Z) (r : t) : t :=
  mk (state r) (level r) v (player r) (player2 r) (time r) (paused r)
     (practice r) (replayMode r) (checkpoints r) (currentCP r) (particles r)
     (particlesPool r) (activeParticles r) (lastTime r) (accumulator r)
     (speedMult r) (replays r) (replayIndex r) (stars r) (coins r) (orbs r)
     (quadTree r) (keys r) (heap r) (randomSource r) (randomCalls r).
Definition set_player (v : Player.t) (r : t) : t :=
  mk (state r) (level r) (levelId r) v (player2 r) (time r) (paused r)
     (practice r) (replayMode r) (checkpoints r) (currentCP r) (particles r)
     (particlesPool r) (activeParticles r) (lastTime r) (accumulator r)
     (speedMult r) (replays r) (replayIndex r) (stars r) (coins r) (orbs r)
     (quadTree r) (keys r) (heap r) (randomSource r) (randomCalls r).
Definition set_player2 (v : Player.t) (r : t) : t :=
  mk (state r) (level r) (levelId r) (player r) v (time r) (paused r)
     (practice r) (replayMode r) (checkpoints r) (currentCP r) (particles r)
     (particlesPool r) (activeParticles r) (lastTime r) (accumulator r)
     (speedMult r) (replays r) (replayIndex r) (stars r) (coins r) (orbs r)
     (quadTree r) (keys r) (heap r) (randomSource r) (randomCalls r).
Definition set_time (v : num) (r : t) : t :=
  mk (state r) (level r) (levelId r) (player r) (player2 r) v (paused r)
     (practice r) (replayMode r) (checkpoints r) (currentCP r) (particles r)
     (particlesPool r) (activeParticles r) (lastTime r) (accumulator r)
     (speedMult r) (replays r) (replayIndex r) (stars r) (coins r) (orbs r)
     (quadTree r) (keys r) (heap r) (randomSource r) (randomCalls r).
Definition set_paused (v : bool) (r : t) : t :=
  mk (state r) (level r) (levelId r) (player r) (player2 r) (time r) v
     (practice r) (replayMode r) (checkpoints r) (currentCP r) (particles r)
     (particlesPool r) (activeParticles r) (lastTime r) (accumulator r)
     (speedMult r) (replays r) (replayIndex r) (stars r) (coins r) (orbs r)
     (quadTree r) (keys r) (heap r) (randomSource r) (randomCalls r).
Definition set_practice (v : bool) (r : t) : t :=
  mk (state r) (level r) (levelId r) (player r) (player2 r) (time r) (paused
     r) v (replayMode r) (checkpoints r) (currentCP r) (particles r)
     (particlesPool r) (activeParticles r) (lastTime r) (accumulator r)
     (speedMult r) (replays r) (replayIndex r) (stars r) (coins r) (orbs r)
     (quadTree r) (keys r) (heap r) (randomSource r) (randomCalls r).
Definition set_replayMode (v : bool) (r : t) : t :=
  mk (state r) (level r) (levelId r) (player r) (player2 r) (time r) (paused
     r) (practice r) v (checkpoints r) (currentCP r) (particles r)
     (particlesPool r) (activeParticles r) (lastTime r) (accumulator r)
     (speedMult r) (replays r) (replayIndex r) (stars r) (coins r) (orbs r)
     (quadTree r) (keys r) (heap r) (randomSource r) (randomCalls r).
Definition set_checkpoints (v : list Checkpoint.t) (r : t) : t :=
  mk (state r) (level r) (levelId r) (player r) (player2 r) (time r) (paused
     r) (practice r) (replayMode r) v (currentCP r) (particles r)
     (particlesPool r) (activeParticles r) (lastTime r) (accumulator r)
     (speedMult r) (replays r) (replayIndex r) (stars r) (coins r) (orbs r)
     (quadTree r) (keys r) (heap r) (randomSource r) (randomCalls r).
Definition set_currentCP (v : option nat) (r : t) : t :=
  mk (state r) (level r) (levelId r) (player r) (player2 r) (time r) (paused
     r) (practice r) (replayMode r) (checkpoints r) v (particles r)
     (particlesPool r) (activeParticles r) (lastTime r) (accumulator r)
     (speedMult r) (replays r) (replayIndex r) (stars r) (coins r) (orbs r)
     (quadTree r) (keys r) (heap r) (randomSource r) (randomCalls r).
Definition set_particles (v : list Particle.t) (r : t) : t :=
  mk (state r) (level r) (levelId r) (player r) (player2 r) (time r) (paused
     r) (practice r) (replayMode r) (checkpoints r) (currentCP r) v
     (particlesPool r) (activeParticles r) (lastTime r) (accumulator r)
     (speedMult r) (replays r) (replayIndex r) (stars r) (coins r) (orbs r)
     (quadTree r) (keys r) (heap r) (randomSource r) (randomCalls r).
Definition set_particlesPool (v : list nat) (r : t) : t :=
  mk (state r) (level r) (levelId r) (player r) (player2 r) (time r) (paused
     r) (practice r) (replayMode r) (checkpoints r) (currentCP r) (particles
     r) v (activeParticles r) (lastTime r) (accumulator r) (speedMult r)
     (replays r) (replayIndex r) (stars r) (coins r) (orbs r) (quadTree r)
     (keys r) (heap r) (randomSource r) (randomCalls r).
Definition set_activeParticles (v : nat) (r : t) : t :=
  mk (state r) (level r) (levelId r) (player r) (player2 r) (time r) (paused
     r) (practice r) (replayMode r) (checkpoints r) (currentCP r) (particles
     r) (particlesPool r) v (lastTime r) (accumulator r) (speedMult r)
     (replays r) (replayIndex r) (stars r) (coins r) (orbs r) (quadTree r)
     (keys r) (heap r) (randomSource r) (randomCalls r).
Definition set_lastTime (v : num) (r : t) : t :=
  mk (state r) (level r) (levelId r) (player r) (player2 r) (time r) (paused
     r) (practice r) (replayMode r) (checkpoints r) (currentCP r) (particles
     r) (particlesPool r) (activeParticles r) v (accumulator r) (speedMult
     r) (replays r) (replayIndex r) (stars r) (coins r) (orbs r) (quadTree
     r) (keys r) (heap r) (randomSource r) (randomCalls r).
Definition set_accumulator (v : num) (r : t) : t :=
  mk (state r) (level r) (levelId r) (player r) (player2 r) (time r) (paused
     r) (practice r) (replayMode r) (checkpoints r) (currentCP r) (particles
     r) (particlesPool r) (activeParticles r) (lastTime r) v (speedMult r)
     (replays r) (replayIndex r) (stars r) (coins r) (orbs r) (quadTree r)
     (keys r) (heap r) (randomSource r) (randomCalls r).
Definition set_speedMult (v : num) (r : t) : t :=
  mk (state r) (level r) (levelId r) (player r) (player2 r) (time r) (paused
     r) (practice r) (replayMode r) (checkpoints r) (currentCP r) (particles
     r) (particlesPool r) (activeParticles r) (lastTime r) (accumulator r) v
     (replays r) (replayIndex r) (stars r) (coins r) (orbs r) (quadTree r)
     (keys r) (heap r) (randomSource r) (randomCalls r).
Definition set_replays (v : list ReplayEvent.t) (r : t) : t :=
  mk (state r) (level r) (levelId r) (player r) (player2 r) (time r) (paused
     r) (practice r) (replayMode r) (checkpoints r) (currentCP r) (particles
     r) (particlesPool r) (activeParticles r) (lastTime r) (accumulator r)
     (speedMult r) v (replayIndex r) (stars r) (coins r) (orbs r) (quadTree
     r) (keys r) (heap r) (randomSource r) (randomCalls r).
Definition set_replayIndex (v : nat) (r : t) : t :=
  mk (state r) (level r) (levelId r) (player r) (player2 r) (time r) (paused
     r) (practice r) (replayMode r) (checkpoints r) (currentCP r) (particles
     r) (particlesPool r) (activeParticles r) (lastTime r) (accumulator r)
     (speedMult r) (replays r) v (stars r) (coins r) (orbs r) (quadTree r)
     (keys r) (heap r) (randomSource r) (randomCalls r).
Definition set_stars (v : nat) (r : t) : t :=
  mk (state r) (level r) (levelId r) (player r) (player2 r) (time r) (paused
     r) (practice r) (replayMode r) (checkpoints r) (currentCP r) (particles
     r) (particlesPool r) (activeParticles r) (lastTime r) (accumulator r)
     (speedMult r) (replays r) (replayIndex r) v (coins r) (orbs r)
     (quadTree r) (keys r) (heap r) (randomSource r) (randomCalls r).
Definition set_coins (v : nat) (r : t) : t :=
  mk (state r) (level r) (levelId r) (player r) (player2 r) (time r) (paused
     r) (practice r) (replayMode r) (checkpoints r) (currentCP r) (particles
     r) (particlesPool r) (activeParticles r) (lastTime r) (accumulator r)
     (speedMult r) (replays r) (replayIndex r) (stars r) v (orbs r)
     (quadTree r) (keys r) (heap r) (randomSource r) (randomCalls r).
Definition set_orbs (v : nat) (r : t) : t :=
  mk (state r) (level r) (levelId r) (player r) (player2 r) (time r) (paused
     r) (practice r) (replayMode r) (checkpoints r) (currentCP r) (particles
     r) (particlesPool r) (activeParticles r) (lastTime r) (accumulator r)
     (speedMult r) (replays r) (replayIndex r) (stars r) (coins r) v
     (quadTree r) (keys r) (heap r) (randomSource r) (randomCalls r).
Definition set_quadTree (v : option QuadTree) (r : t) : t :=
  mk (state r) (level r) (levelId r) (player r) (player2 r) (time r) (paused
     r) (practice r) (replayMode r) (checkpoints r) (currentCP r) (particles
     r) (particlesPool r) (activeParticles r) (lastTime r) (accumulator r)
     (speedMult r) (replays r) (replayIndex r) (stars r) (coins r) (orbs r)
     v (keys r) (heap r) (randomSource r) (randomCalls r).
Definition set_keys (v : list string) (r : t) : t :=
  mk (state r) (level r) (levelId r) (player r) (player2 r) (time r) (paused
     r) (practice r) (replayMode r) (checkpoints r) (currentCP r) (particles
     r) (particlesPool r) (activeParticles r) (lastTime r) (accumulator r)
     (speedMult r) (replays r) (replayIndex r) (stars r) (coins r) (orbs r)
     (quadTree r) v (heap r) (randomSource r) (randomCalls r).
Definition set_heap (v : Heap) (r : t) : t :=
  mk (state r) (level r) (levelId r) (player r) (player2 r) (time r) (paused
     r) (practice r) (replayMode r) (checkpoints r) (currentCP r) (particles
     r) (particlesPool r) (activeParticles r) (lastTime r) (accumulator r)
     (speedMult r) (replays r) (replayIndex r) (stars r) (coins r) (orbs r)
     (quadTree r) (keys r) v (randomSource r) (randomCalls r).
Definition set_randomCalls (v : nat) (r : t) : t :=
  mk (state r) (level r) (levelId r) (player r) (player2 r) (time r) (paused
     r) (practice r) (replayMode r) (checkpoints r) (currentCP r) (particles
     r) (particlesPool r) (activeParticles r) (lastTime r) (accumulator r)
     (speedMult r) (replays r) (replayIndex r) (stars r) (coins r) (orbs r)
     (quadTree r) (keys r) (heap r) (randomSource r) v.
End Game.

(** ** Constants and the mode table *)

Definition TILE : num := Fin 30.
Definition HEIGHT : num := (Fin 14 * TILE)%num.
Definition BASE_WIDTH : num := (Fin 500 * TILE)%num.

Module ModeData.
Record t := mk { baseSpeed : num; gravity : num; jump : num; thrust : num;
                 speed : num }.
End ModeData.

(** [MODES[key]]: the entry of the table, or [undefined]. *)
Definition MODES (key : Value) : option ModeData.t :=
  match key with
  | VStr m =>
      if String.eqb m "cube" then
        Some (ModeData.mk (Fin 10.309) (Fin 0.89) (Fin (-11.2)) (Fin 0) (Fin 0))
      else if String.eqb m "ship" then
        Some (ModeData.mk (Fin 12.5) (Fin 0.5) (Fin 0) (Fin 0.7) (Fin 0))
      else if String.eqb m "ball" then
        Some (ModeData.mk (Fin 10.309) (Fin 0) (Fin 0) (Fin 0) (Fin 0))
      else if String.eqb m "ufo" then
        Some (ModeData.mk (Fin 10.309) (Fin 0.89 / Fin 2)%num (Fin (-8.5))
                          (Fin 0) (Fin 0))
      else if String.eqb m "wave" then
        Some (ModeData.mk (Fin 13) (Fin 0) (Fin 0) (Fin 0) (Fin 15))
      else if String.eqb m "robot" then
        Some (ModeData.mk (Fin 10.309) (Fin 1.1) (Fin (-15)) (Fin 0) (Fin 0))
      else if String.eqb m "spider" then
        Some (ModeData.mk (Fin 10.309) (Fin 0) (Fin (-11.2)) (Fin 0) (Fin 0))
      else if String.eqb m "swing" then
        Some (ModeData.mk (Fin 12) (Fin 0.6) (Fin 0) (Fin 0.8) (Fin 0))
      else None
  | _ => None
  end.

(** ** Outcomes and commands *)

(** [Throw] is a [TypeError] of the source; [Unmodelled] marks a hand-over
    to the level editor. *)
Inductive result (A : Type) := Ok (a : A) | Throw | Unmodelled.
Arguments Ok {A} a.
Arguments Throw {A}.
Arguments Unmodelled {A}.

(** A statement of a method: it mutates the game or fails. *)
Definition cmd := Game.t -> result Game.t.

Definition skip : cmd := Ok.
Definition andThen (a b : cmd) : cmd :=
  fun g => match a g with Ok g' => b g' | Throw => Throw | Unmodelled => Unmodelled end.
Definition modify (f : Game.t -> Game.t) : cmd := fun g => Ok (f g).
Definition when (c : Game.t -> bool) (a : cmd) : cmd :=
  fun g => if c g then a g else Ok g.

Declare Scope cmd_scope.
Delimit Scope cmd_scope with cmd.
Bind Scope cmd_scope with cmd.
Notation "a ;; b" := (andThen a b) (at level 100, b at level 200, right associativity) : cmd_scope.
Open Scope cmd_scope.

(** [array.forEach(body)] over a snapshot of the array. *)
Fixpoint forEach {A : Type} (l : list A) (body : A -> cmd) : cmd :=
  match l with
  | [] => skip
  | a :: l' => body a ;; forEach l' body
  end.

(** ** Level generation *)

(** The rounds of [for (let i = start; i < stop; i += step)], with a positive
    constant [step]; [fuel] bounds the number of rounds. *)
Fixpoint forNum {A : Type} (fuel : nat) (i stop step : num)
    (body : num -> list A) : list A :=
  match fuel with
  | O => []
  | S fuel' =>
      if (i <? stop)%num then body i ++ forNum fuel' (i + step)%num stop step body
      else []
  end.

Definition rounds (i stop step : num) : nat :=
  match i, stop, step with
  | Fin a, Fin b, Fin s => Z.to_nat (Qceiling ((b - a) / s))
  | _, _, _ => O
  end.

Definition forLoop {A : Type} (i stop step : num) (body : num -> list A) : list A :=
  forNum (rounds i stop step) i stop step body.

(** [i % 3 === 0] *)
Definition multipleOf3 (i : num) : bool :=
  match i with
  | Fin q => (Qnum q mod (3 * Zpos (Qden q)) =? 0)%Z
  | NaN => false
  end.

Section Generate.
Import LevelObject.
Local Open Scope num_scope.

Definition addGround (start stop : num) : list LevelObject.t :=
  forLoop start stop (Fin 1) (fun i =>
    [mk (i * TILE) (HEIGHT - TILE / Fin 2) TILE (TILE / Fin 2) "block" (Some 1%Z)
        None VUndef None None None None None None None None false]).
Definition addSpike (pos : num) : list LevelObject.t :=
  [plain (pos * TILE) (HEIGHT - TILE) TILE TILE "spike"].
Definition addOrb (pos yOff : num) (ty : string) : list LevelObject.t :=
  [mk (pos * TILE) (HEIGHT - yOff * TILE) TILE TILE "orb" None (Some ty) VUndef
      None None None None None None None None false].
Definition addPortal (pos : num) (eff : string) (val : Value) : list LevelObject.t :=
  [mk (pos * TILE) (HEIGHT - Fin 2 * TILE) (Fin 1.5 * TILE) (Fin 0.5 * TILE)
      "portal" None (Some eff) val None None None None None None None None false].
Definition addCoin (pos yOff : num) (id : Z) : list LevelObject.t :=
  [mk (pos * TILE) (HEIGHT - yOff * TILE) TILE TILE "coin" None None VUndef
      (Some id) None None None None None None None false].
Definition finishLine (width : num) : list LevelObject.t :=
  [plain (width - TILE) (HEIGHT - Fin 1.5 * TILE) TILE TILE "finish"].
Definition teleObj (x y tx ty : num) : list LevelObject.t :=
  [mk x y TILE TILE "tele" None None VUndef None (Some tx) (Some ty) None None
      None None None false].
Definition triggerObj (x : num) (eff : string) (dx dy : option num)
    (color : option Z) (alpha : option num) : list LevelObject.t :=
  [mk x (HEIGHT - TILE) TILE TILE "trigger" None (Some eff) VUndef None None None
      (Some 1%Z) dx dy color alpha false].

(** [p / 100 * (width / TILE)] *)
Definition pct (p : Q) (width : num) : num := Fin p / Fin 100 * (width / TILE).
End Generate.

(** [generateLevel(id)]: the object literals in the order they are pushed,
    the width and the height.  [loadLevel] allocates the literals. *)
Definition generateLevel (id : Z) : list LevelObject.t * num * num :=
  let spikes ps width := flat_map (fun p => addSpike (pct p width)) ps in
  let orbs ps yOff ty width := flat_map (fun p => addOrb (pct p width) yOff ty) ps in
  let block x y w h := [LevelObject.plain x y w h "block"] in
  (if (id =? 1)%Z then
     let width := Fin 120 * TILE in
     (addGround (Fin 0) (width / TILE)
      ++ spikes [10; 15; 20; 25; 30; 35; 40] width
      ++ orbs [12; 17; 22; 27; 32; 37] (Fin 1.5) "yellow" width
      ++ addPortal (pct 45 width) "mode" (VStr "ship")
      ++ forLoop (pct 50 width) (pct 70 width) (Fin 1) (fun i =>
           block (i * TILE) (Fin 2 * TILE) TILE TILE
           ++ (if multipleOf3 i
               then block (i * TILE) (HEIGHT - Fin 3 * TILE) TILE TILE else []))
      ++ addPortal (pct 70 width) "mode" (VStr "cube")
      ++ addCoin (pct 50 width) (Fin 4) 1
      ++ addCoin (pct 74 width) (Fin 3) 2
      ++ addCoin (pct 98 width) (Fin 6) 3
      ++ finishLine width, width, HEIGHT)
   else if (id =? 2)%Z then
     let width := Fin 100 * TILE in
     (addGround (Fin 0) (width / TILE)
      ++ addPortal (pct 20 width) "gravity" VUndef
      ++ spikes [25; 30; 35] width
      ++ addPortal (pct 40 width) "gravity" VUndef
      ++ addCoin (pct 35 width) (Fin 2) 1
      ++ addCoin (pct 65 width) (Fin 5) 2
      ++ addCoin (pct 93 width) (Fin 3) 3
      ++ orbs [22; 42; 62] (Fin 1.5) "yellow" width
      ++ finishLine width, width, HEIGHT)
   else if (id =? 3)%Z then
     let width := Fin 110 * TILE in
     (addGround (Fin 0) (width / TILE)
      ++ orbs [10; 15; 20; 30; 40; 50; 60] (Fin 2) "yellow" width
      ++ addPortal (pct 25 width) "gravity" VUndef
      ++ addPortal (pct 55 width) "gravity" VUndef
      ++ addCoin (pct 28 width) (Fin 4) 1
      ++ addCoin (pct 62 width) (Fin 3) 2
      ++ addCoin (pct 90 width) (Fin 5) 3
      ++ spikes [12; 22; 32; 42; 52; 62; 72] width
      ++ finishLine width, width, HEIGHT)
   else if (id =? 4)%Z then
     let width := Fin 115 * TILE in
     (addGround (Fin 0) (width / TILE)
      ++ addPortal (pct 15 width) "gravity" VUndef
      ++ spikes [20; 25; 30; 35] width
      ++ addPortal (pct 40 width) "gravity" VUndef
      ++ addPortal (pct 45 width) "mode" (VStr "ship")
      ++ forLoop (pct 46 width) (pct 55 width) (Fin 0.5) (fun i =>
           block (i * TILE) (Fin 3 * TILE) (TILE / Fin 2) (TILE / Fin 2))
      ++ addPortal (pct 55 width) "mode" (VStr "cube")
      ++ addCoin (pct 30 width) (Fin 4) 1
      ++ addCoin (pct 70 width) (Fin 2) 2
      ++ addCoin (pct 95 width) (Fin 5) 3
      ++ finishLine width, width, HEIGHT)
   else if (id =? 22)%Z then
     let width := Fin 130 * TILE in
     (addGround (Fin 0) (width / TILE)
      ++ addPortal (pct 20 width) "mode" (VStr "swing")
      ++ orbs [25; 35; 45] (Fin 1.5) "dash" width
      ++ addPortal (pct 50 width) "mode" (VStr "cube")
      ++ addCoin (pct 30 width) (Fin 3) 1
      ++ addCoin (pct 60 width) (Fin 4) 2
      ++ addCoin (pct 90 width) (Fin 2) 3
      ++ finishLine width, width, HEIGHT)
   else
     let width := Fin 600 * TILE in
     (addGround (Fin 0) (width / TILE)
      ++ addSpike (Fin 5)
      ++ addOrb (Fin 10) (Fin 1.5) "yellow"
      ++ addOrb (Fin 15) (Fin 1.5) "green"
      ++ addOrb (Fin 20) (Fin 1.5) "red"
      ++ addOrb (Fin 25) (Fin 1.5) "dash"
      ++ addPortal (Fin 30) "gravity" VUndef
      ++ addPortal (Fin 35) "mini" VUndef
      ++ addPortal (Fin 40) "mirror" VUndef
      ++ addPortal (Fin 45) "dual" VUndef
      ++ addPortal (Fin 50) "speed" (VNum (Fin 0.5))
      ++ addPortal (Fin 55) "speed" (VNum (Fin 2))
      ++ addPortal (Fin 60) "speed" (VNum (Fin 3))
      ++ addPortal (Fin 65) "speed" (VNum (Fin 4))
      ++ addPortal (Fin 70) "mode" (VStr "cube")
      ++ addPortal (Fin 75) "mode" (VStr "ship")
      ++ addPortal (Fin 80) "mode" (VStr "ball")
      ++ addPortal (Fin 85) "mode" (VStr "ufo")
      ++ addPortal (Fin 90) "mode" (VStr "wave")
      ++ addPortal (Fin 95) "mode" (VStr "robot")
      ++ addPortal (Fin 100) "mode" (VStr "spider")
      ++ addPortal (Fin 105) "mode" (VStr "swing")
      ++ teleObj (Fin 110 * TILE) (HEIGHT - Fin 2 * TILE)
                 (Fin 150 * TILE) (Fin 4 * TILE)
      ++ teleObj (Fin 150 * TILE) (Fin 4 * TILE)
                 (Fin 110 * TILE) (HEIGHT - Fin 2 * TILE)
      ++ triggerObj (Fin 120 * TILE) "move" (Some (Fin 50)) (Some (Fin 0)) None None
      ++ triggerObj (Fin 130 * TILE) "color" None None (Some 5%Z) None
      ++ triggerObj (Fin 140 * TILE) "alpha" None None None (Some (Fin 0.5))
      ++ addCoin (Fin 160) (Fin 3) 1
      ++ addCoin (Fin 170) (Fin 4) 2
      ++ addCoin (Fin 180) (Fin 2) 3
      ++ flat_map (fun p => addOrb (Fin p) (Fin 1.5) "yellow") [190; 200; 210]
      ++ finishLine width, width, HEIGHT))%num.

(** ** Particles and the pool *)

(** [init(x, y, type)]: four calls of [Math.random], the first numbered [k]. *)
Definition Particle_init (rnd : nat -> Q) (k : nat) (x y : num) (ty : string)
    : Particle.t :=
  Particle.mk x y
    (Fin ((rnd k - 0.5) * 20))
    (Fin ((rnd (k + 1)%nat - 0.5) * 20))
    (Fin (rnd (k + 2)%nat * 0.5 + 0.5))
    (Some ty)
    (Some (Qfloor (rnd (k + 3)%nat * 16))).

(** [update(dt)]: the particle after the step, and whether it is still alive. *)
Definition Particle_update (dt : num) (p : Particle.t) : Particle.t * bool :=
  let x := (Particle.x p + Particle.vx p * dt * Fin 60)%num in
  let y := (Particle.y p + Particle.vy p * dt * Fin 60)%num in
  let vx := (Particle.vx p * Fin 0.98)%num in
  let vy := (Particle.vy p * Fin 0.98)%num in
  let life := (Particle.life p - dt)%num in
  (Particle.mk x y vx vy life (Particle.type p) (Particle.color p),
   (life >? Fin 0)%num).

(** The particle in a slot of the pool.  The slots always hold handles of
    the particle heap, so the defaults are never reached. *)
Definition slot (g : Game.t) (i : nat) : nat :=
  default O (Game.particlesPool g !! i).
Definition particleAt (g : Game.t) (ph : nat) : Particle.t :=
  default Particle.fresh (Game.particles g !! ph).

(** [addParticle(x, y, type, count)]: the [for] loop with its [break]. *)
Fixpoint Game_addParticle (x y : num) (ty : string) (count : nat) (g : Game.t)
    : Game.t :=
  match count with
  | O => g
  | S count' =>
      if (length (Game.particlesPool g) <=? Game.activeParticles g)%nat then g
      else
        let ph := slot g (Game.activeParticles g) in
        let p := Particle_init (Game.randomSource g) (Game.randomCalls g) x y ty in
        Game_addParticle x y ty count'
          (Game.set_randomCalls (Game.randomCalls g + 4)%nat
             (Game.set_activeParticles (S (Game.activeParticles g))
                (Game.set_particles (<[ph := p]> (Game.particles g)) g)))
  end.

(** [updateParticles(dt)].  Every round either advances [i] or lowers
    [activeParticles], so [activeParticles - i] rounds remain; [n] counts
    them.  The removal [pool[i--] = pool[--activeParticles]] copies the
    handle of the last active slot over slot [i]. *)
Fixpoint updateParticles_from (n i : nat) (dt : num) (g : Game.t) : Game.t :=
  match n with
  | O => g
  | S n' =>
      if (i <? Game.activeParticles g)%nat then
        let ph := slot g i in
        let (p, alive) := Particle_update dt (particleAt g ph) in
        let g := Game.set_particles (<[ph := p]> (Game.particles g)) g in
        if alive then updateParticles_from n' (S i) dt g
        else
          let last := Nat.pred (Game.activeParticles g) in
          let g := Game.set_activeParticles last g in
          let g := Game.set_particlesPool
                     (<[i := slot g last]> (Game.particlesPool g)) g in
          updateParticles_from n' i dt g
      else g
  end.

Definition Game_updateParticles (dt : num) (g : Game.t) : Game.t :=
  updateParticles_from (Game.activeParticles g) 0 dt g.

(** ** The player: receiver, pose, bounding box *)

Inductive Who := P1 | P2.

Definition this (who : Who) (g : Game.t) : Player.t :=
  match who with P1 => Game.player g | P2 => Game.player2 g end.

Definition setThis (who : Who) (p : Player.t) (g : Game.t) : Game.t :=
  match who with P1 => Game.set_player p g | P2 => Game.set_player2 p g end.

Definition onThis (who : Who) (f : Player.t -> Player.t) : cmd :=
  fun g => Ok (setThis who (f (this who g)) g).

(** [reset()] *)
Definition Player_reset : Player.t :=
  Player.mk (TILE * Fin 3)%num (HEIGHT - TILE * Fin 1.5)%num
    (Fin 10.309) (Fin 0) (VStr "cube") (Fin 1) false (Fin 1) true true (Fin 0)
    false false.

(** [fixedStep(step)] *)
Definition Player_fixedStep (step : num) (p : Player.t) : Player.t :=
  let p := Player.set_x (Player.x p + Player.vx p * step / Fin 4)%num p in
  Player.set_y (Player.y p + Player.vy p * step / Fin 4)%num p.

(** [getBBox()] *)
Definition Player_getBBox (p : Player.t) : Rect.t :=
  let s := (TILE * Player.size p * (if Player.mini p then Fin 0.5 else Fin 1)
            * Fin 0.9)%num in
  Rect.mk (Player.x p - s / Fin 2)%num (Player.y p - s / Fin 2)%num s s.

(** [collide(a, b)] *)
Definition Player_collide (a b : Rect.t) : bool :=
  (Rect.x a <? Rect.x b + Rect.w b)%num && (Rect.x a + Rect.w a >? Rect.x b)%num
  && (Rect.y a <? Rect.y b + Rect.h b)%num && (Rect.y a + Rect.h a >? Rect.y b)%num.

(** [jump(hold = false)] *)
Definition Player_jump (who : Who) (hold : bool) : cmd := fun g =>
  let p := this who g in
  if Player.onGround p || hold then
    match MODES (Player.mode p) with
    | None => Throw
    | Some modeData =>
        Ok (setThis who (Player.set_vy (ModeData.jump modeData * Player.flip p)%num p) g)
    end
  else Ok g.

(** ** Game: level loading, death, input *)

Definition modifyObj (o : handle) (f : LevelObject.t -> LevelObject.t) : cmd :=
  fun g => Ok (Game.set_heap (alter f o (Game.heap g)) g).

(** [setState(state)] without its DOM writes. *)
Definition Game_setState (s : string) : cmd := fun g =>
  let g := Game.set_state s g in
  let g := if String.eqb s "game" then Game.set_paused false g else g in
  if String.eqb s "editor" then Unmodelled else Ok g.

(** [this.quadTree.insert(o)] *)
Definition Game_insert (o : handle) : cmd := fun g =>
  match Game.quadTree g with
  | None => Throw
  | Some t =>
      Ok (Game.set_quadTree (Some (snd (QuadTree_insert (Game.heap g) o t))) g)
  end.

(** The two statements that (re)build the index, as they stand in
    [loadLevel] and in [handleTrigger]:
    [this.quadTree = new QuadTree({x: 0, y: 0, w: level.width, h: level.height});
     this.level.objects.forEach(o => this.quadTree.insert(o));] *)
Definition Game_index : cmd := fun g =>
  match Game.level g with
  | None => Throw
  | Some lv =>
      (modify (Game.set_quadTree
                 (Some (QuadTree_new (Rect.mk (Fin 0) (Fin 0) (Level.width lv)
                                              (Level.height lv)))))
       ;; forEach (Level.objects lv) Game_insert) g
  end.

(** [loadLevel(id)]: the literals of [generateLevel] are allocated at the
    end of the heap. *)
Definition Game_loadLevel (id : Z) : cmd :=
  modify (Game.set_levelId id) ;;
  Game_setState "game" ;;
  modify (fun g =>
    let '(objs, width, height) := generateLevel id in
    let lv := Level.mk (seq (length (Game.heap g)) (length objs)) width height in
    Game.set_level (Some lv) (Game.set_heap (Game.heap g ++ objs) g)) ;;
  Game_index ;;
  modify (Game.set_player Player_reset) ;;
  modify (Game.set_player2 Player_reset) ;;
  modify (fun g => Game.set_player2 (Player.set_active false (Game.player2 g)) g) ;;
  modify (Game.set_time (Fin 0)) ;;
  modify (Game.set_currentCP (Some O)) ;;
  modify (Game.set_activeParticles O) ;;
  modify (Game.set_coins O) ;;
  modify (Game.set_orbs O) ;;
  modify (Game.set_replays []) ;;
  modify (Game.set_speedMult (Fin 1)).

(** [restart()] *)
Definition Game_restart : cmd := fun g => Game_loadLevel (Game.levelId g) g.

(** [win()] without its [alert]. *)
Definition Game_win : cmd := Game_setState "menu".

(** [die(player)] *)
Definition Game_die (who : Who) : cmd :=
  (fun g => modify (Game_addParticle (Player.x (this who g)) (Player.y (this who g))
                                     "death" 50) g) ;;
  (fun g =>
     if Game.practice g && (0 <? length (Game.checkpoints g))%nat then
       match Game.currentCP g ≫= (fun i => Game.checkpoints g !! i) with
       | None => Throw
       | Some cp =>
           let g := Game.set_player (Checkpoint.p1 cp) g in
           Ok (if Player.active (Game.player2 g)
               then Game.set_player2 (Checkpoint.p2 cp) g else g)
       end
     else Game_restart g).

(** [togglePractice()] *)
Definition Game_togglePractice (g : Game.t) : Game.t :=
  let g := Game.set_practice (negb (Game.practice g)) g in
  if Game.practice g && (length (Game.checkpoints g) =? 0)%nat
  then Game.set_checkpoints
         (Game.checkpoints g ++ [Checkpoint.mk (Game.player g) (Game.player2 g)]) g
  else g.

(** [toggleReplay()] *)
Definition Game_toggleReplay (g : Game.t) : Game.t :=
  let g := Game.set_replayMode (negb (Game.replayMode g)) g in
  if Game.replayMode g then Game.set_replayIndex O g else g.

(** [togglePause()] without the music. *)
Definition Game_togglePause (g : Game.t) : Game.t :=
  if negb (String.eqb (Game.state g) "game")
     && negb (String.eqb (Game.state g) "editor") then g
  else Game.set_paused (negb (Game.paused g)) g.

(** [recordReplay(action)] *)
Definition Game_recordReplay (action : string) : cmd :=
  modify (fun g =>
    Game.set_replays
      (Game.replays g ++ [ReplayEvent.mk (Game.time g * Fin 240)%num action]) g).

(** [handleInput(down)] *)
Definition Game_handleInput (down : bool) : cmd :=
  when (fun g => String.eqb (Game.state g) "game" && negb (Game.paused g))
    ((if down then Player_jump P1 false else skip) ;;
     Game_recordReplay (if down then "jump" else "release")) ;;
  (fun g => if String.eqb (Game.state g) "editor" then Unmodelled else Ok g).

(** ** The player: contact dispatch and the per-frame update *)

Definition typeIs (ob : LevelObject.t) (s : string) : bool :=
  String.eqb (LevelObject.type ob) s.
Definition effectIs (ob : LevelObject.t) (s : string) : bool :=
  match LevelObject.effect ob with Some e => String.eqb e s | None => false end.
Definition modeIs (p : Player.t) (s : string) : bool :=
  match Player.mode p with VStr m => String.eqb m s | _ => false end.

(** [jumps[o.effect]], a missing entry reading as [NaN] in the product. *)
Definition jumps (eff : option string) : num :=
  match eff with
  | Some e =>
      if String.eqb e "yellow" then Fin 1.0
      else if String.eqb e "green" then Fin 1.2
      else if String.eqb e "red" then Fin 0.8
      else if String.eqb e "dash" then Fin 0
      else NaN
  | None => NaN
  end.

(** [if (o.id)] *)
Definition truthyId (i : option Z) : bool :=
  match i with Some z => negb (z =? 0)%Z | None => false end.

(** [handleObject(o)] *)
Definition Player_handleObject (who : Who) (o : handle) : cmd := fun g =>
  let ob := deref (Game.heap g) o in
  if LevelObject.used ob then Ok g else
  (modifyObj o (LevelObject.set_used true) ;;
   if typeIs ob "portal" then
     when (fun _ => effectIs ob "gravity")
       (onThis who (fun p => Player.set_flip (Player.flip p * Fin (-1))%num p)) ;;
     when (fun _ => effectIs ob "mini")
       (onThis who (fun p => Player.set_mini (negb (Player.mini p)) p)) ;;
     when (fun _ => effectIs ob "mirror")
       (onThis who (fun p => Player.set_mirror (negb (Player.mirror p)) p)) ;;
     when (fun _ => effectIs ob "dual")
       (modify (fun g => Game.set_player2
          (Player.set_active (negb (Player.active (Game.player2 g)))
                             (Game.player2 g)) g)) ;;
     when (fun _ => effectIs ob "speed")
       (modify (Game.set_speedMult (numOfValue (LevelObject.value ob)))) ;;
     when (fun _ => effectIs ob "mode")
       (onThis who (Player.set_mode (LevelObject.value ob)))
   else if typeIs ob "tele" then
     onThis who (Player.set_x (toNum (LevelObject.targetX ob))) ;;
     onThis who (Player.set_y (toNum (LevelObject.targetY ob)))
   else if typeIs ob "orb" then
     (fun g => match MODES (Player.mode (this who g)) with
               | None => Throw
               | Some md =>
                   onThis who (fun p => Player.set_vy
                     (ModeData.jump md * Player.flip p
                      * jumps (LevelObject.effect ob))%num p) g
               end) ;;
     when (fun _ => effectIs ob "dash") (onThis who (Player.set_dashHold true)) ;;
     modify (Game_addParticle (LevelObject.x ob) (LevelObject.y ob) "orb" 30) ;;
     when (fun _ => truthyId (LevelObject.id ob))
       (modify (fun g => Game.set_orbs (S (Game.orbs g)) g))
   else if typeIs ob "pad" then
     (fun g => match MODES (Player.mode (this who g)) with
               | None => Throw
               | Some md =>
                   onThis who (fun p => Player.set_vy
                     (ModeData.jump md * Player.flip p * Fin 1.5)%num p) g
               end) ;;
     modify (Game_addParticle (LevelObject.x ob) (LevelObject.y ob) "pad" 20)
   else if typeIs ob "coin" then
     modify (fun g => Game.set_coins (S (Game.coins g)) g) ;;
     modify (Game_addParticle (LevelObject.x ob) (LevelObject.y ob) "coin" 40)
   else if typeIs ob "finish" then Game_win
   else if typeIs ob "spike" then Game_die who
   else skip) g.

(** [keys.has('Space') || keys.has('ArrowUp')] *)
Definition inputHeld (keys : list string) : bool :=
  existsb (String.eqb "Space") keys || existsb (String.eqb "ArrowUp") keys.

(** [update], first part: velocities, the switch on the mode, the advance
    of the position and [onGround = false]. *)
Definition Player_move (dt speedMult : num) (input : bool) (p : Player.t)
    : result Player.t :=
  let gdt := (dt * Fin 240)%num in
  match MODES (Player.mode p) with
  | None => Throw
  | Some modeData =>
      let p := Player.set_vx
        (ModeData.baseSpeed modeData * speedMult
         * (if Player.mirror p then Fin (-1) else Fin 1))%num p in
      let p := Player.set_vy
        (Player.vy p + ModeData.gravity modeData * Player.flip p * gdt
                       * (if Player.mini p then Fin 0.7 else Fin 1))%num p in
      let p := Player.set_jumpHold
        (if input then (Player.jumpHold p + gdt)%num else Fin 0) p in
      let thrustStep := (if input then nneg (ModeData.thrust modeData) * gdt
                         else ModeData.thrust modeData * gdt)%num in
      let edge := (Player.jumpHold p =? gdt)%num in
      let p :=
        if modeIs p "cube" then
          if Player.onGround p && edge
          then Player.set_vy (ModeData.jump modeData * Player.flip p)%num p else p
        else if modeIs p "ship" then
          Player.set_vy (Player.vy p + thrustStep)%num p
        else if modeIs p "ball" then
          let p := if edge then Player.set_flip (Player.flip p * Fin (-1))%num p
                   else p in
          Player.set_vy (Fin 0) p
        else if modeIs p "ufo" then
          let p := if edge
                   then Player.set_vy (ModeData.jump modeData * Player.flip p)%num p
                   else p in
          Player.set_vy (nmax (nmin (Player.vy p) (Fin 10)) (Fin (-10))) p
        else if modeIs p "wave" then
          Player.set_vy ((if input then Fin (-1) else Fin 1)
                         * ModeData.speed modeData * Player.flip p)%num p
        else if modeIs p "robot" then
          if Player.onGround p && (Player.jumpHold p >? Fin 10)%num
          then Player.set_vy (ModeData.jump modeData * Player.flip p
                              * (Player.jumpHold p / Fin 20))%num p
          else p
        else if modeIs p "spider" then
          if edge then
            let p := Player.set_flip (Player.flip p * Fin (-1))%num p in
            Player.set_vy (ModeData.jump modeData * Player.flip p)%num p
          else p
        else if modeIs p "swing" then
          Player.set_vy (Player.vy p + thrustStep)%num p
        else p in
      let p := Player.set_x (Player.x p + Player.vx p * gdt)%num p in
      let p := Player.set_y (Player.y p + Player.vy p * gdt)%num p in
      Ok (Player.set_onGround false p)
  end.

(** One round of the [// X collision] loop. *)
Definition xPass (who : Who) (bbox : Rect.t) (o : handle) : cmd := fun g =>
  let ob := deref (Game.heap g) o in
  let p := this who g in
  if typeIs ob "block"
     && Player_collide (Rect.mk (Player.x p) (Rect.y bbox) (Rect.w bbox) (Rect.h bbox))
                       (LevelObject.rect ob)
  then Ok (setThis who
             (Player.set_x (if (Player.vx p >? Fin 0)%num
                            then (LevelObject.x ob - Rect.w bbox)%num
                            else (LevelObject.x ob + LevelObject.w ob)%num) p) g)
  else Ok g.

(** One round of the [// Y collision] loop. *)
Definition yPass (who : Who) (bbox : Rect.t) (o : handle) : cmd := fun g =>
  let ob := deref (Game.heap g) o in
  let p := this who g in
  if typeIs ob "block"
     && Player_collide (Rect.mk (Rect.x bbox) (Player.y p) (Rect.w bbox) (Rect.h bbox))
                       (LevelObject.rect ob)
  then
    if (Player.vy p * Player.flip p >? Fin 0)%num then
      let p := Player.set_y (if (Player.flip p >? Fin 0)%num
                             then (LevelObject.y ob - Rect.h bbox)%num
                             else (LevelObject.y ob + LevelObject.h ob)%num) p in
      let p := Player.set_vy (Fin 0) p in
      Ok (setThis who (Player.set_onGround true p) g)
    else
      let p := Player.set_y (if (Player.flip p >? Fin 0)%num
                             then (LevelObject.y ob + LevelObject.h ob)%num
                             else (LevelObject.y ob - Rect.h bbox)%num) p in
      Ok (setThis who (Player.set_vy (Fin 0) p) g)
  else Ok g.

(** One round of the [// Objects handle] loop. *)
Definition contact (who : Who) (bbox : Rect.t) (o : handle) : cmd := fun g =>
  if Player_collide bbox (LevelObject.rect (deref (Game.heap g) o))
  then Player_handleObject who o g else Ok g.

(** [update(dt, keys, quadTree)]; the pushes to [trail] are not modelled. *)
Definition Player_update (who : Who) (dt : num) (keys : list string)
    (quadTree : option QuadTree) : cmd := fun g =>
  match Player_move dt (Game.speedMult g) (inputHeld keys) (this who g) with
  | Ok p =>
      let g := setThis who p g in
      let bbox := Player_getBBox (this who g) in
      match quadTree with
      | None => Throw
      | Some t =>
          let vis := QuadTree_query (Game.heap g) bbox t [] in
          (forEach vis (xPass who bbox) ;;
           forEach vis (yPass who bbox) ;;
           forEach vis (contact who bbox)) g
      end
  | Throw => Throw
  | Unmodelled => Unmodelled
  end.

(** ** Game: triggers, replay, the frame *)

(** [obj.group === o.targetGroup] *)
Definition sameGroup (a b : option Z) : bool :=
  match a, b with
  | Some x, Some y => (x =? y)%Z
  | None, None => true
  | _, _ => false
  end.

(** [this.level.objects.filter(obj => obj.group === o.targetGroup)] *)
Definition groupOf (o : handle) (g : Game.t) (lv : Level.t) : list handle :=
  filter (fun obj => sameGroup (LevelObject.group (deref (Game.heap g) obj))
                       (LevelObject.targetGroup (deref (Game.heap g) o)) = true)
         (Level.objects lv).

Definition withLevel (k : Level.t -> cmd) : cmd := fun g =>
  match Game.level g with None => Throw | Some lv => k lv g end.

(** [handleTrigger(o)] *)
Definition Game_handleTrigger (o : handle) : cmd := fun g =>
  if LevelObject.used (deref (Game.heap g) o) then Ok g else
  (modifyObj o (LevelObject.set_used true) ;;
   when (fun g => effectIs (deref (Game.heap g) o) "move")
     (withLevel (fun lv g =>
        forEach (groupOf o g lv) (fun obj g =>
          (modifyObj obj (fun ob => LevelObject.set_pos
             (LevelObject.x ob + toNum (LevelObject.dx (deref (Game.heap g) o)))%num
             (LevelObject.y ob) ob) ;;
           modifyObj obj (fun ob => LevelObject.set_pos (LevelObject.x ob)
             (LevelObject.y ob + toNum (LevelObject.dy (deref (Game.heap g) o)))%num
             ob)) g) g) ;;
      Game_index) ;;
   when (fun g => effectIs (deref (Game.heap g) o) "color")
     (withLevel (fun lv g =>
        forEach (groupOf o g lv) (fun obj g =>
          modifyObj obj (LevelObject.set_color
                           (LevelObject.color (deref (Game.heap g) o))) g) g)) ;;
   when (fun g => effectIs (deref (Game.heap g) o) "alpha")
     (withLevel (fun lv g =>
        forEach (groupOf o g lv) (fun obj g =>
          modifyObj obj (LevelObject.set_alpha
                           (LevelObject.alpha (deref (Game.heap g) o))) g) g))) g.

(** [updateTriggers(dt)] *)
Definition Game_updateTriggers : cmd := fun g =>
  let bbox := Player_getBBox (Game.player g) in
  match Game.quadTree g with
  | None => Throw
  | Some t =>
      forEach (QuadTree_query (Game.heap g) bbox t []) (fun o g =>
        let ob := deref (Game.heap g) o in
        if typeIs ob "trigger" && Player_collide bbox (LevelObject.rect ob)
        then Game_handleTrigger o g else Ok g) g
  end.

(** [fixedUpdate(step)] *)
Definition Game_fixedUpdate (step : num) (g : Game.t) : Game.t :=
  let g := Game.set_player (Player_fixedStep step (Game.player g)) g in
  if Player.active (Game.player2 g)
  then Game.set_player2 (Player_fixedStep step (Game.player2 g)) g else g.

(** [checkWin()] *)
Definition Game_checkWin : cmd :=
  withLevel (fun lv g =>
    if (Player.x (Game.player g) >? Level.width lv)%num
       && (negb (Player.active (Game.player2 g))
           || (Player.x (Game.player2 g) >? Level.width lv)%num)
    then (modify (fun g => Game.set_stars (S (Game.stars g)) g) ;; Game_win) g
    else Ok g).

(** The [while] loop of [playReplay], run over the part of the log that
    starts at [replayIndex]: neither the log nor the clock changes inside
    the loop, and [replayIndex] advances by one per round. *)
Fixpoint replayFrom (pending : list ReplayEvent.t) : cmd := fun g =>
  match pending with
  | [] => Ok g
  | ev :: pending' =>
      if (ReplayEvent.frame ev <=? Game.time g * Fin 240)%num then
        (modify (fun g => Game.set_replayIndex (S (Game.replayIndex g)) g) ;;
         when (fun _ => String.eqb (ReplayEvent.action ev) "jump")
           (Player_jump P1 true) ;;
         when (fun _ => String.eqb (ReplayEvent.action ev) "release")
           (Player_jump P1 false) ;;
         replayFrom pending') g
      else Ok g
  end.

(** [playReplay(dt)] *)
Definition Game_playReplay : cmd := fun g =>
  replayFrom (drop (Game.replayIndex g) (Game.replays g)) g.

(** [const step = 1 / 240] *)
Definition step : num := (Fin 1 / Fin 240)%num.

(** The number of whole steps held by an accumulator. *)
Definition stepsDue (a : num) : nat :=
  match a with
  | Fin q => Z.to_nat (Qfloor (q * 240))
  | NaN => O
  end.

(** One round of the [while] loop of [update]. *)
Definition subStep (g : Game.t) : Game.t :=
  let g := Game_fixedUpdate step g in
  Game.set_accumulator (Game.accumulator g - step)%num g.

(** A value together with the equation that names it. *)
Definition inspect {A : Type} (a : A) : { b : A | a = b } := exist _ a eq_refl.

(** [while (this.accumulator >= step) { this.fixedUpdate(step); this.accumulator -= step; }]
    The loop ends because every round takes one whole step out of the
    accumulator (a [NaN] accumulator fails the test at once). *)
Equations? drain (g : Game.t) : Game.t by wf (stepsDue (Game.accumulator g)) lt :=
  drain g with inspect (Game.accumulator g >=? step)%num := {
    | exist _ true _ => drain (subStep g)
    | exist _ false _ => g }.
Proof.
  assert (E : Game.accumulator (Game_fixedUpdate step g) = Game.accumulator g).
  { unfold Game_fixedUpdate. destruct (Player.active _); reflexivity. }
  unfold subStep. cbn [Game.accumulator Game.set_accumulator]. rewrite E.
  destruct (Game.accumulator g) as [q|]; [|discriminate].
  change step with (Fin (1 # 240)) in *.
  cbn in e. apply Qle_bool_iff in e.
  cbn [nsub lift2 stepsDue].
  assert (Hs : (Qred (q - (1 # 240))) * 240 == q * 240 - 1)
    by (rewrite Qred_correct; field).
  rewrite Hs.
  pose proof (Qfloor_le (q * 240 - 1)) as L1.
  pose proof (Qlt_floor (q * 240 - 1)) as L2.
  pose proof (Qfloor_le (q * 240)) as L3.
  pose proof (Qlt_floor (q * 240)) as L4.
  change (Qred (1 / 240)) with (1 # 240) in e.
  set (a := Qfloor (q * 240 - 1)) in *.
  set (b := Qfloor (q * 240)) in *. clearbody a b.
  rewrite inject_Z_plus in L2, L4. change (inject_Z 1) with 1 in *.
  assert (Hab : (a < b)%Z).
  { apply Z.lt_nge. intros Hle. rewrite Zle_Qle in Hle. lra. }
  assert (Ha : (0 <= a)%Z).
  { apply Z.lt_succ_r. rewrite Zlt_Qlt. unfold Z.succ.
    rewrite inject_Z_plus. change (inject_Z 0) with 0.
    change (inject_Z 1) with 1. lra. }
  lia.
Qed.

(** [update(dt)], with names for its first statements: [tick] feeds the
    clocks, [advanceClock] adds the fixed-step loop, [updatePlayers] updates
    the two players.  The DOM writes, the music clock, the camera and the
    FPS counter are not modelled. *)
Definition tick (dt : num) (g : Game.t) : Game.t :=
  let g := Game.set_time (Game.time g + dt * Game.speedMult g)%num g in
  Game.set_accumulator (Game.accumulator g + dt)%num g.

Definition advanceClock (dt : num) : cmd := modify (tick dt) ;; modify drain.

Definition updatePlayers : cmd :=
  (fun g => Player_update P1 step (Game.keys g) (Game.quadTree g) g) ;;
  (fun g => if Player.active (Game.player2 g)
            then Player_update P2 step (Game.keys g) (Game.quadTree g) g
            else Ok g).

Definition Game_update (dt : num) : cmd := fun g =>
  if Game.paused g then Ok g
  else if String.eqb (Game.state g) "editor" then Unmodelled
  else if negb (String.eqb (Game.state g) "game") then Ok g
  else
    (advanceClock dt ;;
     updatePlayers ;;
     modify (Game_updateParticles step) ;;
     Game_updateTriggers ;;
     Game_checkWin ;;
     (fun g => if Game.replayMode g then Game_playReplay g else Ok g)) g.

(** [Math.min((now - this.lastTime) / 1000, 1 / 30)] *)
Definition frameDt (now lastTime : num) : num :=
  nmin ((now - lastTime) / Fin 1000)%num (Fin 1 / Fin 30)%num.

(** [loop()], where [now] is the reading of [performance.now()];
    [draw] and the request of the next frame are not modelled. *)
Definition Game_loop (now : num) : cmd := fun g =>
  let dt := frameDt now (Game.lastTime g) in
  (modify (Game.set_lastTime now) ;; Game_update dt) g.

(** The fields set by the constructor of [Game]; [rnd] is the source of
    [Math.random] and [now] the reading of the clock. *)
Definition Game_new (rnd : nat -> Q) (now : num) : Game.t :=
  Game.mk "menu" None 0%Z Player_reset Player_reset (Fin 0) false false false
    [] None (replicate 1000 Particle.fresh) (seq 0 1000) 0 now (Fin 0) (Fin 1)
    [] 0 0 0 0 None [] [] rnd 0.

(** The listeners of [keydown] and [keyup]. *)
Definition Game_keydown (code : string) (g : Game.t) : Game.t :=
  let g := if existsb (String.eqb code) (Game.keys g) then g
           else Game.set_keys (Game.keys g ++ [code]) g in
  if String.eqb code "Escape" then Game_togglePause g else g.
Definition Game_keyup (code : string) (g : Game.t) : Game.t :=
  Game.set_keys (List.filter (fun k => negb (String.eqb k code)) (Game.keys g)) g.


(** ** Scenarios *)

(** A game as the constructor leaves it, with a constant source of
    randomness and the clock at zero. *)
Definition blankGame : Game.t := Game_new (fun _ => 1 # 2) (Fin 0).

(** The game after [loadLevel(id)]. *)
Definition loaded (id : Z) : Game.t :=
  match Game_loadLevel id blankGame with Ok g => g | _ => blankGame end.

(** [this.quadTree.query(range)] *)
Definition queryIndex (g : Game.t) (range : Rect.t) : list handle :=
  match Game.quadTree g with
  | Some t => QuadTree_query (Game.heap g) range t []
  | None => []
  end.

Definition rectOf (g : Game.t) (o : handle) : Rect.t :=
  LevelObject.rect (deref (Game.heap g) o).

Definition isUsed (g : Game.t) (o : handle) : bool :=
  LevelObject.used (deref (Game.heap g) o).

(** Sequencing of outcomes, to run a session step by step. *)
Definition next (r : result Game.t) (c : cmd) : result Game.t :=
  match r with Ok g => c g | Throw => Throw | Unmodelled => Unmodelled end.

(** What an observer reads off an outcome. *)
Definition observe {A : Type} (f : Game.t -> A) (r : result Game.t) : option A :=
  match r with Ok g => Some (f g) | _ => None end.

(** [n] consecutive runs of a command. *)
Fixpoint times (n : nat) (c : cmd) : cmd :=
  match n with O => skip | S n' => c ;; times n' c end.

(** Stereo Madness with the cube in the air by the first raised block at
    [(1800, 330)], its centre just beyond the block's right and lower edges. *)
Definition besideBlock : Game.t :=
  Game.set_player (Player.set_y (Fin 364) (Player.set_x (Fin 1825) Player_reset))
                  (loaded 1).

(** An orb whose [effect] is not a key of [jumps]. *)
Definition blueOrb : LevelObject.t :=
  LevelObject.mk (Fin 0) (Fin 0) (Fin 30) (Fin 30) "orb" None (Some "blue") VUndef
                 None None None None None None None None false.

(** A live session on Stereo Madness: one frame, a press of the mouse while
    the cube is in the air, one more frame. *)
Definition liveSession : result Game.t :=
  next (next (Game_loop (Fin 16) (loaded 1)) (Game_handleInput true))
       (Game_loop (Fin 32)).

(** The log that the live session has recorded. *)
Definition liveLog : list ReplayEvent.t :=
  match liveSession with Ok g => Game.replays g | _ => [] end.

(** The same two frames from the same loaded level, driven by the log. *)
Definition replaySession : result Game.t :=
  next (Game_loop (Fin 16) (Game_toggleReplay (Game.set_replays liveLog (loaded 1))))
       (Game_loop (Fin 32)).

(** The game of an outcome. *)
Definition valueOf (r : result Game.t) : Game.t :=
  match r with Ok g => g | _ => blankGame end.


(** The [move] trigger of the demo level, as [generateLevel] writes it. *)
Definition moveTrigger : LevelObject.t :=
  LevelObject.mk (Fin 3600) (Fin 390) (Fin 30) (Fin 30) "trigger" None (Some "move")
                 VUndef None None None (Some 1%Z) (Some (Fin 50)) (Some (Fin 0))
                 None None false.

(** Stereo Madness with the flag of its first spike raised. *)
Definition spikeTouched : Game.t :=
  Game.set_heap (alter (LevelObject.set_used true) 120%nat (Game.heap (loaded 1)))
                (loaded 1).

(** ** Predicates of the statements *)

(** A divided node owns the four quadrants of its bounds. *)
Fixpoint wellSplit (t : QuadTree) : Prop :=
  match t with
  | QLeaf _ _ _ => True
  | QNode b _ _ nw ne sw se =>
      quadrants b = (QuadTree_bounds nw, QuadTree_bounds ne,
                     QuadTree_bounds sw, QuadTree_bounds se)
      /\ wellSplit nw /\ wellSplit ne /\ wellSplit sw /\ wellSplit se
  end.

(** The stored objects that pass the overlap test against a range. *)
Definition hit (hp : Heap) (q : Rect.t) (objs : list handle) : list handle :=
  filter (fun o => QuadTree_intersects q (LevelObject.rect (deref hp o)) = true) objs.

(** The bounds given to the index of a level. *)
Definition levelBounds (lv : Level.t) : Rect.t :=
  Rect.mk (Fin 0) (Fin 0) (Level.width lv) (Level.height lv).

(** The index that the two rebuilding statements produce. *)
Definition indexOf (hp : Heap) (lv : Level.t) : QuadTree :=
  fold_left (fun t o => snd (QuadTree_insert hp o t)) (Level.objects lv)
            (QuadTree_new (levelBounds lv)).

(** [obj.x += dx; obj.y += dy] *)
Definition shift (d e : num) (ob : LevelObject.t) : LevelObject.t :=
  LevelObject.set_pos (LevelObject.x ob + d)%num (LevelObject.y ob + e)%num ob.

(** [lo < v < hi] *)
Definition between (lo v hi : num) : Prop :=
  (lo <? v)%num = true /\ (v <? hi)%num = true.

(** What a command leaves alone.  [keeps]: the heap and the accumulator are
    the same.  [calm]: the accumulator is the same and the heap changed at
    most by raised [used] flags and new objects at its end.  [steady]: the
    accumulator is the same, no object vanished and no [used] flag fell. *)
Definition keeps (g g' : Game.t) : Prop :=
  Game.heap g' = Game.heap g /\ Game.accumulator g' = Game.accumulator g.

Definition frozen (hp hp' : Heap) : Prop :=
  forall o ob, hp !! o = Some ob ->
    hp' !! o = Some ob \/ hp' !! o = Some (LevelObject.set_used true ob).

Definition calm (g g' : Game.t) : Prop :=
  frozen (Game.heap g) (Game.heap g') /\ Game.accumulator g' = Game.accumulator g.

Definition grows (hp hp' : Heap) : Prop :=
  forall o ob, hp !! o = Some ob ->
    exists ob', hp' !! o = Some ob'
                /\ (LevelObject.used ob = true -> LevelObject.used ob' = true).

Definition steady (g g' : Game.t) : Prop :=
  grows (Game.heap g) (Game.heap g') /\ Game.accumulator g' = Game.accumulator g.

(** Every successful run of the command relates its ends by [R]. *)
Definition respects (R : Game.t -> Game.t -> Prop) (c : cmd) : Prop :=
  forall g g', c g = Ok g' -> R g g'.


(** The statements of [update] that follow the players and the particles. *)
Definition frameEnd : cmd :=
  Game_updateTriggers ;;
  Game_checkWin ;;
  (fun g => if Game.replayMode g then Game_playReplay g else Ok g).

(** ** The objects held by an index *)

(** The handles a tree holds, in the order in which [query] visits them. *)
Fixpoint stored (t : QuadTree) : list handle :=
  match t with
  | QLeaf _ _ objs => objs
  | QNode _ _ objs nw ne sw se =>
      objs ++ stored nw ++ stored ne ++ stored sw ++ stored se
  end.

(** No node holds more objects than its capacity. *)
Fixpoint capped (t : QuadTree) : Prop :=
  match t with
  | QLeaf _ c objs => (length objs <= c)%nat
  | QNode _ c objs nw ne sw se =>
      (length objs <= c)%nat /\ capped nw /\ capped ne /\ capped sw /\ capped se
  end.

(** Every object held below a node overlaps the bounds of that node. *)
Fixpoint anchored (hp : Heap) (t : QuadTree) : Prop :=
  Forall (fun o => QuadTree_intersects (QuadTree_bounds t)
                     (LevelObject.rect (deref hp o)) = true) (stored t)
  /\ match t with
     | QLeaf _ _ _ => True
     | QNode _ _ _ nw ne sw se =>
         anchored hp nw /\ anchored hp ne /\ anchored hp sw /\ anchored hp se
     end.

(** The rectangle [r] lies inside [range], edges included. *)
Definition covers (range r : Rect.t) : bool :=
  (Rect.x range <=? Rect.x r)%num
  && (Rect.x r + Rect.w r <=? Rect.x range + Rect.w range)%num
  && (Rect.y range <=? Rect.y r)%num
  && (Rect.y r + Rect.h r <=? Rect.y range + Rect.h range)%num.

(** The tree that a sequence of [insert] builds. *)
Definition inserted (hp : Heap) (l : list handle) (t : QuadTree) : QuadTree :=
  fold_left (fun t o => snd (QuadTree_insert hp o t)) l t.

(** What one insertion does to the objects held. *)
Definition storesOnce (o : handle) (t : QuadTree) (r : bool * QuadTree) : Prop :=
  if fst r then stored (snd r) ≡ₚ o :: stored t else stored (snd r) = stored t.

(** ** Generated levels *)

(** What [generateLevel] promises of an object of a level of the given size. *)
Definition tidy (width height : num) (ob : LevelObject.t) : bool :=
  negb (LevelObject.used ob)
  && covers (Rect.mk (Fin 0) (Fin 0) width height) (LevelObject.rect ob)
  && QuadTree_intersects (LevelObject.rect ob) (LevelObject.rect ob).

(** What [generateLevel] returns for every [id]. *)
Definition tidyLevel (r : list LevelObject.t * num * num) : Prop :=
  let '(objs, width, height) := r in
  height = Fin 420
  /\ Forall (fun ob => LevelObject.used ob = false
                       /\ covers (Rect.mk (Fin 0) (Fin 0) width height)
                                 (LevelObject.rect ob) = true
                       /\ QuadTree_intersects (LevelObject.rect ob)
                                              (LevelObject.rect ob) = true) objs
  /\ map LevelObject.id (filter (fun ob => typeIs ob "coin" = true) objs)
     = [Some 1; Some 2; Some 3]%Z
  /\ exists front,
       objs = front ++ [LevelObject.plain (width - TILE)%num (Fin 375) TILE TILE "finish"]
       /\ Forall (fun ob => typeIs ob "finish" = false) front.

(** The state in which [loadLevel] leaves the game. *)
Definition afterLoad (id : Z) (g : Game.t) : Game.t :=
  let '(objs, width, height) := generateLevel id in
  let hp := Game.heap g ++ objs in
  let lv := Level.mk (seq (length (Game.heap g)) (length objs)) width height in
  Game.mk "game" (Some lv) id Player_reset (Player.set_active false Player_reset)
    (Fin 0) false (Game.practice g) (Game.replayMode g) (Game.checkpoints g) (Some O)
    (Game.particles g) (Game.particlesPool g) O (Game.lastTime g) (Game.accumulator g)
    (Fin 1) [] (Game.replayIndex g) (Game.stars g) O O (Some (indexOf hp lv))
    (Game.keys g) hp (Game.randomSource g) (Game.randomCalls g).

(** ** Marks, due events, the palette, ageing particles *)

(** The game with the [used] flag of an object raised. *)
Definition marked (o : handle) (g : Game.t) : Game.t :=
  Game.set_heap (alter (LevelObject.set_used true) o (Game.heap g)) g.

(** The property names that the object literal [MODES] inherits from
    [Object.prototype]: for these [MODES[key]] is an inherited value and not
    [undefined], which the table [MODES] above, of own entries, does not
    tell. *)
Definition inherited : list string :=
  ["constructor"; "hasOwnProperty"; "isPrototypeOf"; "propertyIsEnumerable";
   "toLocaleString"; "toString"; "valueOf"; "__proto__"; "__defineGetter__";
   "__defineSetter__"; "__lookupGetter__"; "__lookupSetter__"].

(** An event of the log is due when the clock of the game has reached it. *)
Definition due (g : Game.t) (ev : ReplayEvent.t) : bool :=
  (ReplayEvent.frame ev <=? Game.time g * Fin 240)%num.




(** ** The editor: placing an object *)

Module Editor.
(** The fields of [Editor] that [handleInput] reads.  The undo and redo
    stacks, which hold JSON text, and the selection are not modelled. *)
Record t := mk {
  currentType : string;
  currentColor : Z;
  mouseX : num;
  mouseY : num;
  gridSnap : bool }.
End Editor.

(** [Math.round(v)]: the nearest integer, a half going up. *)
Definition Math_round (v : num) : num :=
  match v with
  | Fin q => Fin (inject_Z (Qfloor (q + (1 # 2))))
  | NaN => NaN
  end.

(** [s.startsWith(pre)] and, when it does, [s.replace(pre, '')]: the first
    occurrence of [pre] is then the one at the start. *)
Fixpoint dropPrefix (pre s : string) : option string :=
  match pre, s with
  | EmptyString, _ => Some s
  | String a pre', String b s' => if Ascii.eqb a b then dropPrefix pre' s' else None
  | String _ _, EmptyString => None
  end.

(** The object literal of [Editor.handleInput], with [rnd] the value of its
    call of [Math.random]. *)
Definition Editor_object (e : Editor.t) (rnd : Q) : LevelObject.t :=
  let x := if Editor.gridSnap e then (Math_round (Editor.mouseX e / TILE) * TILE)%num
           else Editor.mouseX e in
  let y := if Editor.gridSnap e then (Math_round (Editor.mouseY e / TILE) * TILE)%num
           else Editor.mouseY e in
  let ty := Editor.currentType e in
  let eff := None in
  let eff := match dropPrefix "portal-" ty with Some r => Some r | None => eff end in
  let eff := match dropPrefix "orb-" ty with Some r => Some r | None => eff end in
  let eff := match dropPrefix "trigger-" ty with Some r => Some r | None => eff end in
  let tele := String.eqb ty "tele" in
  LevelObject.mk x y TILE TILE ty (Some (Qfloor (rnd * 10) + 1)%Z) eff VUndef None
    (if tele then Some (x + Fin 100 * TILE)%num else None)
    (if tele then Some y else None)
    None None None (Some (Editor.currentColor e)) (Some (Fin 1)) false.

(** [Editor.handleInput(down)]: the new object is allocated, pushed to the
    level and inserted into the index. *)
Definition Editor_handleInput (e : Editor.t) (down : bool) : cmd :=
  if down then
    withLevel (fun lv g =>
      let o := length (Game.heap g) in
      let ob := Editor_object e (Game.randomSource g (Game.randomCalls g)) in
      (modify (fun g =>
         Game.set_randomCalls (S (Game.randomCalls g))
           (Game.set_level
              (Some (Level.mk (Level.objects lv ++ [o]) (Level.width lv) (Level.height lv)))
              (Game.set_heap (Game.heap g ++ [ob]) g))) ;;
       Game_insert o) g)
  else skip.

(** ** The camera *)

(** [this.cam], which only [updateCam] writes. *)
Module Cam.
Record t := mk { x : num; y : num; zoom : num }.
End Cam.

(** [updateCam()], where [lead] is the value of [this.w / (this.scale * 3)]. *)
Definition Game_updateCam (lead : num) (cam : Cam.t) (g : Game.t) : Cam.t :=
  let x := nmax (Player.x (Game.player g) - lead)%num (Cam.x cam) in
  let x := if Player.active (Game.player2 g)
           then nmin x (Player.x (Game.player2 g) - lead)%num else x in
  Cam.mk x (if (Player.flip (Game.player g) <? Fin 0)%num then (HEIGHT / Fin 2)%num
            else Fin 0)
         (Cam.zoom cam).

(** ** Further scenarios *)


Definition aroundBlock22 : Rect.t := Rect.mk (Fin 650) (Fin 400) (Fin 50) (Fin 25).

(** A trigger whose effect [handleTrigger] does not know. *)
Definition oddTrigger : LevelObject.t :=
  LevelObject.mk (Fin 0) (Fin 0) (Fin 30) (Fin 30) "trigger" None (Some "spawn") VUndef
                 None None None (Some 1%Z) None None None None false.

(** A [mode] portal whose value is not a key of [MODES]. *)
Definition oddPortal : LevelObject.t :=
  LevelObject.mk (Fin 0) (Fin 0) (Fin 45) (Fin 15) "portal" None (Some "mode")
                 (VStr "jetpack") None None None None None None None None false.

(** A new game with three particles. *)
Definition sparks : Game.t := Game_addParticle (Fin 0) (Fin 0) "orb" 3 blankGame.

(** An editor about to place a gravity portal at [(47, 100)], grid on. *)
Definition brush : Editor.t := Editor.mk "portal-gravity" 0 (Fin 47) (Fin 100) true.

(** Stereo Madness with the cube beyond the level width. *)
Definition pastTheEnd : Game.t :=
  Game.set_player (Player.set_x (Fin 4000) Player_reset) (loaded 1).

(** Stereo Madness with a log of two events. *)
Definition taped : Game.t :=
  Game.set_replays [ReplayEvent.mk (Fin 0) "jump"; ReplayEvent.mk (Fin 1000) "release"]
                   (loaded 1).

(** * Properties *)


(** The closed facts below are settled by evaluation. *)
Ltac evaluate := vm_compute; reflexivity.

(** ** The spatial index on a generated level *)

(** C1 (the code departs from the claim).  In Stereo Madness as [loadLevel(1)]
    builds it, the ground block at [x = 660] lies inside the index bounds,
    is stored (the query over its own bounds returns it) and overlaps the
    bounding box of a player centred at [(690, 392)]; the query over that
    box returns the neighbouring block only. *)
Theorem straddling_block_missed :
  Game_loadLevel 1 blankGame = Ok (loaded 1)
  /\ Game.level (loaded 1) = Some (Level.mk (seq 0 171) (Fin 3600) (Fin 420))
  /\ rectOf (loaded 1) 22%nat = Rect.mk (Fin 660) (Fin 405) (Fin 30) (Fin 15)
  /\ queryIndex (loaded 1) (rectOf (loaded 1) 22%nat) = [22%nat]
  /\ Player_getBBox (Player.set_y (Fin 392) (Player.set_x (Fin 690) Player_reset))
     = Rect.mk (Fin (1353 # 2)) (Fin (757 # 2)) (Fin 27) (Fin 27)
  /\ QuadTree_intersects (Rect.mk (Fin (1353 # 2)) (Fin (757 # 2)) (Fin 27) (Fin 27))
                         (rectOf (loaded 1) 22%nat) = true
  /\ queryIndex (loaded 1) (Rect.mk (Fin (1353 # 2)) (Fin (757 # 2)) (Fin 27) (Fin 27))
     = [23%nat].
Proof. do 6 (split; [evaluate|]). evaluate. Qed.

(** ** Collision passes *)

(** C4 (the code departs from the claim).  The cube of [besideBlock] is
    updated for one frame.  The block at [(1800, 330)] is the object the
    query returns, neither pass moves the player, and the bounding box after
    the two passes overlaps the block. *)
Theorem passes_leave_overlap :
  let frame := Player_update P1 step [] (Game.quadTree besideBlock) besideBlock in
  let box := Rect.mk (Fin 1821.809) (Fin 351.39) (Fin 27) (Fin 27) in
  observe (fun g' => deref (Game.heap g') 135%nat) frame
  = Some (LevelObject.set_used true
            (LevelObject.plain (Fin 1800) (Fin 330) (Fin 30) (Fin 30) "block"))
  /\ queryIndex besideBlock box = [135%nat]
  /\ observe (fun g' => Player_getBBox (Game.player g')) frame = Some box
  /\ observe (fun g' => Player_collide (Player_getBBox (Game.player g'))
                                       (rectOf g' 135%nat)) frame = Some true.
Proof. do 3 (split; [evaluate|]). evaluate. Qed.

(** ** Unknown effects *)

(** C5 (the code departs from the claim).  Contact with an orb whose effect
    is not a key of [jumps] turns the vertical velocity of the player into
    [NaN] and spawns thirty particles. *)
Theorem unknown_orb_effect_not_inert :
  let before := Game.set_heap [blueOrb] blankGame in
  let after := Player_handleObject P1 0%nat before in
  Player.vy (Game.player before) = Fin 0
  /\ observe (fun g' => Player.vy (Game.player g')) after = Some NaN
  /\ Game.activeParticles before = 0%nat
  /\ observe Game.activeParticles after = Some 30%nat.
Proof. do 3 (split; [evaluate|]). evaluate. Qed.

(** ** Replay *)

(** C6 (the code departs from the claim).  The live session records one
    event; the replay of that log from the same loaded level, over the same
    two frames, ends with the player elsewhere: the recorded press did
    nothing in the air, its replay makes the cube jump. *)
Theorem replay_diverges :
  liveLog = [ReplayEvent.mk (Fin (96 # 25)) "jump"]
  /\ observe Game.replayIndex replaySession = Some 1%nat
  /\ observe (fun g => Player.y (Game.player g)) liveSession
     = Some (Fin (9064169 # 24000))
  /\ observe (fun g => Player.y (Game.player g)) replaySession
     = Some (Fin (5483 # 15))
  /\ (Fin (5483 # 15) <? Fin (9064169 # 24000))%num = true.
Proof. do 4 (split; [evaluate|]). evaluate. Qed.

(** ** Numbers and rectangles *)

Lemma Qlt_bool_iff (p q : Q) : Qlt_bool p q = true <-> p < q.
Proof.
  unfold Qlt_bool. rewrite negb_true_iff. split.
  - intros H. apply Qnot_le_lt. intros L. apply Qle_bool_iff in L. congruence.
  - intros H. destruct (Qle_bool q p) eqn:E; [|reflexivity].
    apply Qle_bool_iff in E. exfalso. exact (Qlt_not_le _ _ H E).
Qed.

Lemma lift2_Fin (f : Q -> Q -> Q) (a b : num) (r : Q) :
  lift2 f a b = Fin r -> exists p q, a = Fin p /\ b = Fin q /\ r = Qred (f p q).
Proof.
  destruct a as [p|], b as [q|]; cbn; try discriminate.
  intros [= <-]. eauto.
Qed.

Lemma nlt_true (a b : num) :
  (a <? b)%num = true <-> exists p q, a = Fin p /\ b = Fin q /\ p < q.
Proof.
  split.
  - destruct a as [p|], b as [q|]; cbn; try discriminate.
    intros H. apply Qlt_bool_iff in H. eauto.
  - intros (p & q & -> & -> & H). cbn. apply Qlt_bool_iff, H.
Qed.

(** The overlap test in coordinates: it holds of finite rectangles only. *)
Definition overlaps (ax ay aw ah bx by' bw bh : Q) : Prop :=
  ax < bx + bw /\ bx < ax + aw /\ ay < by' + bh /\ by' < ay + ah.

Lemma intersects_true (a b : Rect.t) :
  QuadTree_intersects a b = true <->
  exists ax ay aw ah bx by' bw bh,
    a = Rect.mk (Fin ax) (Fin ay) (Fin aw) (Fin ah)
    /\ b = Rect.mk (Fin bx) (Fin by') (Fin bw) (Fin bh)
    /\ overlaps ax ay aw ah bx by' bw bh.
Proof.
  unfold QuadTree_intersects, ngt, overlaps. split.
  - destruct a as [ax ay aw ah], b as [bx by' bw bh]. cbn [Rect.x Rect.y Rect.w Rect.h].
    rewrite !andb_true_iff. intros [[[H1 H2] H3] H4].
    apply nlt_true in H1 as (p1 & q1 & -> & E1 & L1).
    apply nlt_true in H2 as (p2 & q2 & -> & E2 & L2).
    apply nlt_true in H3 as (p3 & q3 & -> & E3 & L3).
    apply nlt_true in H4 as (p4 & q4 & -> & E4 & L4).
    apply lift2_Fin in E1 as (? & ? & [= <-] & -> & ->).
    apply lift2_Fin in E2 as (? & ? & [= <-] & -> & ->).
    apply lift2_Fin in E3 as (? & ? & [= <-] & -> & ->).
    apply lift2_Fin in E4 as (? & ? & [= <-] & -> & ->).
    rewrite Qred_correct in L1, L2, L3, L4.
    do 8 eexists. split; [reflexivity|]. split; [reflexivity|]. auto.
  - intros (ax & ay & aw & ah & bx & by' & bw & bh & -> & -> & L1 & L2 & L3 & L4).
    cbn. rewrite !andb_true_iff, !Qlt_bool_iff, !Qred_correct. auto.
Qed.

Lemma collide_intersects (a b : Rect.t) :
  Player_collide a b = QuadTree_intersects a b.
Proof. reflexivity. Qed.

(** ** The quad-tree *)

(** The equation of [insert] as the source has it: a full, undivided node
    subdivides and then offers the object to its quadrants through [insert]
    itself. *)
Lemma insertFresh_insert (hp : Heap) (obj : handle) (b : Rect.t) :
  insertFresh (LevelObject.rect (deref hp obj)) obj (QuadTree_new b)
  = QuadTree_insert hp obj (QuadTree_new b).
Proof. reflexivity. Qed.

Lemma QuadTree_insert_eq (hp : Heap) (obj : handle) (t : QuadTree) :
  QuadTree_insert hp obj t =
  let r := LevelObject.rect (deref hp obj) in
  if negb (QuadTree_intersects (QuadTree_bounds t) r) then (false, t)
  else
    match t with
    | QLeaf b c objs =>
        if (length objs <? c)%nat then (true, QLeaf b c (objs ++ [obj]))
        else
          match QuadTree_subdivide t with
          | QNode b' c' objs' nw ne sw se =>
              some4 (QuadTree_insert hp obj) b' c' objs' nw ne sw se
          | t' => (false, t')
          end
    | QNode b c objs nw ne sw se =>
        some4 (QuadTree_insert hp obj) b c objs nw ne sw se
    end.
Proof.
  destruct t as [b c objs|b c objs nw ne sw se]; cbn [QuadTree_insert QuadTree_bounds];
    [|reflexivity].
  destruct (negb _); [reflexivity|].
  destruct (length objs <? c)%nat; [reflexivity|].
  cbn [QuadTree_subdivide]. destruct (quadrants b) as [[[q1 q2] q3] q4].
  unfold some4. rewrite !insertFresh_insert. reflexivity.
Qed.

(** [query] only appends to the list it is given. *)
Lemma query_acc (hp : Heap) (r : Rect.t) (t : QuadTree) (found : list handle) :
  QuadTree_query hp r t found = found ++ QuadTree_query hp r t [].
Proof.
  revert found.
  induction t as [b c objs|b c objs nw IHnw ne IHne sw IHsw se IHse]; intros found;
    cbn [QuadTree_query]; destruct (negb _).
  - now rewrite app_nil_r.
  - reflexivity.
  - now rewrite app_nil_r.
  - set (F := filter _ objs). cbn [app].
    rewrite (IHnw (found ++ F)), (IHnw F).
    rewrite (IHne ((found ++ F) ++ _)), (IHne (F ++ _)).
    rewrite (IHsw (((found ++ F) ++ _) ++ _)), (IHsw ((F ++ _) ++ _)).
    rewrite (IHse ((((found ++ F) ++ _) ++ _) ++ _)), (IHse (((F ++ _) ++ _) ++ _)).
    now rewrite <- !app_assoc.
Qed.

(** Every object that [query] returns passed the overlap test against the
    range. *)
Lemma query_sound (hp : Heap) (r : Rect.t) (t : QuadTree) (o : handle) :
  o ∈ QuadTree_query hp r t [] ->
  QuadTree_intersects r (LevelObject.rect (deref hp o)) = true.
Proof.
  induction t as [b c objs|b c objs nw IHnw ne IHne sw IHsw se IHse];
    cbn [QuadTree_query]; destruct (negb _); try (intros H; inversion H; fail).
  - cbn [app]. rewrite list_elem_of_filter. tauto.
  - cbn [app].
    rewrite query_acc, (query_acc _ _ sw), (query_acc _ _ ne), (query_acc _ _ nw).
    rewrite !elem_of_app, list_elem_of_filter. tauto.
Qed.

Lemma elem_query_leaf hp q b c objs x :
  x ∈ QuadTree_query hp q (QLeaf b c objs) [] <->
  QuadTree_intersects b q = true /\ x ∈ hit hp q objs.
Proof.
  cbn [QuadTree_query]. destruct (QuadTree_intersects b q); cbn [negb app].
  - unfold hit. tauto.
  - split; [intros H; inversion H|intros [? _]; discriminate].
Qed.

Lemma elem_query_node hp q b c objs nw ne sw se x :
  x ∈ QuadTree_query hp q (QNode b c objs nw ne sw se) [] <->
  QuadTree_intersects b q = true /\
  (x ∈ hit hp q objs \/ x ∈ QuadTree_query hp q nw [] \/ x ∈ QuadTree_query hp q ne []
   \/ x ∈ QuadTree_query hp q sw [] \/ x ∈ QuadTree_query hp q se []).
Proof.
  cbn [QuadTree_query]. destruct (QuadTree_intersects b q); cbn [negb app].
  - rewrite query_acc, (query_acc _ _ sw), (query_acc _ _ ne), (query_acc _ _ nw).
    rewrite !elem_of_app. unfold hit. tauto.
  - split; [intros H; inversion H|intros [? _]; discriminate].
Qed.

Lemma hit_app hp q l1 l2 x : x ∈ hit hp q (l1 ++ l2) <-> x ∈ hit hp q l1 \/ x ∈ hit hp q l2.
Proof. unfold hit. rewrite !list_elem_of_filter, elem_of_app. tauto. Qed.

(** What [some4] does to the quadrants. *)
Lemma some4_unfold (ins : QuadTree -> bool * QuadTree) b c objs nw ne sw se :
  exists nw' ne' sw' se',
    some4 ins b c objs nw ne sw se
    = (fst (ins nw) || fst (ins ne) || fst (ins sw) || fst (ins se),
       QNode b c objs nw' ne' sw' se')
    /\ (nw' = snd (ins nw))
    /\ (ne' = ne \/ ne' = snd (ins ne))
    /\ (sw' = sw \/ sw' = snd (ins sw))
    /\ (se' = se \/ se' = snd (ins se))
    /\ (fst (ins nw) = false -> ne' = snd (ins ne))
    /\ (fst (ins nw) = false -> fst (ins ne) = false -> sw' = snd (ins sw))
    /\ (fst (ins nw) = false -> fst (ins ne) = false -> fst (ins sw) = false ->
        se' = snd (ins se)).
Proof.
  unfold some4.
  destruct (ins nw) as [[] nw'], (ins ne) as [[] ne'], (ins sw) as [[] sw'],
           (ins se) as [[] se']; cbn [fst snd orb];
    do 4 eexists; (split; [reflexivity|]); repeat split; auto; try discriminate.
Qed.

Lemma insert_bounds hp o t :
  QuadTree_bounds (snd (QuadTree_insert hp o t)) = QuadTree_bounds t.
Proof.
  destruct t as [b c objs|b c objs nw ne sw se]; cbn [QuadTree_insert].
  - destruct (negb _); [reflexivity|]. destruct (_ <? _)%nat; [reflexivity|].
    cbn [QuadTree_subdivide]. destruct (quadrants b) as [[[q1 q2] q3] q4].
    destruct (some4_unfold (insertFresh (LevelObject.rect (deref hp o)) o) b c objs
      (QuadTree_new q1) (QuadTree_new q2) (QuadTree_new q3) (QuadTree_new q4))
      as (? & ? & ? & ? & -> & _). reflexivity.
  - destruct (negb _); [reflexivity|].
    destruct (some4_unfold (QuadTree_insert hp o) b c objs nw ne sw se)
      as (? & ? & ? & ? & -> & _). reflexivity.
Qed.

Lemma insertFresh_bounds r o t : QuadTree_bounds (snd (insertFresh r o t)) = QuadTree_bounds t.
Proof. destruct t; cbn; [destruct (negb _)|]; reflexivity. Qed.

Lemma insertFresh_wellSplit r o b : wellSplit (snd (insertFresh r o (QuadTree_new b))).
Proof. cbn. destruct (negb _); exact I. Qed.

Lemma insert_wellSplit hp o t : wellSplit t -> wellSplit (snd (QuadTree_insert hp o t)).
Proof.
  induction t as [b c objs|b c objs nw IHnw ne IHne sw IHsw se IHse]; cbn [QuadTree_insert].
  - intros _. destruct (negb _); [exact I|]. destruct (_ <? _)%nat; [exact I|].
    cbn [QuadTree_subdivide]. destruct (quadrants b) as [[[q1 q2] q3] q4] eqn:Eq.
    destruct (some4_unfold (insertFresh (LevelObject.rect (deref hp o)) o) b c objs
      (QuadTree_new q1) (QuadTree_new q2) (QuadTree_new q3) (QuadTree_new q4))
      as (nw' & ne' & sw' & se' & -> & -> & [->| ->] & [->| ->] & [->| ->] & _);
      cbn [snd wellSplit]; rewrite ?insertFresh_bounds, Eq;
      repeat split; auto using insertFresh_wellSplit; exact I.
  - intros (Eq & Hnw & Hne & Hsw & Hse). destruct (negb _); [cbn; auto|].
    destruct (some4_unfold (QuadTree_insert hp o) b c objs nw ne sw se)
      as (nw' & ne' & sw' & se' & -> & -> & [->| ->] & [->| ->] & [->| ->] & _);
      cbn [snd wellSplit]; rewrite ?insert_bounds, Eq; repeat split; auto.
Qed.

(** A later [insert] never hides what a query used to return. *)
Lemma insertFresh_keeps hp q r o t x :
  x ∈ QuadTree_query hp q t [] -> x ∈ QuadTree_query hp q (snd (insertFresh r o t)) [].
Proof.
  destruct t as [b c objs|]; cbn [insertFresh snd]; [|auto].
  destruct (negb _); cbn [snd]; [auto|].
  rewrite !elem_query_leaf, hit_app. tauto.
Qed.

Lemma insert_keeps hp q o t x :
  x ∈ QuadTree_query hp q t [] -> x ∈ QuadTree_query hp q (snd (QuadTree_insert hp o t)) [].
Proof.
  induction t as [b c objs|b c objs nw IHnw ne IHne sw IHsw se IHse]; cbn [QuadTree_insert].
  - destruct (negb _); [auto|]. destruct (_ <? _)%nat; cbn [snd].
    + rewrite !elem_query_leaf, hit_app. tauto.
    + cbn [QuadTree_subdivide]. destruct (quadrants b) as [[[q1 q2] q3] q4].
      destruct (some4_unfold (insertFresh (LevelObject.rect (deref hp o)) o) b c objs
        (QuadTree_new q1) (QuadTree_new q2) (QuadTree_new q3) (QuadTree_new q4))
        as (nw' & ne' & sw' & se' & -> & _). cbn [snd].
      rewrite elem_query_leaf, elem_query_node. tauto.
  - destruct (negb _); [auto|].
    destruct (some4_unfold (QuadTree_insert hp o) b c objs nw ne sw se)
      as (nw' & ne' & sw' & se' & -> & -> & [->| ->] & [->| ->] & [->| ->] & _);
      cbn [snd]; rewrite !elem_query_node; intuition auto.
Qed.

(** An accepted object is returned by the query over its own bounds,
    provided these overlap themselves (positive width and height). *)
Lemma insertFresh_finds r hp o b :
  r = LevelObject.rect (deref hp o) ->
  QuadTree_intersects r r = true ->
  fst (insertFresh r o (QuadTree_new b)) = true ->
  o ∈ QuadTree_query hp r (snd (insertFresh r o (QuadTree_new b))) [].
Proof.
  intros Hr Hself. unfold QuadTree_new. cbn [insertFresh].
  destruct (QuadTree_intersects b r) eqn:E; cbn [negb fst snd]; [|discriminate].
  intros _. rewrite elem_query_leaf, hit_app. split; [exact E|]. right.
  unfold hit. rewrite list_elem_of_filter, <- Hr.
  split; [exact Hself|]. apply list_elem_of_singleton. reflexivity.
Qed.

Lemma insert_finds hp o t :
  let r := LevelObject.rect (deref hp o) in
  QuadTree_intersects r r = true ->
  fst (QuadTree_insert hp o t) = true ->
  o ∈ QuadTree_query hp r (snd (QuadTree_insert hp o t)) [].
Proof.
  intros r Hself.
  induction t as [b c objs|b c objs nw IHnw ne IHne sw IHsw se IHse]; cbn [QuadTree_insert];
    fold r.
  - destruct (QuadTree_intersects b r) eqn:E; cbn [negb fst snd]; [|discriminate].
    destruct (_ <? _)%nat; cbn [fst snd].
    + intros _. rewrite elem_query_leaf, hit_app. split; [exact E|]. right.
      unfold hit. rewrite list_elem_of_filter. split; [exact Hself|].
      apply list_elem_of_singleton. reflexivity.
    + cbn [QuadTree_subdivide]. destruct (quadrants b) as [[[q1 q2] q3] q4].
      pose proof (insertFresh_finds r hp o q1 eq_refl Hself) as F1.
      pose proof (insertFresh_finds r hp o q2 eq_refl Hself) as F2.
      pose proof (insertFresh_finds r hp o q3 eq_refl Hself) as F3.
      pose proof (insertFresh_finds r hp o q4 eq_refl Hself) as F4.
      destruct (some4_unfold (insertFresh r o) b c objs
        (QuadTree_new q1) (QuadTree_new q2) (QuadTree_new q3) (QuadTree_new q4))
        as (nw' & ne' & sw' & se' & -> & -> & _ & _ & _ & N2 & N3 & N4).
      cbn [fst snd]. rewrite elem_query_node. intros Hacc. split; [exact E|].
      destruct (fst (insertFresh r o (QuadTree_new q1))) eqn:A1; [tauto|].
      rewrite (N2 eq_refl).
      destruct (fst (insertFresh r o (QuadTree_new q2))) eqn:A2; [tauto|].
      rewrite (N3 eq_refl eq_refl).
      destruct (fst (insertFresh r o (QuadTree_new q3))) eqn:A3; [tauto|].
      rewrite (N4 eq_refl eq_refl eq_refl).
      destruct (fst (insertFresh r o (QuadTree_new q4))) eqn:A4; [tauto|discriminate].
  - destruct (QuadTree_intersects b r) eqn:E; cbn [negb fst snd]; [|discriminate].
    destruct (some4_unfold (QuadTree_insert hp o) b c objs nw ne sw se)
      as (nw' & ne' & sw' & se' & -> & -> & _ & _ & _ & N2 & N3 & N4).
    cbn [fst snd]. rewrite elem_query_node. intros Hacc. split; [exact E|].
    destruct (fst (QuadTree_insert hp o nw)) eqn:A1; [tauto|].
    rewrite (N2 eq_refl).
    destruct (fst (QuadTree_insert hp o ne)) eqn:A2; [tauto|].
    rewrite (N3 eq_refl eq_refl).
    destruct (fst (QuadTree_insert hp o sw)) eqn:A3; [tauto|].
    rewrite (N4 eq_refl eq_refl eq_refl).
    destruct (fst (QuadTree_insert hp o se)) eqn:A4; [tauto|discriminate].
Qed.

(** A rectangle of positive width and height that overlaps a node's bounds
    overlaps one of its quadrants. *)
Lemma quadrants_cover (b r : Rect.t) :
  QuadTree_intersects b r = true ->
  QuadTree_intersects r r = true ->
  let '(q1, q2, q3, q4) := quadrants b in
  QuadTree_intersects q1 r || QuadTree_intersects q2 r
  || QuadTree_intersects q3 r || QuadTree_intersects q4 r = true.
Proof.
  intros Hb Hr.
  apply intersects_true in Hb
    as (bx & by' & bw & bh & rx & ry & rw & rh & -> & -> & B1 & B2 & B3 & B4).
  apply intersects_true in Hr
    as (? & ? & ? & ? & ? & ? & ? & ? & [= <- <- <- <-] & [= <- <- <- <-] & R1 & _ & R3 & _).
  cbn [quadrants Rect.x Rect.y Rect.w Rect.h ndiv nadd lift2].
  assert (Hw : Qred (bw / 2) == bw * (1 # 2)) by (rewrite Qred_correct; field).
  assert (Hh : Qred (bh / 2) == bh * (1 # 2)) by (rewrite Qred_correct; field).
  assert (Hx : Qred (bx + Qred (bw / 2)) == bx + bw * (1 # 2))
    by (rewrite Qred_correct, Hw; reflexivity).
  assert (Hy : Qred (by' + Qred (bh / 2)) == by' + bh * (1 # 2))
    by (rewrite Qred_correct, Hh; reflexivity).
  rewrite !orb_true_iff, !intersects_true.
  destruct (Qlt_le_dec rx (bx + bw * (1 # 2))) as [X|X],
           (Qlt_le_dec ry (by' + bh * (1 # 2))) as [Y|Y].
  - left; left; left. do 8 eexists. split; [reflexivity|]. split; [reflexivity|].
    unfold overlaps. rewrite ?Hx, ?Hy, ?Hw, ?Hh. lra.
  - left; right. do 8 eexists. split; [reflexivity|]. split; [reflexivity|].
    unfold overlaps. rewrite ?Hx, ?Hy, ?Hw, ?Hh. lra.
  - left; left; right. do 8 eexists. split; [reflexivity|]. split; [reflexivity|].
    unfold overlaps. rewrite ?Hx, ?Hy, ?Hw, ?Hh. lra.
  - right. do 8 eexists. split; [reflexivity|]. split; [reflexivity|].
    unfold overlaps. rewrite ?Hx, ?Hy, ?Hw, ?Hh. lra.
Qed.

Lemma insert_accepts hp o t :
  let r := LevelObject.rect (deref hp o) in
  wellSplit t ->
  QuadTree_intersects (QuadTree_bounds t) r = true ->
  QuadTree_intersects r r = true ->
  fst (QuadTree_insert hp o t) = true.
Proof.
  intros r Hwf Hb Hself. revert Hwf Hb.
  induction t as [b c objs|b c objs nw IHnw ne IHne sw IHsw se IHse];
    cbn [QuadTree_insert QuadTree_bounds wellSplit]; fold r; intros Hwf Hb; rewrite Hb;
    cbn [negb].
  - destruct (_ <? _)%nat; [reflexivity|].
    cbn [QuadTree_subdivide]. pose proof (quadrants_cover b r Hb Hself) as Hc.
    destruct (quadrants b) as [[[q1 q2] q3] q4].
    destruct (some4_unfold (insertFresh r o) b c objs
      (QuadTree_new q1) (QuadTree_new q2) (QuadTree_new q3) (QuadTree_new q4))
      as (nw' & ne' & sw' & se' & -> & _). cbn [fst].
    cbn [insertFresh QuadTree_new].
    destruct (QuadTree_intersects q1 r), (QuadTree_intersects q2 r),
             (QuadTree_intersects q3 r), (QuadTree_intersects q4 r);
      cbn in Hc |- *; congruence.
  - destruct Hwf as (Eq & Hnw & Hne & Hsw & Hse).
    pose proof (quadrants_cover b r Hb Hself) as Hc. rewrite Eq in Hc.
    destruct (some4_unfold (QuadTree_insert hp o) b c objs nw ne sw se)
      as (nw' & ne' & sw' & se' & -> & _). cbn [fst].
    rewrite !orb_true_iff in Hc |- *.
    destruct Hc as [[[H|H]|H]|H]; auto 6.
Qed.

(** ** Rebuilding the index *)

Lemma andThen_Ok (a b : cmd) g g' :
  (a ;; b) g = Ok g' <-> exists g1, a g = Ok g1 /\ b g1 = Ok g'.
Proof.
  unfold andThen. destruct (a g) as [g1| |].
  - split; [eauto|]. intros (? & [= ->] & ?). assumption.
  - split; [discriminate|]. intros (? & ? & _). discriminate.
  - split; [discriminate|]. intros (? & ? & _). discriminate.
Qed.

Lemma forEach_inserts (l : list handle) : forall g t,
  Game.quadTree g = Some t ->
  forEach l Game_insert g
  = Ok (Game.set_quadTree
          (Some (fold_left (fun t o => snd (QuadTree_insert (Game.heap g) o t)) l t)) g).
Proof.
  induction l as [|o l IH]; intros g t Ht; cbn [forEach fold_left].
  - unfold skip. destruct g; cbn in *. now subst.
  - unfold andThen, Game_insert at 1. rewrite Ht.
    erewrite IH by reflexivity. reflexivity.
Qed.

Lemma Game_index_eq g lv :
  Game.level g = Some lv ->
  Game_index g = Ok (Game.set_quadTree (Some (indexOf (Game.heap g) lv)) g).
Proof.
  intros Hlv. unfold Game_index. rewrite Hlv. unfold andThen, modify.
  erewrite forEach_inserts by reflexivity. reflexivity.
Qed.

Section Built.
Variables (hp : Heap).
Let ins := fun t o => snd (QuadTree_insert hp o t).

Lemma fold_keeps (l : list handle) q x : forall t,
  x ∈ QuadTree_query hp q t [] -> x ∈ QuadTree_query hp q (fold_left ins l t) [].
Proof.
  induction l as [|o l IH]; intros t H; cbn [fold_left]; [exact H|].
  apply IH, insert_keeps, H.
Qed.

Lemma fold_shape (l : list handle) : forall t,
  wellSplit t -> wellSplit (fold_left ins l t)
                 /\ QuadTree_bounds (fold_left ins l t) = QuadTree_bounds t.
Proof.
  induction l as [|o l IH]; intros t H; cbn [fold_left]; [auto|].
  destruct (IH (ins t o)) as [W B]; [apply insert_wellSplit, H|].
  split; [exact W|]. rewrite B. apply insert_bounds.
Qed.

Lemma fold_finds (l : list handle) o : forall t,
  let r := LevelObject.rect (deref hp o) in
  o ∈ l -> wellSplit t ->
  QuadTree_intersects (QuadTree_bounds t) r = true ->
  QuadTree_intersects r r = true ->
  o ∈ QuadTree_query hp r (fold_left ins l t) [].
Proof.
  induction l as [|a l IH]; intros t r Hin Hwf Hb Hself; [inversion Hin|].
  cbn [fold_left]. apply elem_of_cons in Hin as [->|Hin].
  - apply fold_keeps. apply insert_finds; [exact Hself|].
    apply insert_accepts; assumption.
  - apply IH; [exact Hin|apply insert_wellSplit, Hwf| |exact Hself].
    unfold ins. rewrite insert_bounds. exact Hb.
Qed.
End Built.

(** The rebuilt index returns a level object to the query over its own
    bounds as soon as these overlap the level bounds and themselves. *)
Lemma indexOf_finds hp lv o :
  let r := LevelObject.rect (deref hp o) in
  o ∈ Level.objects lv ->
  QuadTree_intersects (levelBounds lv) r = true ->
  QuadTree_intersects r r = true ->
  o ∈ QuadTree_query hp r (indexOf hp lv) [].
Proof.
  intros r Hin Hb Hself. unfold indexOf.
  apply fold_finds; [exact Hin|exact I|exact Hb|exact Hself].
Qed.

Lemma sameGroup_eq (a b : option Z) : sameGroup a b = true <-> a = b.
Proof.
  destruct a as [x|], b as [y|]; cbn; try (split; congruence).
  rewrite Z.eqb_eq. split; congruence.
Qed.

Lemma deref_lookup hp o ob : hp !! o = Some ob -> deref hp o = ob.
Proof. unfold deref. now intros ->. Qed.

Lemma deref_alter_eq f hp o :
  deref (alter f o hp) o = match hp !! o with Some ob => f ob | None => deref hp o end.
Proof.
  unfold deref. rewrite list_lookup_alter_eq. destruct (hp !! o); reflexivity.
Qed.

Lemma deref_alter_ne f hp o h : o <> h -> deref (alter f o hp) h = deref hp h.
Proof. intros N. unfold deref. now rewrite list_lookup_alter_ne. Qed.

(** ** Group triggers *)

(** A [forEach] whose rounds each rewrite one object of the heap. *)
Lemma forEach_alter (body : handle -> cmd) (f : LevelObject.t -> LevelObject.t)
    (Inv : Game.t -> Prop) :
  (forall a g, Inv g -> body a g = Ok (Game.set_heap (alter f a (Game.heap g)) g)) ->
  (forall a g, Inv g -> Inv (Game.set_heap (alter f a (Game.heap g)) g)) ->
  forall l g, Inv g ->
    forEach l body g
    = Ok (Game.set_heap (foldl (fun hp a => alter f a hp) (Game.heap g) l) g).
Proof.
  intros Hbody Hinv l. induction l as [|a l IH]; intros g Hg; cbn [forEach foldl].
  - unfold skip. now destruct g.
  - unfold andThen. rewrite (Hbody a g Hg). rewrite IH by (apply Hinv, Hg).
    reflexivity.
Qed.

Lemma lookup_foldl_alter (f : LevelObject.t -> LevelObject.t) (l : list handle) :
  forall (hp : Heap) h, NoDup l ->
    foldl (fun hp a => alter f a hp) hp l !! h
    = if decide (h ∈ l) then f <$> hp !! h else hp !! h.
Proof.
  induction l as [|a l IH]; intros hp h Hnd; cbn [foldl].
  - destruct (decide _) as [H|_]; [inversion H|reflexivity].
  - apply NoDup_cons in Hnd as [Ha Hnd]. rewrite IH by exact Hnd.
    destruct (decide (h = a)) as [->|N].
    + rewrite decide_False by exact Ha. rewrite decide_True by (left).
      apply list_lookup_alter_eq.
    + rewrite list_lookup_alter_ne by congruence.
      destruct (decide (h ∈ l)) as [H|H].
      * rewrite decide_True by (now right). reflexivity.
      * rewrite decide_False; [reflexivity|]. intros H'.
        apply elem_of_cons in H' as [?|?]; contradiction.
Qed.

Lemma shift_twice d e ob :
  LevelObject.set_pos
    (LevelObject.x (LevelObject.set_pos (LevelObject.x ob + d)%num (LevelObject.y ob) ob))
    (LevelObject.y (LevelObject.set_pos (LevelObject.x ob + d)%num (LevelObject.y ob) ob) + e)%num
    (LevelObject.set_pos (LevelObject.x ob + d)%num (LevelObject.y ob) ob)
  = shift d e ob.
Proof. reflexivity. Qed.

Lemma set_heap_set_heap a b g :
  Game.set_heap a (Game.set_heap b g) = Game.set_heap a g.
Proof. reflexivity. Qed.

(** The state in which a [move] trigger leaves the game. *)
Lemma handleTrigger_move (g : Game.t) (lv : Level.t) (o : handle) (trig : LevelObject.t) :
  Game.level g = Some lv ->
  NoDup (Level.objects lv) ->
  Game.heap g !! o = Some trig ->
  LevelObject.used trig = false ->
  LevelObject.effect trig = Some "move" ->
  let d := toNum (LevelObject.dx trig) in
  let e := toNum (LevelObject.dy trig) in
  let hp1 := alter (LevelObject.set_used true) o (Game.heap g) in
  let grp := filter (fun h => LevelObject.group (deref (Game.heap g) h)
                              = LevelObject.targetGroup trig) (Level.objects lv) in
  let hp2 := foldl (fun hp a => alter (shift d e) a hp) hp1 grp in
  Game_handleTrigger o g
  = Ok (Game.set_quadTree (Some (indexOf hp2 lv)) (Game.set_heap hp2 g)).
Proof.
  intros Hlv Hnd Ho Hu He d e hp1 grp hp2.
  unfold Game_handleTrigger. rewrite (deref_lookup _ _ _ Ho), Hu.
  set (g1 := Game.set_heap hp1 g).
  assert (D1 : deref (Game.heap g1) o = LevelObject.set_used true trig).
  { cbn. unfold hp1. rewrite deref_alter_eq, Ho. reflexivity. }
  assert (G1 : groupOf o g1 lv = grp).
  { unfold groupOf, grp. rewrite D1. cbn [LevelObject.targetGroup LevelObject.set_used].
    apply list_filter_iff. intros h. rewrite sameGroup_eq.
    assert (LevelObject.group (deref (Game.heap g1) h) = LevelObject.group (deref (Game.heap g) h)) as ->; [|tauto].
    cbn. unfold hp1. destruct (decide (o = h)) as [->|N].
    - rewrite deref_alter_eq, Ho, (deref_lookup _ _ _ Ho). reflexivity.
    - now rewrite deref_alter_ne. }
  set (Inv := fun g' : Game.t =>
    toNum (LevelObject.dx (deref (Game.heap g') o)) = d
    /\ toNum (LevelObject.dy (deref (Game.heap g') o)) = e).
  assert (I1 : Inv g1) by (unfold Inv; rewrite D1; split; reflexivity).
  match goal with |- context [forEach _ ?b] => set (body := b) end.
  assert (Hbody : forall a g', Inv g' ->
            body a g' = Ok (Game.set_heap (alter (shift d e) a (Game.heap g')) g')).
  { intros a g' [Hd Hee]. unfold body, andThen, modifyObj. cbn [Game.heap Game.set_heap].
    rewrite Hd, Hee, set_heap_set_heap, list_alter_alter_eq. reflexivity. }
  assert (Hinv : forall a g', Inv g' -> Inv (Game.set_heap (alter (shift d e) a (Game.heap g')) g')).
  { intros a g' [Hd Hee]. unfold Inv. cbn [Game.heap Game.set_heap].
    destruct (decide (a = o)) as [->|N].
    - rewrite deref_alter_eq. unfold deref in *.
      destruct (Game.heap g' !! o); cbn in *; auto.
    - rewrite deref_alter_ne by exact N. auto. }
  unfold andThen at 1. unfold modifyObj at 1. fold hp1. fold g1.
  unfold andThen at 1. unfold when at 1. unfold effectIs at 1. rewrite D1.
  cbn [LevelObject.effect LevelObject.set_used]. rewrite He. cbn [String.eqb Ascii.eqb Bool.eqb].
  unfold andThen at 1. unfold withLevel at 1.
  replace (Game.level g1) with (Some lv) by (symmetry; exact Hlv).
  rewrite G1. rewrite (forEach_alter body (shift d e) Inv Hbody Hinv grp g1 I1).
  cbn [Game.heap Game.set_heap g1]. fold hp2.
  rewrite (Game_index_eq _ lv) by exact Hlv.
  cbn [Game.heap Game.set_heap Game.set_quadTree].
  assert (D2 : LevelObject.effect (deref hp2 o) = Some "move").
  { unfold deref, hp2. rewrite lookup_foldl_alter by (apply NoDup_filter, Hnd).
    unfold hp1. rewrite list_lookup_alter_eq, Ho.
    destruct (decide _); cbn; exact He. }
  unfold andThen, when, effectIs. cbn [Game.heap Game.set_quadTree Game.set_heap].
  rewrite D2. cbn [String.eqb Ascii.eqb Bool.eqb].
  cbn [Game.heap Game.set_quadTree Game.set_heap].
  rewrite D2. cbn [String.eqb Ascii.eqb Bool.eqb]. reflexivity.
Qed.

(** C2, as amended.  [handleTrigger] on an unused [move] trigger of a level
    without repeated objects marks the trigger and shifts every level
    object of the target group by [(dx, dy)], keeping its size, colour and
    alpha; every object of another group keeps its bounds, colour and
    alpha.  In the rebuilt index the query over the new bounds of a moved
    object returns it provided these bounds overlap the level bounds and
    themselves, and the query over its old bounds does not return it
    provided the old and the new bounds do not overlap. *)
Theorem trigger_move_shifts_group (g : Game.t) (lv : Level.t) (o : handle)
    (trig : LevelObject.t) :
  Game.level g = Some lv ->
  NoDup (Level.objects lv) ->
  Game.heap g !! o = Some trig ->
  LevelObject.used trig = false ->
  LevelObject.effect trig = Some "move" ->
  let d := toNum (LevelObject.dx trig) in
  let e := toNum (LevelObject.dy trig) in
  exists g',
    Game_handleTrigger o g = Ok g'
    /\ (forall h ob,
          h ∈ Level.objects lv -> Game.heap g !! h = Some ob ->
          LevelObject.group ob = LevelObject.targetGroup trig ->
          exists ob',
            Game.heap g' !! h = Some ob'
            /\ LevelObject.x ob' = (LevelObject.x ob + d)%num
            /\ LevelObject.y ob' = (LevelObject.y ob + e)%num
            /\ LevelObject.w ob' = LevelObject.w ob
            /\ LevelObject.h ob' = LevelObject.h ob
            /\ LevelObject.color ob' = LevelObject.color ob
            /\ LevelObject.alpha ob' = LevelObject.alpha ob
            /\ (QuadTree_intersects (levelBounds lv) (LevelObject.rect ob') = true ->
                QuadTree_intersects (LevelObject.rect ob') (LevelObject.rect ob') = true ->
                h ∈ queryIndex g' (LevelObject.rect ob'))
            /\ (QuadTree_intersects (LevelObject.rect ob) (LevelObject.rect ob') = false ->
                h ∉ queryIndex g' (LevelObject.rect ob)))
    /\ (forall h ob,
          Game.heap g !! h = Some ob ->
          LevelObject.group ob <> LevelObject.targetGroup trig ->
          exists ob',
            Game.heap g' !! h = Some ob'
            /\ LevelObject.rect ob' = LevelObject.rect ob
            /\ LevelObject.color ob' = LevelObject.color ob
            /\ LevelObject.alpha ob' = LevelObject.alpha ob).
Proof.
  intros Hlv Hnd Ho Hu He d e.
  pose proof (handleTrigger_move g lv o trig Hlv Hnd Ho Hu He) as Hrun. cbv zeta in Hrun.
  fold d e in Hrun.
  set (hp1 := alter (LevelObject.set_used true) o (Game.heap g)) in *.
  set (grp := filter _ (Level.objects lv)) in *.
  set (hp2 := foldl _ hp1 grp) in *.
  assert (Hgrp : NoDup grp) by (apply NoDup_filter, Hnd).
  assert (L1 : forall h ob, Game.heap g !! h = Some ob ->
            exists ob1, hp1 !! h = Some ob1
                        /\ (ob1 = ob \/ ob1 = LevelObject.set_used true ob)).
  { intros h ob Hh. unfold hp1. destruct (decide (o = h)) as [->|N].
    - rewrite list_lookup_alter_eq, Hh. cbn. eauto.
    - rewrite list_lookup_alter_ne by exact N. eauto. }
  eexists. split; [exact Hrun|]. cbn [Game.heap Game.set_quadTree Game.set_heap].
  unfold queryIndex. cbn [Game.heap Game.quadTree Game.set_quadTree Game.set_heap].
  split.
  - intros h ob Hin Hh Hg.
    destruct (L1 h ob Hh) as (ob1 & H1 & Hob1).
    assert (Hmem : h ∈ grp).
    { unfold grp. apply list_elem_of_filter. split; [|exact Hin].
      now rewrite (deref_lookup _ _ _ Hh). }
    assert (H2 : hp2 !! h = Some (shift d e ob1)).
    { unfold hp2. rewrite lookup_foldl_alter by exact Hgrp.
      rewrite decide_True by exact Hmem. now rewrite H1. }
    exists (shift d e ob1). split; [exact H2|].
    assert (Hr : LevelObject.rect (deref hp2 h) = LevelObject.rect (shift d e ob1))
      by now rewrite (deref_lookup _ _ _ H2).
    destruct Hob1 as [-> | ->]; cbn -[nadd]; (do 6 (split; [reflexivity|])); split.
    + intros Hb Hs. rewrite <- Hr in *. now apply indexOf_finds.
    + intros Hno Hq. apply query_sound in Hq. rewrite Hr in Hq. cbn -[nadd] in Hq.
      congruence.
    + intros Hb Hs. rewrite <- Hr in *. now apply indexOf_finds.
    + intros Hno Hq. apply query_sound in Hq. rewrite Hr in Hq. cbn -[nadd] in Hq.
      congruence.
  - intros h ob Hh Hg.
    destruct (L1 h ob Hh) as (ob1 & H1 & Hob1).
    assert (Hmem : h ∉ grp).
    { unfold grp. rewrite list_elem_of_filter, (deref_lookup _ _ _ Hh). tauto. }
    exists ob1. split.
    + unfold hp2. rewrite lookup_foldl_alter by exact Hgrp.
      now rewrite decide_False by exact Hmem.
    + destruct Hob1 as [-> | ->]; cbn; auto.
Qed.

(** The demo level: the last ground block leaves the index. *)
Lemma trigger_move_witness :
  Game.heap (loaded 0) !! 623%nat = Some moveTrigger
  /\ exists g', Game_handleTrigger 623%nat (loaded 0) = Ok g'
                /\ exists ob', Game.heap g' !! 0%nat = Some ob'
                               /\ LevelObject.x ob' = Fin 50.
Proof.
  assert (H : Game.heap (loaded 0) !! 623%nat = Some moveTrigger) by evaluate.
  split; [exact H|].
  destruct (trigger_move_shifts_group (loaded 0)
              (Level.mk (seq 0 633) (Fin 18000) (Fin 420)) 623%nat moveTrigger)
    as (g' & Hrun & Hmoved & _).
  - evaluate.
  - apply NoDup_seq.
  - exact H.
  - reflexivity.
  - reflexivity.
  - exists g'. split; [exact Hrun|].
    destruct (Hmoved 0%nat
                (LevelObject.mk (Fin 0) (Fin 405) (Fin 30) (Fin 15) "block" (Some 1%Z)
                   None VUndef None None None None None None None None false))
      as (ob' & Hob' & Hx & _).
    + apply elem_of_seq. lia.
    + evaluate.
    + reflexivity.
    + exists ob'. split; [exact Hob'|]. rewrite Hx. reflexivity.
Defined.

(** C2, as stated, fails on the demo level: the trigger moves the last
    ground block (group 1) from [x = 17970] to [x = 18020], beyond the level
    width 18000; the rebuilt index does not hold it and the query over its
    new bounds returns nothing. *)
Lemma trigger_move_out_of_index :
  let after := Game_handleTrigger 623%nat (loaded 0) in
  Game.heap (loaded 0) !! 623%nat = Some moveTrigger
  /\ LevelObject.group (deref (Game.heap (loaded 0)) 599%nat) = Some 1%Z
  /\ rectOf (loaded 0) 599%nat = Rect.mk (Fin 17970) (Fin 405) (Fin 30) (Fin 15)
  /\ observe (fun g' => rectOf g' 599%nat) after
     = Some (Rect.mk (Fin 18020) (Fin 405) (Fin 30) (Fin 15))
  /\ observe (fun g' => queryIndex g' (Rect.mk (Fin 18020) (Fin 405) (Fin 30) (Fin 15)))
             after = Some [].
Proof. do 4 (split; [evaluate|]). evaluate. Qed.

(** C9, as amended.  A query with a range of zero width or zero height
    returns only objects that pass the overlap test, that is, objects whose
    bounds strictly contain the abscissa of the range when its width is
    zero and its ordinate when its height is zero; it is empty when no
    stored object does. *)
Theorem degenerate_query_sound (hp : Heap) (t : QuadTree) (range : Rect.t) (o : handle) :
  Rect.w range = Fin 0 \/ Rect.h range = Fin 0 ->
  o ∈ QuadTree_query hp range t [] ->
  let ob := deref hp o in
  QuadTree_intersects range (LevelObject.rect ob) = true
  /\ (Rect.w range = Fin 0 ->
      between (LevelObject.x ob) (Rect.x range) (LevelObject.x ob + LevelObject.w ob))
  /\ (Rect.h range = Fin 0 ->
      between (LevelObject.y ob) (Rect.y range) (LevelObject.y ob + LevelObject.h ob)).
Proof.
  intros _ Hq ob. apply query_sound in Hq. fold ob in Hq. split; [exact Hq|].
  apply intersects_true in Hq
    as (qx & qy & qw & qh & ox & oy & ow & oh & -> & Hob & X1 & X2 & Y1 & Y2).
  unfold LevelObject.rect in Hob. injection Hob as -> -> -> ->.
  cbn [Rect.x Rect.y Rect.w Rect.h]. unfold between. split.
  - intros [= ->]. split; apply nlt_true; do 2 eexists;
      (split; [reflexivity|]); (split; [reflexivity|]); rewrite ?Qred_correct; lra.
  - intros [= ->]. split; apply nlt_true; do 2 eexists;
      (split; [reflexivity|]); (split; [reflexivity|]); rewrite ?Qred_correct; try lra.
Qed.

(** A point inside the second ground block of Stereo Madness. *)
Lemma degenerate_query_witness :
  between (Fin 30) (Fin 45) (Fin 30 + Fin 30).
Proof.
  assert (E : QuadTree_query (Game.heap (loaded 1))
                (Rect.mk (Fin 45) (Fin 410) (Fin 0) (Fin 0))
                (indexOf (Game.heap (loaded 1))
                         (Level.mk (seq 0 171) (Fin 3600) (Fin 420))) []
              = [1%nat]) by evaluate.
  destruct (degenerate_query_sound (Game.heap (loaded 1))
              (indexOf (Game.heap (loaded 1)) (Level.mk (seq 0 171) (Fin 3600) (Fin 420)))
              (Rect.mk (Fin 45) (Fin 410) (Fin 0) (Fin 0)) 1%nat)
    as (_ & Hx & _).
  - left. reflexivity.
  - rewrite E. apply list_elem_of_here.
  - assert (D : deref (Game.heap (loaded 1)) 1%nat
                = LevelObject.mk (Fin 30) (Fin 405) (Fin 30) (Fin 15) "block" (Some 1%Z)
                    None VUndef None None None None None None None None false)
      by evaluate.
    rewrite D in Hx. exact (Hx eq_refl).
Defined.

(** C9, as stated, fails: in Stereo Madness the query over the point
    [(45, 410)], a range of zero width and zero height, returns the ground
    block that contains the point. *)
Lemma degenerate_query_nonempty :
  queryIndex (loaded 1) (Rect.mk (Fin 45) (Fin 410) (Fin 0) (Fin 0)) = [1%nat]
  /\ rectOf (loaded 1) 1%nat = Rect.mk (Fin 30) (Fin 405) (Fin 30) (Fin 15).
Proof. split; evaluate. Qed.

(** ** The particle pool *)

Lemma addParticle_count (x y : num) (ty : string) (count : nat) : forall g,
  Game.particlesPool (Game_addParticle x y ty count g) = Game.particlesPool g
  /\ Game.activeParticles (Game_addParticle x y ty count g)
     = Nat.max (Game.activeParticles g)
               (Nat.min (Game.activeParticles g + count) (length (Game.particlesPool g))).
Proof.
  induction count as [|count IH]; intros g; cbn [Game_addParticle].
  - split; [reflexivity|lia].
  - destruct (Nat.leb_spec (length (Game.particlesPool g)) (Game.activeParticles g)).
    + split; [reflexivity|lia].
    + match goal with |- context [Game_addParticle _ _ _ _ ?g1] =>
        destruct (IH g1) as [P A]; rewrite P, A end.
      cbn [Game.activeParticles Game.particlesPool Game.set_randomCalls
           Game.set_activeParticles Game.set_particles].
      split; [reflexivity|lia].
Qed.

(** C7.  [addParticle] leaves the pool as it is and raises the count of
    active particles by the request, stopping at the length of the pool;
    it is a total function, a request beyond the capacity being cut short
    by the [break].  On the pool of a new game, of length 1000 with no
    active particle, a request of 1500 leaves exactly 1000 active. *)
Theorem addParticle_bounded (x y : num) (ty : string) (count : nat) (g : Game.t)
    (rnd : nat -> Q) (now : num) :
  Game.particlesPool (Game_addParticle x y ty count g) = Game.particlesPool g
  /\ Game.activeParticles (Game_addParticle x y ty count g)
     = Nat.max (Game.activeParticles g)
               (Nat.min (Game.activeParticles g + count) (length (Game.particlesPool g)))
  /\ length (Game.particlesPool (Game_new rnd now)) = 1000%nat
  /\ Game.activeParticles (Game_new rnd now) = 0%nat
  /\ Game.activeParticles (Game_addParticle x y ty 1500 (Game_new rnd now)) = 1000%nat.
Proof.
  destruct (addParticle_count x y ty count g) as [P A].
  split; [exact P|]. split; [exact A|].
  assert (L : length (Game.particlesPool (Game_new rnd now)) = 1000%nat)
    by (cbn [Game_new Game.particlesPool]; apply length_seq).
  split; [exact L|]. split; [reflexivity|].
  destruct (addParticle_count x y ty 1500 (Game_new rnd now)) as [_ A'].
  rewrite A', L. reflexivity.
Qed.

(** ** The fixed-step loop *)









(** ** What the commands leave alone *)

Lemma frozen_refl hp : frozen hp hp.
Proof. intros o ob H. now left. Qed.

Lemma frozen_trans hp1 hp2 hp3 : frozen hp1 hp2 -> frozen hp2 hp3 -> frozen hp1 hp3.
Proof.
  intros A B o ob H. destruct (A o ob H) as [H2|H2]; destruct (B _ _ H2) as [H3|H3];
    rewrite H3; auto.
Qed.

Lemma frozen_grows hp hp' : frozen hp hp' -> grows hp hp'.
Proof.
  intros A o ob H. destruct (A o ob H) as [H2|H2]; rewrite H2; eexists; split;
    try reflexivity; auto.
Qed.

Lemma grows_refl hp : grows hp hp.
Proof. intros o ob H. eauto. Qed.

Lemma grows_trans hp1 hp2 hp3 : grows hp1 hp2 -> grows hp2 hp3 -> grows hp1 hp3.
Proof.
  intros A B o ob H. destruct (A o ob H) as (ob2 & H2 & U2).
  destruct (B _ _ H2) as (ob3 & H3 & U3). eauto.
Qed.

Lemma keeps_refl g : keeps g g.
Proof. split; reflexivity. Qed.
Lemma keeps_trans g1 g2 g3 : keeps g1 g2 -> keeps g2 g3 -> keeps g1 g3.
Proof. intros [A B] [C D]. split; congruence. Qed.
Lemma calm_refl g : calm g g.
Proof. split; [apply frozen_refl|reflexivity]. Qed.
Lemma calm_trans g1 g2 g3 : calm g1 g2 -> calm g2 g3 -> calm g1 g3.
Proof. intros [A B] [C D]. split; [eapply frozen_trans; eassumption|congruence]. Qed.
Lemma steady_refl g : steady g g.
Proof. split; [apply grows_refl|reflexivity]. Qed.
Lemma steady_trans g1 g2 g3 : steady g1 g2 -> steady g2 g3 -> steady g1 g3.
Proof. intros [A B] [C D]. split; [eapply grows_trans; eassumption|congruence]. Qed.
Lemma keeps_calm g g' : keeps g g' -> calm g g'.
Proof. intros [A B]. split; [rewrite A; apply frozen_refl|exact B]. Qed.
Lemma calm_steady g g' : calm g g' -> steady g g'.
Proof. intros [A B]. split; [apply frozen_grows, A|exact B]. Qed.

Section Respects.
Variable R : Game.t -> Game.t -> Prop.
Hypothesis R_refl : forall g, R g g.
Hypothesis R_trans : forall g1 g2 g3, R g1 g2 -> R g2 g3 -> R g1 g3.

Lemma respects_skip : respects R skip.
Proof. intros g g' [= <-]. apply R_refl. Qed.

Lemma respects_andThen (a b : cmd) :
  respects R a -> respects R b -> respects R (a ;; b).
Proof.
  intros A B g g' H. unfold andThen in H. destruct (a g) as [g1| |] eqn:E;
    try discriminate. eapply R_trans; [apply A, E|apply B, H].
Qed.

Lemma respects_when (c : Game.t -> bool) (a : cmd) :
  respects R a -> respects R (when c a).
Proof.
  intros A g g' H. unfold when in H. destruct (c g); [apply A, H|].
  injection H as <-. apply R_refl.
Qed.

Lemma respects_modify (f : Game.t -> Game.t) :
  (forall g, R g (f g)) -> respects R (modify f).
Proof. intros F g g' [= <-]. apply F. Qed.

Lemma respects_forEach {A : Type} (l : list A) (body : A -> cmd) :
  (forall a, respects R (body a)) -> respects R (forEach l body).
Proof.
  intros B. induction l as [|a l IH]; cbn [forEach].
  - apply respects_skip.
  - apply respects_andThen; [apply B|exact IH].
Qed.
End Respects.

Lemma respects_run (R : Game.t -> Game.t -> Prop) (c : cmd) g g' :
  respects R c -> c g = Ok g' -> R g g'.
Proof. intros H. apply H. Qed.

Lemma respects_weaken (R1 R2 : Game.t -> Game.t -> Prop) (c : cmd) :
  (forall g g', R1 g g' -> R2 g g') -> respects R1 c -> respects R2 c.
Proof. intros W H g g' E. apply W, H, E. Qed.

(** A field setter that touches neither the heap nor the accumulator. *)
Ltac untouched := intros; split; reflexivity.

(** Splits a command along its combinators, by its syntax alone, and hands
    the other commands to [leaf]. *)
Ltac frame refl trans leaf :=
  lazymatch goal with
  | |- respects _ (andThen _ _) =>
      apply respects_andThen;
      [exact trans | frame refl trans leaf | frame refl trans leaf]
  | |- respects _ (when _ _) =>
      apply respects_when; [exact refl | frame refl trans leaf]
  | |- respects _ (forEach _ _) =>
      apply respects_forEach; [exact refl | exact trans | intros; frame refl trans leaf]
  | |- respects _ skip => apply respects_skip; exact refl
  | |- respects _ (if ?b then _ else _) => destruct b; frame refl trans leaf
  | |- _ => leaf
  end.

Lemma addParticle_keeps x y ty n : forall g, keeps g (Game_addParticle x y ty n g).
Proof.
  induction n as [|n IH]; intros g; cbn [Game_addParticle]; [apply keeps_refl|].
  destruct (_ <=? _)%nat; [apply keeps_refl|].
  eapply keeps_trans; [|apply IH]. untouched.
Qed.

Lemma updateParticles_keeps dt g : keeps g (Game_updateParticles dt g).
Proof.
  unfold Game_updateParticles. generalize (Game.activeParticles g) at 1. intros n.
  generalize O. revert g.
  induction n as [|n IH]; intros g i; cbn [updateParticles_from]; [apply keeps_refl|].
  destruct (_ <? _)%nat; [|apply keeps_refl].
  destruct (Particle_update _ _) as [p []];
    (eapply keeps_trans; [|apply IH]); untouched.
Qed.

(** From here on the particle loops are used through the two lemmas above. *)
Opaque Game_addParticle Game_updateParticles.

Lemma setState_keeps s : respects keeps (Game_setState s).
Proof.
  intros g g' H. unfold Game_setState in H.
  destruct (s =? "editor"); [discriminate|]. injection H as <-.
  destruct (s =? "game"); untouched.
Qed.

Lemma Game_insert_keeps o : respects keeps (Game_insert o).
Proof.
  intros g g' H. unfold Game_insert in H. destruct (Game.quadTree g); [|discriminate].
  injection H as <-. untouched.
Qed.

Lemma modify_keeps (f : Game.t -> Game.t) :
  (forall g, keeps g (f g)) -> respects keeps (modify f).
Proof. apply respects_modify. Qed.

Lemma Game_index_keeps : respects keeps Game_index.
Proof.
  intros g g' H. unfold Game_index in H. destruct (Game.level g); [|discriminate].
  refine (respects_run keeps _ g g' _ H).
  frame keeps_refl keeps_trans
    ltac:(idtac; first [apply Game_insert_keeps | apply modify_keeps; untouched]).
Qed.

Lemma frozen_app hp l : frozen hp (hp ++ l).
Proof.
  intros o ob H. left. rewrite lookup_app_l; [exact H|].
  eapply lookup_lt_Some, H.
Qed.

Lemma keeps_as_calm c : respects keeps c -> respects calm c.
Proof. apply respects_weaken, keeps_calm. Qed.

Lemma loadLevel_calm id : respects calm (Game_loadLevel id).
Proof.
  unfold Game_loadLevel.
  frame calm_refl calm_trans
    ltac:(idtac; lazymatch goal with
          | |- respects _ (Game_setState _) => apply keeps_as_calm, setState_keeps
          | |- respects _ Game_index => apply keeps_as_calm, Game_index_keeps
          | |- respects _ (modify _) =>
              first [ apply keeps_as_calm, modify_keeps; untouched
                    | apply respects_modify; intros g;
                      destruct (generateLevel id) as [[objs w] h];
                      split; [apply frozen_app|reflexivity] ]
          end).
Qed.

Lemma die_calm who : respects calm (Game_die who).
Proof.
  unfold Game_die. apply respects_andThen; [exact calm_trans| |].
  - intros g g' [= <-]. apply keeps_calm, addParticle_keeps.
  - intros g g' H. destruct (_ && _).
    + destruct (_ ≫= _); [|discriminate]. injection H as <-.
      apply keeps_calm. destruct (Player.active _); untouched.
    + apply (loadLevel_calm _ _ _ H).
Qed.

Lemma jump_keeps who hold : respects keeps (Player_jump who hold).
Proof.
  intros g g' H. unfold Player_jump in H. destruct (_ || _).
  - destruct (MODES _); [|discriminate]. injection H as <-. destruct who; untouched.
  - injection H as <-. apply keeps_refl.
Qed.

Lemma onThis_keeps who f : respects keeps (onThis who f).
Proof. intros g g' [= <-]. destruct who; untouched. Qed.

Lemma frozen_mark hp o : frozen hp (alter (LevelObject.set_used true) o hp).
Proof.
  intros h ob H. destruct (decide (o = h)) as [->|N].
  - right. now rewrite list_lookup_alter_eq, H.
  - left. now rewrite list_lookup_alter_ne.
Qed.

Lemma mark_calm o : respects calm (modifyObj o (LevelObject.set_used true)).
Proof. intros g g' [= <-]. split; [apply frozen_mark|reflexivity]. Qed.

Ltac calm_leaf :=
  idtac; lazymatch goal with
  | |- respects _ (modifyObj _ (LevelObject.set_used true)) => apply mark_calm
  | |- respects _ (onThis _ _) => apply keeps_as_calm, onThis_keeps
  | |- respects _ (modify (Game_addParticle _ _ _ _)) =>
      apply keeps_as_calm, modify_keeps, addParticle_keeps
  | |- respects _ (modify _) => apply keeps_as_calm, modify_keeps; untouched
  | |- respects _ Game_win => apply keeps_as_calm, setState_keeps
  | |- respects _ (Game_die _) => apply die_calm
  | |- respects _ (fun g => match MODES _ with _ => _ end) =>
      let g := fresh "g" in let g' := fresh "g'" in let H := fresh "H" in
      intros g g' H; destruct (MODES _); [|discriminate];
      apply (keeps_as_calm _ (onThis_keeps _ _) _ _ H)
  end.

Lemma handleObject_calm who o : respects calm (Player_handleObject who o).
Proof.
  intros g g' H. unfold Player_handleObject in H.
  remember (deref (Game.heap g) o) as ob eqn:Hob. clear Hob.
  destruct (LevelObject.used ob); [injection H as <-; apply calm_refl|].
  refine (respects_run calm _ g g' _ H).
  frame calm_refl calm_trans calm_leaf.
Qed.

Lemma xPass_keeps who bbox o : respects keeps (xPass who bbox o).
Proof.
  intros g g' H. unfold xPass in H.
  destruct (_ && _); injection H as <-; [destruct who; untouched|apply keeps_refl].
Qed.

Lemma yPass_keeps who bbox o : respects keeps (yPass who bbox o).
Proof.
  intros g g' H. unfold yPass in H.
  destruct (_ && _); [destruct (_ >? _)%num|]; injection H as <-;
    destruct who; untouched.
Qed.

Lemma contact_calm who bbox o : respects calm (contact who bbox o).
Proof.
  intros g g' H. unfold contact in H. destruct (Player_collide _ _).
  - apply (handleObject_calm _ _ _ _ H).
  - injection H as <-. apply calm_refl.
Qed.

Ltac player_leaf :=
  idtac; lazymatch goal with
  | |- respects _ (xPass _ _ _) => apply keeps_as_calm, xPass_keeps
  | |- respects _ (yPass _ _ _) => apply keeps_as_calm, yPass_keeps
  | |- respects _ (contact _ _ _) => apply contact_calm
  end.

Lemma Player_update_calm who dt keys qt : respects calm (Player_update who dt keys qt).
Proof.
  intros g g' H. unfold Player_update in H.
  destruct (Player_move _ _ _ _) as [p| |]; try discriminate.
  destruct qt as [t|]; [|discriminate].
  eapply calm_trans; [|refine (respects_run calm _ _ g' _ H);
                        frame calm_refl calm_trans player_leaf].
  apply keeps_calm. destruct who; untouched.
Qed.

Lemma updatePlayers_calm : respects calm updatePlayers.
Proof.
  unfold updatePlayers. apply respects_andThen; [exact calm_trans| |].
  - intros g g' H. apply (Player_update_calm _ _ _ _ _ _ H).
  - intros g g' H. destruct (Player.active _).
    + apply (Player_update_calm _ _ _ _ _ _ H).
    + injection H as <-. apply calm_refl.
Qed.

(** Triggers. *)
Lemma grows_alter (f : LevelObject.t -> LevelObject.t) hp o :
  (forall ob, LevelObject.used ob = true -> LevelObject.used (f ob) = true) ->
  grows hp (alter f o hp).
Proof.
  intros F h ob H. destruct (decide (o = h)) as [->|N].
  - rewrite list_lookup_alter_eq, H. cbn. eauto.
  - rewrite list_lookup_alter_ne by exact N. eauto.
Qed.

Lemma modifyObj_steady o (f : LevelObject.t -> LevelObject.t) :
  (forall ob, LevelObject.used ob = true -> LevelObject.used (f ob) = true) ->
  respects steady (modifyObj o f).
Proof. intros F g g' [= <-]. split; [apply grows_alter, F|reflexivity]. Qed.

Lemma keeps_as_steady c : respects keeps c -> respects steady c.
Proof. apply respects_weaken. intros g g' H. apply calm_steady, keeps_calm, H. Qed.

Ltac trigger_leaf :=
  idtac; lazymatch goal with
  | |- respects _ (modifyObj _ _) => apply modifyObj_steady; intros ? Hu; first [exact Hu | reflexivity]
  | |- respects _ Game_index => apply keeps_as_steady, Game_index_keeps
  | |- respects _ (withLevel _) =>
      let g := fresh "g" in let g' := fresh "g'" in let H := fresh "H" in
      intros g g' H; unfold withLevel in H;
      destruct (Game.level g); [|discriminate];
      refine (respects_run steady _ g g' _ H);
      apply respects_forEach; [exact steady_refl|exact steady_trans|];
      let obj := fresh "obj" in let g0 := fresh "g" in let g0' := fresh "g'" in
      let H0 := fresh "H" in
      intros obj g0 g0' H0;
      refine (respects_run steady _ g0 g0' _ H0);
      frame steady_refl steady_trans
        ltac:(idtac; apply modifyObj_steady; intros ? Hu; first [exact Hu | reflexivity])
  end.

Lemma handleTrigger_steady o : respects steady (Game_handleTrigger o).
Proof.
  intros g g' H. unfold Game_handleTrigger in H.
  destruct (LevelObject.used _); [injection H as <-; apply steady_refl|].
  refine (respects_run steady _ g g' _ H).
  frame steady_refl steady_trans trigger_leaf.
Qed.

Lemma updateTriggers_steady : respects steady Game_updateTriggers.
Proof.
  intros g g' H. unfold Game_updateTriggers in H.
  destruct (Game.quadTree g); [|discriminate].
  refine (respects_run steady _ g g' _ H).
  apply respects_forEach; [exact steady_refl|exact steady_trans|].
  intros o g0 g0' H0. destruct (_ && _).
  - apply (handleTrigger_steady _ _ _ H0).
  - injection H0 as <-. apply steady_refl.
Qed.

Lemma checkWin_keeps : respects keeps Game_checkWin.
Proof.
  intros g g' H. unfold Game_checkWin, withLevel in H.
  destruct (Game.level g); [|discriminate]. destruct (_ && _).
  - refine (respects_run keeps _ g g' _ H).
    frame keeps_refl keeps_trans
      ltac:(idtac; first [apply setState_keeps | apply modify_keeps; untouched]).
  - injection H as <-. apply keeps_refl.
Qed.

Lemma replayFrom_keeps pending : respects keeps (replayFrom pending).
Proof.
  induction pending as [|ev pending IH]; intros g g' H; cbn [replayFrom] in H.
  - injection H as <-. apply keeps_refl.
  - destruct (_ <=? _)%num; [|injection H as <-; apply keeps_refl].
    refine (respects_run keeps _ g g' _ H).
    frame keeps_refl keeps_trans
      ltac:(idtac; first [exact IH | apply jump_keeps | apply modify_keeps; untouched]).
Qed.

Lemma playReplay_keeps : respects keeps Game_playReplay.
Proof. intros g g' H. apply (replayFrom_keeps _ _ _ H). Qed.

(** ** The frame *)

Lemma Game_update_running dt g :
  Game.state g = "game" -> Game.paused g = false ->
  Game_update dt g
  = (advanceClock dt ;; updatePlayers ;; modify (Game_updateParticles step) ;; frameEnd) g.
Proof. intros S P. unfold Game_update. rewrite P, S. reflexivity. Qed.

Lemma heap_drain g : Game.heap (drain g) = Game.heap g.
Proof.
  apply (drain_elim (fun g r => Game.heap r = Game.heap g)).
  - intros g' _ IH _. rewrite IH. unfold subStep, Game_fixedUpdate.
    destruct (Player.active _); reflexivity.
  - reflexivity.
Qed.

Lemma advanceClock_eq dt g : advanceClock dt g = Ok (drain (tick dt g)).
Proof. reflexivity. Qed.

Lemma frameEnd_steady : respects steady frameEnd.
Proof.
  unfold frameEnd.
  frame steady_refl steady_trans
    ltac:(idtac; lazymatch goal with
          | |- respects _ Game_updateTriggers => apply updateTriggers_steady
          | |- respects _ Game_checkWin => apply keeps_as_steady, checkWin_keeps
          | |- _ => intros g g' H; destruct (Game.replayMode g);
                    [apply (keeps_as_steady _ playReplay_keeps _ _ H)
                    |injection H as <-; apply steady_refl]
          end).
Qed.

Lemma afterClock_steady :
  respects steady (updatePlayers ;; modify (Game_updateParticles step) ;; frameEnd).
Proof.
  frame steady_refl steady_trans
    ltac:(idtac; lazymatch goal with
          | |- respects _ updatePlayers =>
              apply (respects_weaken calm); [exact calm_steady|apply updatePlayers_calm]
          | |- respects _ (modify _) =>
              apply keeps_as_steady, modify_keeps, updateParticles_keeps
          | |- respects _ frameEnd => apply frameEnd_steady
          end).
Qed.



(** ** One-shot flags *)

Lemma isUsed_lookup g o :
  isUsed g o = true <-> exists ob, Game.heap g !! o = Some ob /\ LevelObject.used ob = true.
Proof.
  unfold isUsed, deref. destruct (Game.heap g !! o) as [ob|]; cbn.
  - split; [eauto|]. now intros (? & [= <-] & ?).
  - split; [discriminate|]. now intros (? & ? & _).
Qed.

Lemma isUsed_steady g g' o : steady g g' -> isUsed g o = true -> isUsed g' o = true.
Proof.
  intros [G _] H. apply isUsed_lookup in H as (ob & H & U).
  destruct (G o ob H) as (ob' & H' & U'). apply isUsed_lookup. eauto.
Qed.

Lemma used_noop_object who o g :
  isUsed g o = true -> Player_handleObject who o g = Ok g.
Proof. intros H. unfold Player_handleObject. unfold isUsed in H. now rewrite H. Qed.

Lemma used_noop_trigger o g :
  isUsed g o = true -> Game_handleTrigger o g = Ok g.
Proof. intros H. unfold Game_handleTrigger. unfold isUsed in H. now rewrite H. Qed.

(** A dispatch on an object of the heap leaves its flag raised. *)
Lemma handleObject_marks who o g g' :
  is_Some (Game.heap g !! o) ->
  Player_handleObject who o g = Ok g' -> isUsed g' o = true.
Proof.
  intros [ob0 Hob0] H. unfold Player_handleObject in H.
  assert (Hd : deref (Game.heap g) o = ob0) by now apply deref_lookup.
  destruct (LevelObject.used (deref (Game.heap g) o)) eqn:U.
  - injection H as <-. exact U.
  - remember (deref (Game.heap g) o) as ob eqn:Hob. clear Hob.
    apply andThen_Ok in H as (g1 & H1 & H2).
    injection H1 as <-.
    assert (C : calm (Game.set_heap (alter (LevelObject.set_used true) o (Game.heap g)) g) g').
    { refine (respects_run calm _ _ g' _ H2). frame calm_refl calm_trans calm_leaf. }
    destruct C as [F _]. cbn [Game.heap Game.set_heap] in F.
    apply isUsed_lookup.
    destruct (F o (LevelObject.set_used true ob0)) as [E|E].
    + now rewrite list_lookup_alter_eq, Hob0.
    + eauto.
    + eauto.
Qed.

Lemma handleTrigger_marks o g g' :
  is_Some (Game.heap g !! o) ->
  Game_handleTrigger o g = Ok g' -> isUsed g' o = true.
Proof.
  intros [ob0 Hob0] H. unfold Game_handleTrigger in H.
  destruct (LevelObject.used (deref (Game.heap g) o)) eqn:U.
  - injection H as <-. exact U.
  - apply andThen_Ok in H as (g1 & H1 & H2). injection H1 as <-.
    assert (C : steady (Game.set_heap (alter (LevelObject.set_used true) o (Game.heap g)) g) g').
    { refine (respects_run steady _ _ g' _ H2). frame steady_refl steady_trans trigger_leaf. }
    refine (isUsed_steady _ _ _ C _). unfold isUsed, deref. cbn [Game.heap Game.set_heap].
    now rewrite list_lookup_alter_eq, Hob0.
Qed.

Lemma times_noop (c : cmd) g n : c g = Ok g -> times n c g = Ok g.
Proof.
  intros H. induction n as [|n IH]; cbn [times]; [reflexivity|].
  unfold andThen. now rewrite H.
Qed.

Lemma Game_update_steady dt g g' : Game_update dt g = Ok g' -> grows (Game.heap g) (Game.heap g').
Proof.
  unfold Game_update. destruct (Game.paused g); [intros [= <-]; apply grows_refl|].
  destruct (_ =? "editor"); [discriminate|].
  destruct (negb _); [intros [= <-]; apply grows_refl|].
  intros H. apply andThen_Ok in H as (g1 & H1 & H2).
  rewrite advanceClock_eq in H1. injection H1 as <-.
  destruct (afterClock_steady _ _ H2) as [G _].
  rewrite heap_drain in G. exact G.
Qed.

(** C3.  On an object whose [used] flag is raised, [handleObject] and
    [handleTrigger] return the game as it is.  After a first dispatch on an
    object of the heap any number of further dispatches change nothing.  On
    an unused spike the dispatch raises the flag and calls [die], once.  No
    frame lowers a raised flag: a flag is cleared only in the sense that
    [loadLevel] allocates new objects. *)
Theorem one_shot_idempotence (who : Who) (o : handle) (g : Game.t) :
  (isUsed g o = true ->
     Player_handleObject who o g = Ok g /\ Game_handleTrigger o g = Ok g)
  /\ (forall g' n, is_Some (Game.heap g !! o) ->
        Player_handleObject who o g = Ok g' ->
        times n (Player_handleObject who o) g' = Ok g')
  /\ (forall g' n, is_Some (Game.heap g !! o) ->
        Game_handleTrigger o g = Ok g' ->
        times n (Game_handleTrigger o) g' = Ok g')
  /\ (typeIs (deref (Game.heap g) o) "spike" = true -> isUsed g o = false ->
        Player_handleObject who o g
        = Game_die who (Game.set_heap (alter (LevelObject.set_used true) o (Game.heap g)) g))
  /\ (forall dt g', isUsed g o = true -> Game_update dt g = Ok g' -> isUsed g' o = true).
Proof.
  split; [|split; [|split; [|split]]].
  - intros H. split; [apply used_noop_object|apply used_noop_trigger]; exact H.
  - intros g' n V H. apply times_noop, used_noop_object.
    exact (handleObject_marks _ _ _ _ V H).
  - intros g' n V H. apply times_noop, used_noop_trigger.
    exact (handleTrigger_marks _ _ _ V H).
  - intros T U. unfold Player_handleObject. unfold isUsed in U. rewrite U.
    unfold typeIs in *. apply String.eqb_eq in T. rewrite T.
    reflexivity.
  - intros dt g' U H. apply Game_update_steady in H.
    apply isUsed_lookup in U as (ob & Hob & U).
    destruct (H o ob Hob) as (ob' & H' & U'). apply isUsed_lookup. eauto.
Qed.

(** The first spike of Stereo Madness, before and after its first contact. *)
Lemma one_shot_witness :
  isUsed spikeTouched 120%nat = true
  /\ Player_handleObject P1 120%nat spikeTouched = Ok spikeTouched
  /\ Player_handleObject P1 120%nat (loaded 1) = Game_die P1 spikeTouched.
Proof.
  destruct (one_shot_idempotence P1 120%nat spikeTouched) as (Hnoop & _).
  destruct (one_shot_idempotence P1 120%nat (loaded 1)) as (_ & _ & _ & Hdie & _).
  assert (U : isUsed spikeTouched 120%nat = true) by evaluate.
  split; [exact U|]. split; [exact (proj1 (Hnoop U))|].
  apply Hdie; evaluate.
Defined.

(** ** Contact before triggers *)

Lemma this_setThis who p g : this who (setThis who p g) = p.
Proof. destruct who; reflexivity. Qed.









(** * Further properties of the code *)

(** ** The quad-tree: what it holds and what a query returns *)

Lemma query_sublist hp r t : sublist (QuadTree_query hp r t []) (stored t).
Proof.
  induction t as [b c objs|b c objs nw IHnw ne IHne sw IHsw se IHse];
    cbn [QuadTree_query stored]; destruct (negb _); try apply sublist_nil_l.
  - cbn [app]. apply sublist_filter.
  - cbn [app].
    rewrite query_acc, (query_acc _ _ sw), (query_acc _ _ ne), (query_acc _ _ nw).
    rewrite <- !app_assoc.
    repeat apply sublist_app; auto. apply sublist_filter.
Qed.

Lemma some4_storesOnce (ins : QuadTree -> bool * QuadTree) o b c objs nw ne sw se :
  storesOnce o nw (ins nw) -> storesOnce o ne (ins ne) ->
  storesOnce o sw (ins sw) -> storesOnce o se (ins se) ->
  storesOnce o (QNode b c objs nw ne sw se) (some4 ins b c objs nw ne sw se).
Proof.
  unfold storesOnce, some4.
  destruct (ins nw) as [[] nw'], (ins ne) as [[] ne'], (ins sw) as [[] sw'],
           (ins se) as [[] se']; cbn [fst snd stored];
    intros H1 H2 H3 H4; rewrite ?H1, ?H2, ?H3, ?H4; try reflexivity;
    cbn [app]; rewrite <- ?Permutation_middle; reflexivity.
Qed.

Lemma insertFresh_storesOnce r o b :
  storesOnce o (QuadTree_new b) (insertFresh r o (QuadTree_new b)).
Proof.
  unfold storesOnce, QuadTree_new. cbn [insertFresh].
  destruct (negb _); cbn [fst snd stored app]; reflexivity.
Qed.

Lemma insert_storesOnce hp o t : storesOnce o t (QuadTree_insert hp o t).
Proof.
  induction t as [b c objs|b c objs nw IHnw ne IHne sw IHsw se IHse];
    cbn [QuadTree_insert].
  - destruct (negb _); [reflexivity|].
    destruct (_ <? _)%nat.
    + unfold storesOnce. cbn [fst snd stored].
      symmetry. apply Permutation_cons_append.
    + cbn [QuadTree_subdivide]. destruct (quadrants b) as [[[q1 q2] q3] q4].
      pose proof (some4_storesOnce (insertFresh (LevelObject.rect (deref hp o)) o) o b c objs
        (QuadTree_new q1) (QuadTree_new q2) (QuadTree_new q3) (QuadTree_new q4)
        (insertFresh_storesOnce _ _ _) (insertFresh_storesOnce _ _ _)
        (insertFresh_storesOnce _ _ _) (insertFresh_storesOnce _ _ _)) as H.
      unfold storesOnce in *. cbn [stored QuadTree_new app] in H.
      rewrite !app_nil_r in H. exact H.
  - destruct (negb _); [reflexivity|].
    apply some4_storesOnce; assumption.
Qed.

(** The quadrants that [some4] leaves are the old ones or those that [ins]
    returns. *)
Lemma some4_children (Q : QuadTree -> Prop) (ins : QuadTree -> bool * QuadTree)
    b c objs nw ne sw se :
  Q nw -> Q ne -> Q sw -> Q se ->
  Q (snd (ins nw)) -> Q (snd (ins ne)) -> Q (snd (ins sw)) -> Q (snd (ins se)) ->
  exists nw' ne' sw' se',
    snd (some4 ins b c objs nw ne sw se) = QNode b c objs nw' ne' sw' se'
    /\ Q nw' /\ Q ne' /\ Q sw' /\ Q se'.
Proof.
  intros. unfold some4.
  destruct (ins nw) as [[] nw'], (ins ne) as [[] ne'], (ins sw) as [[] sw'],
           (ins se) as [[] se']; cbn [fst snd] in *; do 4 eexists; (split; [reflexivity|]);
    auto.
Qed.

Lemma insertFresh_capped r o b : capped (snd (insertFresh r o (QuadTree_new b))).
Proof.
  unfold QuadTree_new. cbn [insertFresh]. destruct (negb _); cbn; lia.
Qed.

Lemma insert_capped hp o t : capped t -> capped (snd (QuadTree_insert hp o t)).
Proof.
  induction t as [b c objs|b c objs nw IHnw ne IHne sw IHsw se IHse];
    cbn [QuadTree_insert capped].
  - intros L. destruct (negb _); [exact L|].
    destruct (Nat.ltb_spec (length objs) c); cbn [snd capped].
    + rewrite length_app. cbn. lia.
    + cbn [QuadTree_subdivide]. destruct (quadrants b) as [[[q1 q2] q3] q4].
      destruct (some4_children capped (insertFresh (LevelObject.rect (deref hp o)) o)
        b c objs (QuadTree_new q1) (QuadTree_new q2) (QuadTree_new q3) (QuadTree_new q4))
        as (nw' & ne' & sw' & se' & -> & ? & ? & ? & ?);
        try apply insertFresh_capped; try (cbn; lia).
      cbn [capped]. auto.
  - intros (L & Hnw & Hne & Hsw & Hse). destruct (negb _); [cbn; auto|].
    destruct (some4_children capped (QuadTree_insert hp o) b c objs nw ne sw se)
      as (nw' & ne' & sw' & se' & -> & ? & ? & ? & ?); auto.
    cbn [capped]. auto.
Qed.

Lemma insertFresh_anchored hp o b :
  anchored hp (snd (insertFresh (LevelObject.rect (deref hp o)) o (QuadTree_new b))).
Proof.
  unfold QuadTree_new. cbn [insertFresh].
  destruct (QuadTree_intersects b _) eqn:E; cbn [negb snd anchored stored QuadTree_bounds app].
  - split; [|exact I]. apply Forall_singleton. exact E.
  - split; [|exact I]. apply Forall_nil. exact I.
Qed.

Lemma anchored_new hp b : anchored hp (QuadTree_new b).
Proof. split; [apply Forall_nil|]; exact I. Qed.

Lemma anchored_top hp t :
  anchored hp t ->
  Forall (fun x => QuadTree_intersects (QuadTree_bounds t)
                     (LevelObject.rect (deref hp x)) = true) (stored t).
Proof. destruct t; intros [H _]; exact H. Qed.

Lemma insert_top hp o t :
  Forall (fun x => QuadTree_intersects (QuadTree_bounds t)
                     (LevelObject.rect (deref hp x)) = true) (stored t) ->
  Forall (fun x => QuadTree_intersects (QuadTree_bounds (snd (QuadTree_insert hp o t)))
                     (LevelObject.rect (deref hp x)) = true)
         (stored (snd (QuadTree_insert hp o t))).
Proof.
  intros A. rewrite insert_bounds.
  pose proof (insert_storesOnce hp o t) as S. unfold storesOnce in S.
  destruct (fst (QuadTree_insert hp o t)) eqn:F; rewrite S; [|exact A].
  apply Forall_cons. split; [|exact A].
  rewrite QuadTree_insert_eq in F. cbv zeta in F.
  destruct (QuadTree_intersects _ _); [reflexivity|discriminate].
Qed.

Lemma insert_anchored hp o t : anchored hp t -> anchored hp (snd (QuadTree_insert hp o t)).
Proof.
  induction t as [b c objs|b c objs nw IHnw ne IHne sw IHsw se IHse]; intros A;
    pose proof (insert_top hp o _ (anchored_top hp _ A)) as Top;
    cbn [QuadTree_insert] in *.
  - destruct (negb _); [exact A|].
    destruct (_ <? _)%nat; cbn [snd] in *.
    + split; [exact Top|exact I].
    + cbn [QuadTree_subdivide] in *. destruct (quadrants b) as [[[q1 q2] q3] q4].
      destruct (some4_children (anchored hp) (insertFresh (LevelObject.rect (deref hp o)) o)
        b c objs (QuadTree_new q1) (QuadTree_new q2) (QuadTree_new q3) (QuadTree_new q4))
        as (nw' & ne' & sw' & se' & E & ? & ? & ? & ?);
        try apply insertFresh_anchored; try apply anchored_new.
      rewrite E in *. split; [exact Top|]. auto.
  - destruct A as (_ & Hnw & Hne & Hsw & Hse).
    destruct (negb _); [cbn [snd] in *; split; auto|].
    destruct (some4_children (anchored hp) (QuadTree_insert hp o) b c objs nw ne sw se)
      as (nw' & ne' & sw' & se' & E & ? & ? & ? & ?); auto.
    rewrite E in *. split; [exact Top|]. auto.
Qed.

Lemma nle_true (a b : num) :
  (a <=? b)%num = true <-> exists p q, a = Fin p /\ b = Fin q /\ p <= q.
Proof.
  split.
  - destruct a as [p|], b as [q|]; cbn; try discriminate.
    intros H. apply Qle_bool_iff in H. eauto.
  - intros (p & q & -> & -> & H). cbn. apply Qle_bool_iff, H.
Qed.

(** A range that covers a rectangle of positive width and height overlaps
    it, and overlaps whatever the rectangle overlaps. *)
Lemma covers_overlap (range r : Rect.t) :
  covers range r = true ->
  QuadTree_intersects r r = true ->
  QuadTree_intersects range r = true
  /\ forall b, QuadTree_intersects b r = true -> QuadTree_intersects b range = true.
Proof.
  intros C S.
  apply intersects_true in S
    as (rx & ry & rw & rh & ? & ? & ? & ? & -> & [= <- <- <- <-] & S1 & _ & S3 & _).
  destruct range as [ax ay aw ah]. unfold covers in C.
  cbn [Rect.x Rect.y Rect.w Rect.h] in C. rewrite !andb_true_iff in C.
  destruct C as [[[C1 C2] C3] C4].
  apply nle_true in C1 as (ax' & ? & -> & [= <-] & C1).
  apply nle_true in C3 as (ay' & ? & -> & [= <-] & C3).
  apply nle_true in C2 as (? & ? & E2 & E2' & C2).
  apply nle_true in C4 as (? & ? & E4 & E4' & C4).
  apply lift2_Fin in E2 as (? & ? & [= <-] & [= <-] & ->).
  apply lift2_Fin in E4 as (? & ? & [= <-] & [= <-] & ->).
  apply lift2_Fin in E2' as (? & aw' & [= <-] & -> & ->).
  apply lift2_Fin in E4' as (? & ah' & [= <-] & -> & ->).
  rewrite !Qred_correct in C2, C4.
  split.
  - apply intersects_true. do 8 eexists. split; [reflexivity|]. split; [reflexivity|].
    unfold overlaps. lra.
  - intros b Hb. apply intersects_true in Hb
      as (bx & by' & bw & bh & ? & ? & ? & ? & -> & [= <- <- <- <-] & B1 & B2 & B3 & B4).
    apply intersects_true. do 8 eexists. split; [reflexivity|]. split; [reflexivity|].
    unfold overlaps. lra.
Qed.

(** [query] returns every object held by the tree that the range covers. *)
Lemma query_covering hp range t o :
  anchored hp t -> o ∈ stored t ->
  QuadTree_intersects (LevelObject.rect (deref hp o)) (LevelObject.rect (deref hp o)) = true ->
  covers range (LevelObject.rect (deref hp o)) = true ->
  o ∈ QuadTree_query hp range t [].
Proof.
  intros A Hin S C. destruct (covers_overlap _ _ C S) as [Hr Hb].
  assert (Hhit : forall objs, o ∈ objs -> o ∈ hit hp range objs).
  { intros objs H. unfold hit. apply list_elem_of_filter. auto. }
  induction t as [b c objs|b c objs nw IHnw ne IHne sw IHsw se IHse].
  - apply elem_query_leaf. split; [|apply Hhit, Hin].
    apply Hb. destruct A as [A _]. rewrite Forall_forall in A. apply (A o Hin).
  - apply elem_query_node. split.
    + apply Hb. destruct A as [A _]. rewrite Forall_forall in A. apply (A o Hin).
    + destruct A as (_ & Anw & Ane & Asw & Ase). cbn [stored] in Hin.
      rewrite !elem_of_app in Hin. intuition auto.
Qed.

Lemma inserted_anchored hp l : forall t, anchored hp t -> anchored hp (inserted hp l t).
Proof.
  induction l as [|a l IH]; intros t A; cbn [inserted fold_left]; [exact A|].
  apply IH, insert_anchored, A.
Qed.

Lemma insert_stored_keeps hp o t x : x ∈ stored t -> x ∈ stored (snd (QuadTree_insert hp o t)).
Proof.
  intros H. pose proof (insert_storesOnce hp o t) as S. unfold storesOnce in S.
  destruct (fst _); rewrite S; [now right|exact H].
Qed.

Lemma inserted_stored_keeps hp l x : forall t, x ∈ stored t -> x ∈ stored (inserted hp l t).
Proof.
  induction l as [|a l IH]; intros t H; cbn [inserted fold_left]; [exact H|].
  apply IH, insert_stored_keeps, H.
Qed.

Lemma inserted_holds hp l o : forall t,
  o ∈ l -> wellSplit t ->
  QuadTree_intersects (QuadTree_bounds t) (LevelObject.rect (deref hp o)) = true ->
  QuadTree_intersects (LevelObject.rect (deref hp o)) (LevelObject.rect (deref hp o)) = true ->
  o ∈ stored (inserted hp l t).
Proof.
  induction l as [|a l IH]; intros t Hin W B S; [inversion Hin|].
  cbn [inserted fold_left]. apply elem_of_cons in Hin as [<-|Hin].
  - apply inserted_stored_keeps.
    pose proof (insert_storesOnce hp o t) as St. unfold storesOnce in St.
    rewrite (insert_accepts hp o t W B S) in St. rewrite St. now left.
  - apply IH; [exact Hin|apply insert_wellSplit, W| |exact S].
    rewrite insert_bounds. exact B.
Qed.

Lemma insertFresh_adds_only hp q r o b x :
  x ∈ QuadTree_query hp q (snd (insertFresh r o (QuadTree_new b))) [] -> x = o.
Proof.
  unfold QuadTree_new. cbn [insertFresh]. destruct (negb _); cbn [snd].
  - rewrite elem_query_leaf. unfold hit. rewrite list_elem_of_filter.
    intros (_ & _ & H). inversion H.
  - rewrite elem_query_leaf, hit_app. unfold hit. rewrite !list_elem_of_filter.
    intros (_ & [(_ & H)|(_ & H)]); [inversion H|].
    now apply list_elem_of_singleton in H.
Qed.

Lemma insert_adds_only hp q o t x :
  x ∈ QuadTree_query hp q (snd (QuadTree_insert hp o t)) [] ->
  x = o \/ x ∈ QuadTree_query hp q t [].
Proof.
  revert x.
  induction t as [b c objs|b c objs nw IHnw ne IHne sw IHsw se IHse]; intros x;
    cbn [QuadTree_insert].
  - destruct (negb _); [auto|]. destruct (_ <? _)%nat; cbn [snd].
    + rewrite !elem_query_leaf, hit_app. unfold hit at 2.
      rewrite list_elem_of_filter, list_elem_of_singleton. tauto.
    + cbn [QuadTree_subdivide]. destruct (quadrants b) as [[[q1 q2] q3] q4].
      destruct (some4_unfold (insertFresh (LevelObject.rect (deref hp o)) o) b c objs
        (QuadTree_new q1) (QuadTree_new q2) (QuadTree_new q3) (QuadTree_new q4))
        as (nw' & ne' & sw' & se' & -> & -> & [->| ->] & [->| ->] & [->| ->] & _);
        cbn [snd]; rewrite elem_query_node, elem_query_leaf;
        intros (Hb & [H|[H|[H|[H|H]]]]); auto;
        try (apply insertFresh_adds_only in H; auto);
        try (apply elem_query_leaf in H as [_ H]; unfold hit in H;
             apply list_elem_of_filter in H as [_ H]; inversion H).
  - destruct (negb _); [auto|].
    destruct (some4_unfold (QuadTree_insert hp o) b c objs nw ne sw se)
      as (nw' & ne' & sw' & se' & -> & -> & [->| ->] & [->| ->] & [->| ->] & _);
      cbn [snd]; rewrite !elem_query_node;
      intros (Hb & [H|[H|[H|[H|H]]]]); auto 7;
      first [apply IHnw in H|apply IHne in H|apply IHsw in H|apply IHse in H];
      destruct H; auto 7.
Qed.

Lemma inserted_from hp l : forall t x,
  x ∈ stored (inserted hp l t) -> x ∈ stored t \/ x ∈ l.
Proof.
  induction l as [|a l IH]; intros t x H; cbn [inserted fold_left] in H; [auto|].
  apply IH in H as [H|H]; [|right; now right].
  pose proof (insert_storesOnce hp a t) as S. unfold storesOnce in S.
  destruct (fst _); rewrite S in H; [|auto].
  apply elem_of_cons in H as [->|H]; [right; now left|auto].
Qed.

Lemma inserted_NoDup hp l : forall t,
  NoDup (stored t) -> NoDup l -> (forall x, x ∈ stored t -> x ∉ l) ->
  NoDup (stored (inserted hp l t)).
Proof.
  induction l as [|a l IH]; intros t Nt Nl D; cbn [inserted fold_left]; [exact Nt|].
  apply NoDup_cons in Nl as [Ha Nl].
  pose proof (insert_storesOnce hp a t) as S. unfold storesOnce in S.
  apply IH; [|exact Nl|].
  - destruct (fst _); rewrite S; [|exact Nt].
    apply NoDup_cons. split; [|exact Nt]. intros H. apply (D a H). now left.
  - intros x Hx. destruct (fst _); rewrite S in Hx.
    + apply elem_of_cons in Hx as [->|Hx]; [exact Ha|].
      intros H. apply (D x Hx). now right.
    + intros H. apply (D x Hx). now right.
Qed.

Lemma inserted_capped hp l : forall t, capped t -> capped (inserted hp l t).
Proof.
  induction l as [|a l IH]; intros t A; cbn [inserted fold_left]; [exact A|].
  apply IH, insert_capped, A.
Qed.

Lemma inserted_finds_covered (hp : Heap) (l : list handle) (b range : Rect.t)
    (o : handle) :
  let r := LevelObject.rect (deref hp o) in
  o ∈ l ->
  QuadTree_intersects b r = true ->
  QuadTree_intersects r r = true ->
  covers range r = true ->
  o ∈ QuadTree_query hp range (inserted hp l (QuadTree_new b)) [].
Proof.
  intros r Hin B S C. apply query_covering; [apply inserted_anchored, anchored_new| | |];
    try assumption.
  apply inserted_holds; [exact Hin|exact I|exact B|exact S].
Qed.

(** X1.  [query] appends to the list it is given; what it appends is a
    sub-list of the objects the tree holds, in the order of the visit, and
    every one of them passes the overlap test against the range; a range
    that does not overlap the bounds of the tree adds nothing. *)
Theorem query_returns_stored_overlaps (hp : Heap) (range : Rect.t) (t : QuadTree)
    (found : list handle) :
  QuadTree_query hp range t found = found ++ QuadTree_query hp range t []
  /\ sublist (QuadTree_query hp range t []) (stored t)
  /\ (forall o, o ∈ QuadTree_query hp range t [] ->
        QuadTree_intersects range (LevelObject.rect (deref hp o)) = true)
  /\ (QuadTree_intersects (QuadTree_bounds t) range = false ->
        QuadTree_query hp range t found = found).
Proof.
  split; [apply query_acc|]. split; [apply query_sublist|].
  split; [intros o; apply query_sound|].
  intros H. destruct t; cbn [QuadTree_query QuadTree_bounds] in *; rewrite H; reflexivity.
Qed.

(** X2.  An accepted [insert] adds the object to the objects the tree
    holds exactly once; a refused [insert] leaves them as they were, also
    when it has subdivided a node; an object that does not overlap the
    bounds is refused without any change; the bounds never change. *)
Theorem insert_stores_once (hp : Heap) (o : handle) (t : QuadTree) :
  let r := QuadTree_insert hp o t in
  (fst r = true -> stored (snd r) ≡ₚ o :: stored t)
  /\ (fst r = false -> stored (snd r) = stored t)
  /\ (QuadTree_intersects (QuadTree_bounds t) (LevelObject.rect (deref hp o)) = false ->
      r = (false, t))
  /\ QuadTree_bounds (snd r) = QuadTree_bounds t.
Proof.
  intros r. pose proof (insert_storesOnce hp o t) as S. unfold storesOnce in S. fold r in S.
  split; [intros F; now rewrite F in S|]. split; [intros F; now rewrite F in S|].
  split; [|apply insert_bounds].
  intros H. unfold r. rewrite QuadTree_insert_eq. cbv zeta. rewrite H. reflexivity.
Qed.

(** X3.  An [insert] changes the result of a query by the inserted
    object at most: what the query returned before it still returns, and
    whatever else it returns is the new object. *)
Theorem insert_changes_query_by_one (hp : Heap) (range : Rect.t) (o : handle)
    (t : QuadTree) (x : handle) :
  (x ∈ QuadTree_query hp range t [] ->
   x ∈ QuadTree_query hp range (snd (QuadTree_insert hp o t)) [])
  /\ (x ∈ QuadTree_query hp range (snd (QuadTree_insert hp o t)) [] ->
      x = o \/ x ∈ QuadTree_query hp range t []).
Proof. split; [apply insert_keeps|apply insert_adds_only]. Qed.

(** X4.  The tree that any sequence of [insert] builds from an empty
    one keeps its bounds, every divided node owns the four quadrants of its
    bounds, no node holds more objects than its capacity, every object held
    below a node overlaps the bounds of that node, and the objects held are
    among the inserted ones, without repetition if these had none. *)
Theorem inserted_shape (hp : Heap) (l : list handle) (b : Rect.t) :
  let t := inserted hp l (QuadTree_new b) in
  QuadTree_bounds t = b
  /\ wellSplit t
  /\ capped t
  /\ anchored hp t
  /\ (forall o, o ∈ stored t -> o ∈ l)
  /\ (NoDup l -> NoDup (stored t)).
Proof.
  intros t. destruct (fold_shape hp l (QuadTree_new b) I) as [W B].
  split; [exact B|]. split; [exact W|].
  split; [apply inserted_capped; cbn; lia|].
  split; [apply inserted_anchored, anchored_new|].
  split.
  - intros o H. apply inserted_from in H as [H|H]; [inversion H|exact H].
  - intros N. apply inserted_NoDup; [apply NoDup_nil; exact I|exact N|].
    intros x H. inversion H.
Qed.





(** ** Generated and loaded levels *)

Lemma tidy_Forall width height objs :
  forallb (tidy width height) objs = true ->
  Forall (fun ob => LevelObject.used ob = false
                    /\ covers (Rect.mk (Fin 0) (Fin 0) width height)
                              (LevelObject.rect ob) = true
                    /\ QuadTree_intersects (LevelObject.rect ob)
                                           (LevelObject.rect ob) = true) objs.
Proof.
  intros H. apply Forall_forall. intros ob Hin.
  rewrite forallb_forall in H. apply list_elem_of_In in Hin.
  specialize (H ob Hin). unfold tidy in H. rewrite !andb_true_iff, negb_true_iff in H.
  tauto.
Qed.

Lemma forallb_Forall_false {A} (f : A -> bool) l :
  forallb (fun a => negb (f a)) l = true -> Forall (fun a => f a = false) l.
Proof.
  intros H. apply Forall_forall. intros a Hin.
  rewrite forallb_forall in H. apply list_elem_of_In in Hin.
  apply negb_true_iff, H, Hin.
Qed.

Lemma tidyLevel_intro objs width height front :
  height = Fin 420 ->
  forallb (tidy width height) objs = true ->
  map LevelObject.id (filter (fun ob => typeIs ob "coin" = true) objs)
  = [Some 1; Some 2; Some 3]%Z ->
  objs = front ++ [LevelObject.plain (width - TILE)%num (Fin 375) TILE TILE "finish"] ->
  forallb (fun ob => negb (typeIs ob "finish")) front = true ->
  tidyLevel (objs, width, height).
Proof.
  intros H1 H2 H3 H4 H5. unfold tidyLevel.
  split; [exact H1|]. split; [apply tidy_Forall, H2|]. split; [exact H3|].
  exists front. split; [exact H4|apply forallb_Forall_false, H5].
Qed.

Ltac level_facts :=
  lazymatch goal with
  | |- tidyLevel (?objs, _, _) =>
      apply (tidyLevel_intro _ _ _ (removelast objs)); vm_compute; reflexivity
  end.

Lemma generateLevel_facts (id : Z) : tidyLevel (generateLevel id).
Proof.
  unfold generateLevel.
  destruct (id =? 1)%Z; [level_facts|].
  destruct (id =? 2)%Z; [level_facts|].
  destruct (id =? 3)%Z; [level_facts|].
  destruct (id =? 4)%Z; [level_facts|].
  destruct (id =? 22)%Z; level_facts.
Qed.

(** X7.  For every [id], [generateLevel] returns a level of height 420
    whose objects are unused, of positive width and height and inside the
    level bounds; the level has three coins, with ids 1, 2 and 3 in this
    order, and one finish line, its last object, at [width - TILE]. *)
Theorem generateLevel_tidy (id : Z) :
  let '(objs, width, height) := generateLevel id in
  height = Fin 420
  /\ Forall (fun ob => LevelObject.used ob = false
                       /\ covers (Rect.mk (Fin 0) (Fin 0) width height)
                                 (LevelObject.rect ob) = true
                       /\ QuadTree_intersects (LevelObject.rect ob)
                                              (LevelObject.rect ob) = true) objs
  /\ map LevelObject.id (filter (fun ob => typeIs ob "coin" = true) objs)
     = [Some 1; Some 2; Some 3]%Z
  /\ exists front,
       objs = front ++ [LevelObject.plain (width - TILE)%num (Fin 375) TILE TILE "finish"]
       /\ Forall (fun ob => typeIs ob "finish" = false) front.
Proof. exact (generateLevel_facts id). Qed.

Lemma loadLevel_eq (id : Z) (g : Game.t) : Game_loadLevel id g = Ok (afterLoad id g).
Proof.
  unfold Game_loadLevel, afterLoad.
  destruct (generateLevel id) as [[objs width] height].
  unfold andThen at 1. unfold modify at 1.
  unfold andThen at 1. unfold Game_setState at 1.
  change (String.eqb "game" "game") with true.
  change (String.eqb "game" "editor") with false. cbv iota.
  unfold andThen at 1. unfold modify at 1.
  unfold andThen at 1.
  erewrite Game_index_eq by reflexivity.
  reflexivity.
Qed.

(** The objects of the level that [loadLevel] has just allocated. *)
Lemma afterLoad_objects (id : Z) (g : Game.t) :
  exists objs width height,
    generateLevel id = (objs, width, height)
    /\ Game.heap (afterLoad id g) = Game.heap g ++ objs
    /\ Game.level (afterLoad id g)
       = Some (Level.mk (seq (length (Game.heap g)) (length objs)) width height)
    /\ Game.quadTree (afterLoad id g)
       = Some (indexOf (Game.heap g ++ objs)
                 (Level.mk (seq (length (Game.heap g)) (length objs)) width height))
    /\ forall o, o ∈ seq (length (Game.heap g)) (length objs) ->
         exists ob, (Game.heap g ++ objs) !! o = Some ob /\ ob ∈ objs.
Proof.
  unfold afterLoad. destruct (generateLevel id) as [[objs width] height].
  exists objs, width, height. do 4 (split; [reflexivity|]).
  intros o Ho. apply elem_of_seq in Ho as [L U].
  destruct (lookup_lt_is_Some_2 objs (o - length (Game.heap g))) as [ob Hob]; [lia|].
  exists ob. split; [|eapply list_elem_of_lookup_2, Hob].
  rewrite lookup_app_r by exact L. exact Hob.
Qed.

Lemma loadLevel_outcome (id : Z) (g : Game.t) :
  exists g' lv,
    Game_loadLevel id g = Ok g'
    /\ Game.level g' = Some lv
    /\ Game.state g' = "game" /\ Game.paused g' = false /\ Game.levelId g' = id
    /\ Game.player g' = Player_reset
    /\ Game.player2 g' = Player.set_active false Player_reset
    /\ Game.time g' = Fin 0 /\ Game.speedMult g' = Fin 1
    /\ Game.activeParticles g' = 0%nat /\ Game.coins g' = 0%nat /\ Game.orbs g' = 0%nat
    /\ Game.replays g' = []
    /\ Game.replayIndex g' = Game.replayIndex g
    /\ Game.replayMode g' = Game.replayMode g
    /\ Game.practice g' = Game.practice g
    /\ Game.checkpoints g' = Game.checkpoints g
    /\ Game.stars g' = Game.stars g
    /\ Game.accumulator g' = Game.accumulator g
    /\ NoDup (Level.objects lv)
    /\ (forall o, o ∈ Level.objects lv ->
          Game.heap g !! o = None /\ is_Some (Game.heap g' !! o) /\ isUsed g' o = false)
    /\ (forall o ob, Game.heap g !! o = Some ob -> Game.heap g' !! o = Some ob).
Proof.
  destruct (afterLoad_objects id g) as (objs & width & height & E & Hhp & Hlv & _ & Hobj).
  pose proof (generateLevel_facts id) as F. rewrite E in F. destruct F as (_ & F & _).
  exists (afterLoad id g), (Level.mk (seq (length (Game.heap g)) (length objs)) width height).
  split; [apply loadLevel_eq|]. split; [exact Hlv|].
  unfold afterLoad at 1 2 3 4 5 6 7 8 9 10 11 12 13 14 15 16 17. rewrite E.
  cbn [Game.state Game.paused Game.levelId Game.player Game.player2 Game.time
       Game.speedMult Game.activeParticles Game.coins Game.orbs Game.replays
       Game.replayIndex Game.replayMode Game.practice Game.checkpoints Game.stars
       Game.accumulator Level.objects].
  do 17 (split; [reflexivity|]).
  split; [apply NoDup_seq|]. split.
  - intros o Ho. destruct (Hobj o Ho) as (ob & Hob & Hin).
    apply elem_of_seq in Ho as [L U].
    split; [apply lookup_ge_None_2, L|]. rewrite Hhp. split; [eauto|].
    unfold isUsed, deref. rewrite Hhp, Hob. cbn.
    rewrite Forall_forall in F. apply (F ob Hin).
  - intros o ob Ho. rewrite Hhp. rewrite lookup_app_l; [exact Ho|].
    eapply lookup_lt_Some, Ho.
Qed.

(** X8.  [loadLevel] succeeds from every state.  It leaves the game
    running and not paused, both players reset and the second inactive, the
    clock, the counters of coins, orbs and active particles at zero, the
    speed at one and the replay log empty; it keeps [replayIndex],
    [replayMode], [practice], the checkpoints, the stars and the
    accumulator.  The objects of the level are new (no handle of the old
    heap), distinct and unused, and no object of the old heap changes. *)
Theorem loadLevel_fresh_level (id : Z) (g : Game.t) :
  exists g' lv,
    Game_loadLevel id g = Ok g'
    /\ Game.level g' = Some lv
    /\ Game.state g' = "game" /\ Game.paused g' = false /\ Game.levelId g' = id
    /\ Game.player g' = Player_reset
    /\ Game.player2 g' = Player.set_active false Player_reset
    /\ Game.time g' = Fin 0 /\ Game.speedMult g' = Fin 1
    /\ Game.activeParticles g' = 0%nat /\ Game.coins g' = 0%nat /\ Game.orbs g' = 0%nat
    /\ Game.replays g' = []
    /\ Game.replayIndex g' = Game.replayIndex g
    /\ Game.replayMode g' = Game.replayMode g
    /\ Game.practice g' = Game.practice g
    /\ Game.checkpoints g' = Game.checkpoints g
    /\ Game.stars g' = Game.stars g
    /\ Game.accumulator g' = Game.accumulator g
    /\ NoDup (Level.objects lv)
    /\ (forall o, o ∈ Level.objects lv ->
          Game.heap g !! o = None /\ is_Some (Game.heap g' !! o) /\ isUsed g' o = false)
    /\ (forall o ob, Game.heap g !! o = Some ob -> Game.heap g' !! o = Some ob).
Proof. exact (loadLevel_outcome id g). Qed.

(** X9.  After [loadLevel], a query of the index with a range that
    covers the bounds of an object of the level returns this object. *)
Theorem loadLevel_indexes_every_object (id : Z) (g g' : Game.t) (lv : Level.t)
    (o : handle) (range : Rect.t) :
  Game_loadLevel id g = Ok g' ->
  Game.level g' = Some lv ->
  o ∈ Level.objects lv ->
  covers range (rectOf g' o) = true ->
  o ∈ queryIndex g' range.
Proof.
  rewrite loadLevel_eq. intros [= <-].
  destruct (afterLoad_objects id g) as (objs & width & height & E & Hhp & Hlv & Hqt & Hobj).
  rewrite Hlv. intros [= <-]. cbn [Level.objects]. intros Ho.
  unfold rectOf, queryIndex. rewrite Hqt, Hhp. intros C.
  destruct (Hobj o Ho) as (ob & Hob & Hin).
  pose proof (generateLevel_facts id) as F. rewrite E in F. destruct F as (_ & F & _).
  rewrite Forall_forall in F. destruct (F ob Hin) as (_ & Hc & Hs).
  assert (D : deref (Game.heap g ++ objs) o = ob) by (apply deref_lookup, Hob).
  apply (inserted_finds_covered (Game.heap g ++ objs)
           (seq (length (Game.heap g)) (length objs))
           (Rect.mk (Fin 0) (Fin 0) width height) range o).
  - exact Ho.
  - rewrite D. apply (covers_overlap _ _ Hc Hs).
  - rewrite D. exact Hs.
  - exact C.
Qed.

(** Stereo Madness: the ground block at [x = 660] is returned to a range around it. *)
Lemma loadLevel_indexes_witness : 22%nat ∈ queryIndex (loaded 1) aroundBlock22.
Proof.
  apply (loadLevel_indexes_every_object 1 blankGame (loaded 1)
           (Level.mk (seq 0 171) (Fin 3600) (Fin 420)) 22 aroundBlock22).
  - evaluate.
  - evaluate.
  - apply elem_of_seq. lia.
  - evaluate.
Defined.

(** ** The slots of the particle pool *)

Transparent Game_addParticle Game_updateParticles.

(** [addParticle] writes the particle heap, the count of active particles and
    the count of random numbers drawn, and nothing else. *)
Lemma addParticle_writes x y ty count : forall g,
  exists ps n k,
    Game_addParticle x y ty count g
    = Game.set_randomCalls k (Game.set_activeParticles n (Game.set_particles ps g)).
Proof.
  induction count as [|count IH]; intros g; cbn [Game_addParticle].
  - exists (Game.particles g), (Game.activeParticles g), (Game.randomCalls g).
    now destruct g.
  - destruct (_ <=? _)%nat.
    + exists (Game.particles g), (Game.activeParticles g), (Game.randomCalls g).
      now destruct g.
    + match goal with |- context [Game_addParticle _ _ _ _ ?g1] =>
        destruct (IH g1) as (ps & n & k & ->) end.
      exists ps, n, k. reflexivity.
Qed.

Lemma elem_of_insert_inv {A} (l : list A) i x h :
  h ∈ <[i := x]> l -> h = x \/ h ∈ l.
Proof.
  intros H. apply list_elem_of_lookup in H as [j Hj].
  destruct (decide (i = j)) as [->|N].
  - destruct (decide (j < length l)%nat) as [L|L].
    + rewrite list_lookup_insert_eq in Hj by exact L. left. congruence.
    + rewrite list_insert_ge in Hj by lia. right. eapply list_elem_of_lookup_2, Hj.
  - rewrite list_lookup_insert_ne in Hj by exact N. right.
    eapply list_elem_of_lookup_2, Hj.
Qed.

(** What the loop of [updateParticles] keeps, from any round on. *)
Lemma updateParticles_from_keeps dt (n : nat) : forall i g,
  (Game.activeParticles g <= length (Game.particlesPool g))%nat ->
  let g' := updateParticles_from n i dt g in
  length (Game.particlesPool g') = length (Game.particlesPool g)
  /\ (Game.activeParticles g' <= Game.activeParticles g)%nat
  /\ (forall h, h ∈ Game.particlesPool g' -> h ∈ Game.particlesPool g)
  /\ length (Game.particles g') = length (Game.particles g)
  /\ Game.randomCalls g' = Game.randomCalls g
  /\ Game.player g' = Game.player g /\ Game.player2 g' = Game.player2 g.
Proof.
  induction n as [|n IH]; intros i g L; cbn [updateParticles_from]; [auto 10|].
  destruct (Nat.ltb_spec i (Game.activeParticles g)) as [Hi|Hi]; [|auto 10].
  destruct (Particle_update dt (particleAt g (slot g i))) as [p alive].
  destruct alive.
  - match goal with |- context [updateParticles_from n (S i) dt ?g1] =>
      destruct (IH (S i) g1) as (A & B & C & D & E & F & G); [exact L|] end.
    cbn [Game.particlesPool Game.activeParticles Game.particles Game.set_particles
         Game.randomCalls Game.player Game.player2] in *.
    try rewrite length_insert in D. auto 10.
  - match goal with |- context [updateParticles_from n i dt ?g2] =>
      destruct (IH i g2) as (A & B & C & D & E & F & G) end.
    + cbn [Game.particlesPool Game.activeParticles Game.set_particlesPool
           Game.set_activeParticles Game.set_particles]. rewrite length_insert. lia.
    + cbn [Game.particlesPool Game.activeParticles Game.particles Game.set_particles
           Game.set_particlesPool Game.set_activeParticles Game.randomCalls
           Game.player Game.player2] in *.
      rewrite length_insert in A. try rewrite length_insert in D.
      split; [exact A|]. split; [lia|]. split; [|auto].
      intros h Hh. apply C in Hh. apply elem_of_insert_inv in Hh as [->|Hh]; [|exact Hh].
      unfold slot. cbn [Game.particlesPool Game.set_activeParticles Game.set_particles].
      destruct (lookup_lt_is_Some_2 (Game.particlesPool g)
                  (Nat.pred (Game.activeParticles g))) as [x Hx]; [lia|].
      rewrite Hx. cbn. eapply list_elem_of_lookup_2, Hx.
Qed.

(** X10.  With no more active particles than slots, [updateParticles]
    keeps the length of the pool and of the particle heap, never raises
    the count of active particles, fills the slots with handles the pool
    already held, draws no random number and leaves the players alone. *)
Theorem updateParticles_keeps_pool (dt : num) (g : Game.t) :
  (Game.activeParticles g <= length (Game.particlesPool g))%nat ->
  let g' := Game_updateParticles dt g in
  length (Game.particlesPool g') = length (Game.particlesPool g)
  /\ (Game.activeParticles g' <= Game.activeParticles g)%nat
  /\ (forall h, h ∈ Game.particlesPool g' -> h ∈ Game.particlesPool g)
  /\ length (Game.particles g') = length (Game.particles g)
  /\ Game.randomCalls g' = Game.randomCalls g
  /\ Game.player g' = Game.player g /\ Game.player2 g' = Game.player2 g.
Proof. intros L. apply updateParticles_from_keeps, L. Qed.

(** Three particles of a new game, one step later. *)
Lemma updateParticles_pool_witness :
  length (Game.particlesPool (Game_updateParticles step sparks)) = 1000%nat.
Proof.
  destruct (updateParticles_keeps_pool step sparks) as (L & _).
  - vm_compute. lia.
  - rewrite L. evaluate.
Defined.

(** X11.  The removal [pool[i--] = pool[--activeParticles]] copies and
    does not swap: when the pool holds distinct particles, at least two are
    active and the one in slot 0 dies in this update, its handle is in no
    slot of the pool afterwards, while the pool keeps its length (so some
    particle now fills two slots). *)
Theorem updateParticles_loses_dead_handle (dt : num) (g : Game.t) :
  NoDup (Game.particlesPool g) ->
  (2 <= Game.activeParticles g)%nat ->
  (Game.activeParticles g <= length (Game.particlesPool g))%nat ->
  snd (Particle_update dt (particleAt g (slot g 0))) = false ->
  (slot g 0 ∈ Game.particlesPool g)
  /\ (slot g 0 ∉ Game.particlesPool (Game_updateParticles dt g))
  /\ length (Game.particlesPool (Game_updateParticles dt g))
     = length (Game.particlesPool g).
Proof.
  intros N L U D.
  destruct (lookup_lt_is_Some_2 (Game.particlesPool g) 0) as [h0 H0]; [lia|].
  destruct (lookup_lt_is_Some_2 (Game.particlesPool g)
              (Nat.pred (Game.activeParticles g))) as [hl Hl]; [lia|].
  assert (S0 : slot g 0 = h0) by (unfold slot; now rewrite H0).
  split; [rewrite S0; eapply list_elem_of_lookup_2, H0|].
  split; [|apply (updateParticles_from_keeps dt _ 0 g); lia].
  unfold Game_updateParticles.
  destruct (Game.activeParticles g) as [|n] eqn:En; [lia|].
  cbn [updateParticles_from]. rewrite En.
  change (0 <? S n)%nat with true. cbv iota.
  destruct (Particle_update dt (particleAt g (slot g 0))) as [p alive].
  cbn [snd] in D. subst alive.
  match goal with |- context [updateParticles_from n 0 dt ?g2] =>
    destruct (updateParticles_from_keeps dt n 0 g2) as (_ & _ & C & _) end.
  - cbn [Game.particlesPool Game.activeParticles Game.set_particlesPool
         Game.set_activeParticles Game.set_particles]. rewrite length_insert. lia.
  - intros Hin. apply C in Hin.
    cbn [Game.particlesPool Game.activeParticles Game.set_particlesPool
         Game.set_activeParticles Game.set_particles Nat.pred] in Hin.
    rewrite S0 in Hin. unfold slot in Hin.
    cbn [Game.particlesPool Game.activeParticles Game.set_particlesPool
         Game.set_activeParticles Game.set_particles] in Hin.
    rewrite ?En in Hin. cbn [Nat.pred] in Hl, Hin. rewrite Hl in Hin. cbn [default] in Hin.
    apply list_elem_of_lookup in Hin as [j Hj].
    destruct (decide (j = 0)%nat) as [->|Nj].
    + rewrite list_lookup_insert_eq in Hj by lia. injection Hj as <-.
      assert (n = 0)%nat by (eapply NoDup_lookup; eassumption). lia.
    + rewrite list_lookup_insert_ne in Hj by congruence.
      assert (j = 0)%nat by (eapply NoDup_lookup; eassumption). contradiction.
Qed.

(** Three particles of a new game updated by one second: the first dies and leaves the pool. *)
Lemma updateParticles_loss_witness :
  slot sparks 0 = 0%nat
  /\ 0%nat ∉ Game.particlesPool (Game_updateParticles (Fin 1) sparks).
Proof.
  assert (S0 : slot sparks 0 = 0%nat) by evaluate.
  split; [exact S0|]. rewrite <- S0 at 1.
  assert (P : Game.particlesPool sparks = seq 0 1000) by evaluate.
  destruct (updateParticles_loses_dead_handle (Fin 1) sparks) as (_ & N & _).
  - rewrite P. apply NoDup_seq.
  - vm_compute. lia.
  - vm_compute. lia.
  - evaluate.
  - exact N.
Defined.

Opaque Game_addParticle Game_updateParticles.

(** ** Particles *)

Lemma Qfloor_range (x : Q) (n : Z) : 0 <= x -> x < inject_Z n -> (0 <= Qfloor x < n)%Z.
Proof.
  intros L U. pose proof (Qfloor_le x) as A. pose proof (Qlt_floor x) as B.
  rewrite inject_Z_plus in B. change (inject_Z 1) with 1 in B.
  split.
  - apply Z.lt_succ_r. rewrite Zlt_Qlt. unfold Z.succ. rewrite inject_Z_plus.
    change (inject_Z 0) with 0. change (inject_Z 1) with 1. lra.
  - rewrite Zlt_Qlt. lra.
Qed.







(** ** Death *)

(** X14.  Outside practice mode, or with no checkpoint, [die] succeeds
    and reloads the level of the same id: the game runs, the players are
    reset, the clock, coins and orbs are at zero, the objects of the level
    are new and unused, the old objects are as they were, and no particle
    is active (the 50 particles of the death are dropped by the reload). *)
Theorem die_restarts_level (who : Who) (g : Game.t) :
  Game.practice g = false \/ Game.checkpoints g = [] ->
  exists g' lv,
    Game_die who g = Ok g'
    /\ Game.level g' = Some lv
    /\ Game.levelId g' = Game.levelId g
    /\ Game.state g' = "game" /\ Game.paused g' = false
    /\ Game.player g' = Player_reset
    /\ Game.player2 g' = Player.set_active false Player_reset
    /\ Game.time g' = Fin 0 /\ Game.speedMult g' = Fin 1
    /\ Game.coins g' = 0%nat /\ Game.orbs g' = 0%nat
    /\ Game.activeParticles g' = 0%nat
    /\ (forall o, o ∈ Level.objects lv ->
          Game.heap g !! o = None /\ isUsed g' o = false)
    /\ (forall o ob, Game.heap g !! o = Some ob -> Game.heap g' !! o = Some ob).
Proof.
  intros Hp.
  destruct (addParticle_writes (Player.x (this who g)) (Player.y (this who g)) "death" 50 g)
    as (ps & n & k & E).
  set (g1 := Game.set_randomCalls k (Game.set_activeParticles n (Game.set_particles ps g))) in *.
  assert (R : Game_die who g = Game_loadLevel (Game.levelId g) g1).
  { unfold Game_die, andThen, modify. rewrite E. fold g1.
    replace (Game.practice g1 && (0 <? length (Game.checkpoints g1))%nat) with false.
    - reflexivity.
    - cbn. destruct Hp as [-> | ->]; [reflexivity|]. symmetry. apply andb_false_r. }
  destruct (loadLevel_outcome (Game.levelId g) g1)
    as (g' & lv & L & H1 & H2 & H3 & H4 & H5 & H6 & H7 & H8 & H9 & H10 & H11 & _ & _ & _ & _ & _ & _ & _ & _ & H12 & H13).
  exists g', lv. rewrite R. repeat (split; [assumption|]).
  split.
  - intros o Ho. destruct (H12 o Ho) as (A & _ & B). auto.
  - exact H13.
Qed.

(** A death in Stereo Madness. *)
Lemma die_restarts_witness :
  exists g', Game_die P1 (loaded 1) = Ok g' /\ Game.activeParticles g' = 0%nat.
Proof.
  destruct (die_restarts_level P1 (loaded 1)) as (g' & lv & R & H).
  - left. reflexivity.
  - exists g'. split; [exact R|]. apply H.
Defined.

(** The death of a player in practice mode, in closed form. *)
Lemma die_practice_eq (who : Who) (g : Game.t) (i : nat) (cp : Checkpoint.t) :
  Game.practice g = true ->
  Game.currentCP g = Some i ->
  Game.checkpoints g !! i = Some cp ->
  exists ps n k,
    n = Nat.max (Game.activeParticles g)
          (Nat.min (Game.activeParticles g + 50) (length (Game.particlesPool g)))
    /\ Game_die who g
       = Ok (let g1 := Game.set_randomCalls k
                         (Game.set_activeParticles n (Game.set_particles ps g)) in
             let g2 := Game.set_player (Checkpoint.p1 cp) g1 in
             if Player.active (Game.player2 g) then Game.set_player2 (Checkpoint.p2 cp) g2
             else g2).
Proof.
  intros Hp Hi Hcp.
  destruct (addParticle_count (Player.x (this who g)) (Player.y (this who g)) "death" 50 g)
    as [_ Hn].
  destruct (addParticle_writes (Player.x (this who g)) (Player.y (this who g)) "death" 50 g)
    as (ps & n & k & E).
  rewrite E in Hn. cbn [Game.activeParticles Game.set_randomCalls Game.set_activeParticles] in Hn.
  assert (L : (0 <? length (Game.checkpoints g))%nat = true).
  { apply Nat.ltb_lt. apply lookup_lt_Some in Hcp. lia. }
  exists ps, n, k. split; [exact Hn|].
  unfold Game_die, andThen, modify. rewrite E.
  cbn [Game.practice Game.checkpoints Game.currentCP Game.set_randomCalls
       Game.set_activeParticles Game.set_particles].
  rewrite Hp, L, Hi. cbn [andb mbind option_bind]. rewrite Hcp. reflexivity.
Qed.

(** X15.  In practice mode with a checkpoint at [currentCP], [die]
    succeeds and puts the first player back to the state saved for it, the
    second one too if it is active; the level, its objects, the index, the
    clock, the counters and the checkpoints stay as they are, and up to 50
    particles become active. *)
Theorem die_in_practice (who : Who) (g : Game.t) (i : nat) (cp : Checkpoint.t) :
  Game.practice g = true ->
  Game.currentCP g = Some i ->
  Game.checkpoints g !! i = Some cp ->
  exists g',
    Game_die who g = Ok g'
    /\ Game.player g' = Checkpoint.p1 cp
    /\ Game.player2 g'
       = (if Player.active (Game.player2 g) then Checkpoint.p2 cp else Game.player2 g)
    /\ Game.heap g' = Game.heap g /\ Game.level g' = Game.level g
    /\ Game.quadTree g' = Game.quadTree g
    /\ Game.time g' = Game.time g /\ Game.state g' = Game.state g
    /\ Game.coins g' = Game.coins g /\ Game.orbs g' = Game.orbs g
    /\ Game.checkpoints g' = Game.checkpoints g
    /\ Game.activeParticles g'
       = Nat.max (Game.activeParticles g)
           (Nat.min (Game.activeParticles g + 50) (length (Game.particlesPool g))).
Proof.
  intros Hp Hi Hcp.
  destruct (die_practice_eq who g i cp Hp Hi Hcp) as (ps & n & k & Hn & E).
  eexists. split; [exact E|]. cbv zeta.
  destruct (Player.active (Game.player2 g)); cbn; rewrite <- Hn; repeat split; reflexivity.
Qed.

(** Practice switched on in Stereo Madness, then a death. *)
Lemma die_in_practice_witness :
  exists g', Game_die P1 (Game_togglePractice (loaded 1)) = Ok g'
             /\ Game.player g' = Player_reset.
Proof.
  destruct (die_in_practice P1 (Game_togglePractice (loaded 1)) 0
              (Checkpoint.mk Player_reset (Player.set_active false Player_reset)))
    as (g' & R & P & _).
  - reflexivity.
  - reflexivity.
  - reflexivity.
  - exists g'. split; [exact R|exact P].
Defined.

(** ** Triggers that repaint a group, and triggers of an unknown effect *)

(** The group that a trigger names, read before the trigger is marked. *)
Lemma groupOf_marked (g : Game.t) (lv : Level.t) (o : handle) (trig : LevelObject.t) :
  Game.heap g !! o = Some trig ->
  groupOf o (Game.set_heap (alter (LevelObject.set_used true) o (Game.heap g)) g) lv
  = filter (fun h => LevelObject.group (deref (Game.heap g) h)
                     = LevelObject.targetGroup trig) (Level.objects lv).
Proof.
  intros Ho. unfold groupOf. cbn [Game.heap Game.set_heap].
  rewrite deref_alter_eq, Ho. cbn [LevelObject.targetGroup LevelObject.set_used].
  apply list_filter_iff. intros h. rewrite sameGroup_eq.
  assert (LevelObject.group (deref (alter (LevelObject.set_used true) o (Game.heap g)) h)
          = LevelObject.group (deref (Game.heap g) h)) as ->; [|tauto].
  destruct (decide (o = h)) as [->|N].
  - rewrite deref_alter_eq, Ho, (deref_lookup _ _ _ Ho). reflexivity.
  - now rewrite deref_alter_ne.
Qed.

Lemma foldl_alter_inv (f : LevelObject.t -> LevelObject.t) (Inv : Game.t -> Prop) :
  (forall a g, Inv g -> Inv (Game.set_heap (alter f a (Game.heap g)) g)) ->
  forall l g, Inv g ->
    Inv (Game.set_heap (foldl (fun hp a => alter f a hp) (Game.heap g) l) g).
Proof.
  intros Hinv l. induction l as [|a l IH]; intros g Hg; cbn [foldl].
  - destruct g; exact Hg.
  - specialize (IH _ (Hinv a g Hg)). cbn [Game.heap Game.set_heap] in IH. exact IH.
Qed.

(** A trigger that repaints its group: the state it leaves. *)
Lemma handleTrigger_paint (g : Game.t) (lv : Level.t) (o : handle) (trig : LevelObject.t)
    (f : LevelObject.t -> LevelObject.t) :
  Game.level g = Some lv ->
  NoDup (Level.objects lv) ->
  Game.heap g !! o = Some trig ->
  LevelObject.used trig = false ->
  (LevelObject.effect trig = Some "color" /\ f = LevelObject.set_color (LevelObject.color trig)
   \/ LevelObject.effect trig = Some "alpha" /\ f = LevelObject.set_alpha (LevelObject.alpha trig)) ->
  let hp1 := alter (LevelObject.set_used true) o (Game.heap g) in
  let grp := filter (fun h => LevelObject.group (deref (Game.heap g) h)
                              = LevelObject.targetGroup trig) (Level.objects lv) in
  Game_handleTrigger o g = Ok (Game.set_heap (foldl (fun hp a => alter f a hp) hp1 grp) g).
Proof.
  intros Hlv Hnd Ho Hu He hp1 grp.
  unfold Game_handleTrigger. rewrite (deref_lookup _ _ _ Ho), Hu.
  set (g1 := Game.set_heap hp1 g).
  assert (D1 : deref (Game.heap g1) o = LevelObject.set_used true trig).
  { cbn. unfold hp1. rewrite deref_alter_eq, Ho. reflexivity. }
  assert (G1 : groupOf o g1 lv = grp) by (apply groupOf_marked, Ho).
  set (Inv := fun g' : Game.t =>
    LevelObject.color (deref (Game.heap g') o) = LevelObject.color trig
    /\ LevelObject.alpha (deref (Game.heap g') o) = LevelObject.alpha trig
    /\ LevelObject.effect (deref (Game.heap g') o) = LevelObject.effect trig
    /\ Game.level g' = Some lv).
  assert (I1 : Inv g1) by (unfold Inv; rewrite D1; auto).
  assert (Hinv : forall a g', Inv g' -> Inv (Game.set_heap (alter f a (Game.heap g')) g')).
  { intros a g' (Hc & Ha & Hef & Hl). unfold Inv. cbn [Game.heap Game.set_heap Game.level].
    destruct (decide (a = o)) as [->|N].
    - rewrite deref_alter_eq. unfold deref in *.
      destruct (Game.heap g' !! o); cbn in *; [|auto].
      destruct He as [[_ ->]|[_ ->]]; cbn; auto.
    - rewrite deref_alter_ne by exact N. auto. }
  assert (Hfold : forall (body : handle -> cmd),
            (forall a g', Inv g' ->
               body a g' = Ok (Game.set_heap (alter f a (Game.heap g')) g')) ->
            forEach grp body g1
            = Ok (Game.set_heap (foldl (fun hp a => alter f a hp) hp1 grp) g)).
  { intros body Hbody. rewrite (forEach_alter body f Inv Hbody Hinv grp g1 I1).
    reflexivity. }
  assert (I2 : Inv (Game.set_heap (foldl (fun hp a => alter f a hp) hp1 grp) g)).
  { exact (foldl_alter_inv f Inv Hinv grp g1 I1). }
  unfold andThen at 1. unfold modifyObj at 1. fold hp1. fold g1.
  destruct He as [[He ->]|[He ->]].
  - unfold andThen at 1. unfold when at 1. unfold effectIs at 1. rewrite D1.
    cbn [LevelObject.effect LevelObject.set_used]. rewrite He.
    cbn [String.eqb Ascii.eqb Bool.eqb].
    unfold andThen at 1. unfold when at 1. unfold effectIs at 1. rewrite D1.
    cbn [LevelObject.effect LevelObject.set_used]. rewrite He.
    cbn [String.eqb Ascii.eqb Bool.eqb].
    unfold withLevel at 1. replace (Game.level g1) with (Some lv) by (symmetry; exact Hlv).
    rewrite G1. rewrite Hfold.
    + unfold when, effectIs. destruct I2 as (_ & _ & -> & _). rewrite He.
      cbn [String.eqb Ascii.eqb Bool.eqb]. reflexivity.
    + intros a g' (Hc & _). unfold modifyObj. now rewrite Hc.
  - unfold andThen at 1. unfold when at 1. unfold effectIs at 1. rewrite D1.
    cbn [LevelObject.effect LevelObject.set_used]. rewrite He.
    cbn [String.eqb Ascii.eqb Bool.eqb].
    unfold andThen at 1. unfold when at 1. unfold effectIs at 1. rewrite D1.
    cbn [LevelObject.effect LevelObject.set_used]. rewrite He.
    cbn [String.eqb Ascii.eqb Bool.eqb].
    unfold when at 1. unfold effectIs at 1. rewrite D1.
    cbn [LevelObject.effect LevelObject.set_used]. rewrite He.
    cbn [String.eqb Ascii.eqb Bool.eqb].
    unfold withLevel at 1. replace (Game.level g1) with (Some lv) by (symmetry; exact Hlv).
    rewrite G1. rewrite Hfold; [reflexivity|].
    intros a g' (_ & Ha & _). unfold modifyObj. now rewrite Ha.
Qed.

(** What a repainting trigger does to the objects, for a setter [f] that
    leaves the other properties alone. *)
Lemma paint_objects (g : Game.t) (lv : Level.t) (o : handle) (trig : LevelObject.t)
    (f : LevelObject.t -> LevelObject.t) :
  NoDup (Level.objects lv) ->
  Game.heap g !! o = Some trig ->
  let hp1 := alter (LevelObject.set_used true) o (Game.heap g) in
  let grp := filter (fun h => LevelObject.group (deref (Game.heap g) h)
                              = LevelObject.targetGroup trig) (Level.objects lv) in
  let hp2 := foldl (fun hp a => alter f a hp) hp1 grp in
  (forall h ob, h ∈ Level.objects lv -> Game.heap g !! h = Some ob ->
     LevelObject.group ob = LevelObject.targetGroup trig ->
     exists ob1, hp2 !! h = Some (f ob1)
                 /\ (ob1 = ob \/ ob1 = LevelObject.set_used true ob))
  /\ (forall h ob, Game.heap g !! h = Some ob ->
        h ∉ Level.objects lv \/ LevelObject.group ob <> LevelObject.targetGroup trig ->
        exists ob1, hp2 !! h = Some ob1
                    /\ (ob1 = ob \/ ob1 = LevelObject.set_used true ob)).
Proof.
  intros Hnd Ho hp1 grp hp2.
  assert (Hgrp : NoDup grp) by (apply NoDup_filter, Hnd).
  assert (L1 : forall h ob, Game.heap g !! h = Some ob ->
            exists ob1, hp1 !! h = Some ob1
                        /\ (ob1 = ob \/ ob1 = LevelObject.set_used true ob)).
  { intros h ob Hh. unfold hp1. destruct (decide (o = h)) as [->|N].
    - rewrite list_lookup_alter_eq, Hh. cbn. eauto.
    - rewrite list_lookup_alter_ne by exact N. eauto. }
  split.
  - intros h ob Hin Hh Hg. destruct (L1 h ob Hh) as (ob1 & H1 & Hob1).
    exists ob1. split; [|exact Hob1].
    unfold hp2. rewrite lookup_foldl_alter by exact Hgrp.
    rewrite decide_True; [now rewrite H1|].
    unfold grp. apply list_elem_of_filter. split; [|exact Hin].
    now rewrite (deref_lookup _ _ _ Hh).
  - intros h ob Hh Hout. destruct (L1 h ob Hh) as (ob1 & H1 & Hob1).
    exists ob1. split; [|exact Hob1].
    unfold hp2. rewrite lookup_foldl_alter by exact Hgrp.
    rewrite decide_False; [exact H1|].
    unfold grp. rewrite list_elem_of_filter, (deref_lookup _ _ _ Hh). tauto.
Qed.

(** X16.  [handleTrigger] on an unused [color] trigger of a level without
    repeated objects gives the colour of the trigger to every level object
    of the target group and leaves its bounds and alpha alone; every other
    object keeps its bounds, colour and alpha; the index and the level are
    not touched. *)
Theorem trigger_color_paints_group (g : Game.t) (lv : Level.t) (o : handle)
    (trig : LevelObject.t) :
  Game.level g = Some lv ->
  NoDup (Level.objects lv) ->
  Game.heap g !! o = Some trig ->
  LevelObject.used trig = false ->
  LevelObject.effect trig = Some "color" ->
  exists g',
    Game_handleTrigger o g = Ok g'
    /\ Game.quadTree g' = Game.quadTree g
    /\ Game.level g' = Game.level g
    /\ (forall h ob,
          h ∈ Level.objects lv -> Game.heap g !! h = Some ob ->
          LevelObject.group ob = LevelObject.targetGroup trig ->
          exists ob',
            Game.heap g' !! h = Some ob'
            /\ LevelObject.color ob' = LevelObject.color trig
            /\ LevelObject.rect ob' = LevelObject.rect ob
            /\ LevelObject.alpha ob' = LevelObject.alpha ob)
    /\ (forall h ob,
          Game.heap g !! h = Some ob ->
          h ∉ Level.objects lv \/ LevelObject.group ob <> LevelObject.targetGroup trig ->
          exists ob',
            Game.heap g' !! h = Some ob'
            /\ LevelObject.color ob' = LevelObject.color ob
            /\ LevelObject.rect ob' = LevelObject.rect ob
            /\ LevelObject.alpha ob' = LevelObject.alpha ob).
Proof.
  intros Hlv Hnd Ho Hu He.
  pose proof (handleTrigger_paint g lv o trig _ Hlv Hnd Ho Hu (or_introl (conj He eq_refl)))
    as Hrun. cbv zeta in Hrun.
  destruct (paint_objects g lv o trig (LevelObject.set_color (LevelObject.color trig)) Hnd Ho)
    as [Hin Hout].
  eexists. split; [exact Hrun|]. cbn [Game.heap Game.quadTree Game.level Game.set_heap].
  split; [reflexivity|]. split; [reflexivity|]. split.
  - intros h ob Hh Hob Hg. destruct (Hin h ob Hh Hob Hg) as (ob1 & H1 & [-> | ->]);
      eexists; (split; [exact H1|]); cbn; auto.
  - intros h ob Hob Hno. destruct (Hout h ob Hob Hno) as (ob1 & H1 & [-> | ->]);
      eexists; (split; [exact H1|]); cbn; auto.
Qed.

(** The [color] trigger of the demo level paints the first ground block. *)
Lemma trigger_color_witness :
  exists g' ob', Game_handleTrigger 624%nat (loaded 0) = Ok g'
                 /\ Game.heap g' !! 0%nat = Some ob'
                 /\ LevelObject.color ob' = Some 5%Z.
Proof.
  destruct (trigger_color_paints_group (loaded 0)
              (Level.mk (seq 0 633) (Fin 18000) (Fin 420)) 624%nat
              (deref (Game.heap (loaded 0)) 624%nat))
    as (g' & R & _ & _ & Hin & _).
  - evaluate.
  - apply NoDup_seq.
  - evaluate.
  - evaluate.
  - evaluate.
  - destruct (Hin 0%nat (deref (Game.heap (loaded 0)) 0%nat)) as (ob' & H & C & _).
    + apply elem_of_seq. lia.
    + evaluate.
    + evaluate.
    + exists g', ob'. split; [exact R|]. split; [exact H|]. rewrite C. evaluate.
Defined.

(** X17.  [handleTrigger] on an unused [alpha] trigger of a level without
    repeated objects gives the alpha of the trigger to every level object
    of the target group and leaves its bounds and colour alone; every other
    object keeps its bounds, colour and alpha; the index and the level are
    not touched. *)
Theorem trigger_alpha_fades_group (g : Game.t) (lv : Level.t) (o : handle)
    (trig : LevelObject.t) :
  Game.level g = Some lv ->
  NoDup (Level.objects lv) ->
  Game.heap g !! o = Some trig ->
  LevelObject.used trig = false ->
  LevelObject.effect trig = Some "alpha" ->
  exists g',
    Game_handleTrigger o g = Ok g'
    /\ Game.quadTree g' = Game.quadTree g
    /\ Game.level g' = Game.level g
    /\ (forall h ob,
          h ∈ Level.objects lv -> Game.heap g !! h = Some ob ->
          LevelObject.group ob = LevelObject.targetGroup trig ->
          exists ob',
            Game.heap g' !! h = Some ob'
            /\ LevelObject.alpha ob' = LevelObject.alpha trig
            /\ LevelObject.rect ob' = LevelObject.rect ob
            /\ LevelObject.color ob' = LevelObject.color ob)
    /\ (forall h ob,
          Game.heap g !! h = Some ob ->
          h ∉ Level.objects lv \/ LevelObject.group ob <> LevelObject.targetGroup trig ->
          exists ob',
            Game.heap g' !! h = Some ob'
            /\ LevelObject.alpha ob' = LevelObject.alpha ob
            /\ LevelObject.rect ob' = LevelObject.rect ob
            /\ LevelObject.color ob' = LevelObject.color ob).
Proof.
  intros Hlv Hnd Ho Hu He.
  pose proof (handleTrigger_paint g lv o trig _ Hlv Hnd Ho Hu (or_intror (conj He eq_refl)))
    as Hrun. cbv zeta in Hrun.
  destruct (paint_objects g lv o trig (LevelObject.set_alpha (LevelObject.alpha trig)) Hnd Ho)
    as [Hin Hout].
  eexists. split; [exact Hrun|]. cbn [Game.heap Game.quadTree Game.level Game.set_heap].
  split; [reflexivity|]. split; [reflexivity|]. split.
  - intros h ob Hh Hob Hg. destruct (Hin h ob Hh Hob Hg) as (ob1 & H1 & [-> | ->]);
      eexists; (split; [exact H1|]); cbn; auto.
  - intros h ob Hob Hno. destruct (Hout h ob Hob Hno) as (ob1 & H1 & [-> | ->]);
      eexists; (split; [exact H1|]); cbn; auto.
Qed.

(** The [alpha] trigger of the demo level fades the first ground block. *)
Lemma trigger_alpha_witness :
  exists g' ob', Game_handleTrigger 625%nat (loaded 0) = Ok g'
                 /\ Game.heap g' !! 0%nat = Some ob'
                 /\ LevelObject.alpha ob' = Some (Fin 0.5).
Proof.
  destruct (trigger_alpha_fades_group (loaded 0)
              (Level.mk (seq 0 633) (Fin 18000) (Fin 420)) 625%nat
              (deref (Game.heap (loaded 0)) 625%nat))
    as (g' & R & _ & _ & Hin & _).
  - evaluate.
  - apply NoDup_seq.
  - evaluate.
  - evaluate.
  - evaluate.
  - destruct (Hin 0%nat (deref (Game.heap (loaded 0)) 0%nat)) as (ob' & H & C & _).
    + apply elem_of_seq. lia.
    + evaluate.
    + evaluate.
    + exists g', ob'. split; [exact R|]. split; [exact H|]. rewrite C. evaluate.
Defined.

(** X18.  [handleTrigger] on an unused trigger whose effect is none of
    [move], [color] and [alpha] raises the [used] flag of the trigger and
    does nothing else; it needs no level. *)
Theorem trigger_unknown_effect_only_marks (g : Game.t) (o : handle) (trig : LevelObject.t) :
  Game.heap g !! o = Some trig ->
  LevelObject.used trig = false ->
  effectIs trig "move" = false ->
  effectIs trig "color" = false ->
  effectIs trig "alpha" = false ->
  Game_handleTrigger o g
  = Ok (Game.set_heap (alter (LevelObject.set_used true) o (Game.heap g)) g).
Proof.
  intros Ho Hu Em Ec Ea.
  unfold Game_handleTrigger. rewrite (deref_lookup _ _ _ Ho), Hu.
  assert (E : forall s, effectIs (deref (alter (LevelObject.set_used true) o (Game.heap g)) o) s
                       = effectIs trig s)
    by (intros s; rewrite deref_alter_eq, Ho; reflexivity).
  unfold andThen, modifyObj, when. cbn [Game.heap Game.set_heap].
  rewrite E, Em. cbn [Game.heap Game.set_heap].
  rewrite E, Ec. cbn [Game.heap Game.set_heap].
  rewrite E, Ea. reflexivity.
Qed.

(** A trigger of effect [spawn]. *)
Lemma trigger_unknown_witness :
  Game_handleTrigger 0%nat (Game.set_heap [oddTrigger] blankGame)
  = Ok (Game.set_heap [LevelObject.set_used true oddTrigger] blankGame).
Proof.
  apply (trigger_unknown_effect_only_marks (Game.set_heap [oddTrigger] blankGame) 0%nat
           oddTrigger); reflexivity.
Defined.

(** ** Contacts: unknown kinds, mode portals, coins, the finish line *)

Lemma handleObject_inert (who : Who) (o : handle) (g : Game.t)
    (ob : LevelObject.t) :
  Game.heap g !! o = Some ob ->
  LevelObject.used ob = false ->
  (typeIs ob "portal" = false /\ typeIs ob "tele" = false /\ typeIs ob "orb" = false
   /\ typeIs ob "pad" = false /\ typeIs ob "coin" = false /\ typeIs ob "finish" = false
   /\ typeIs ob "spike" = false)
  \/ (typeIs ob "portal" = true /\ effectIs ob "gravity" = false
      /\ effectIs ob "mini" = false /\ effectIs ob "mirror" = false
      /\ effectIs ob "dual" = false /\ effectIs ob "speed" = false
      /\ effectIs ob "mode" = false) ->
  Player_handleObject who o g = Ok (marked o g).
Proof.
  intros Ho Hu H. unfold Player_handleObject. rewrite (deref_lookup _ _ _ Ho), Hu.
  destruct H as [(T1 & T2 & T3 & T4 & T5 & T6 & T7)|(T & E1 & E2 & E3 & E4 & E5 & E6)].
  - rewrite T1, T2, T3, T4, T5, T6, T7. reflexivity.
  - rewrite T. unfold andThen, modifyObj, when. rewrite E1, E2, E3, E4, E5, E6. reflexivity.
Qed.

(** X19.  [handleObject] on an unused object whose type is none of the
    seven it dispatches on, or on a portal whose effect is none of the six
    it knows, raises the [used] flag of the object and does nothing else. *)
Theorem handleObject_unknown_only_marks (who : Who) (o : handle) (g : Game.t)
    (ob : LevelObject.t) :
  Game.heap g !! o = Some ob ->
  LevelObject.used ob = false ->
  (typeIs ob "portal" = false /\ typeIs ob "tele" = false /\ typeIs ob "orb" = false
   /\ typeIs ob "pad" = false /\ typeIs ob "coin" = false /\ typeIs ob "finish" = false
   /\ typeIs ob "spike" = false)
  \/ (typeIs ob "portal" = true /\ effectIs ob "gravity" = false
      /\ effectIs ob "mini" = false /\ effectIs ob "mirror" = false
      /\ effectIs ob "dual" = false /\ effectIs ob "speed" = false
      /\ effectIs ob "mode" = false) ->
  Player_handleObject who o g = Ok (marked o g).
Proof. apply handleObject_inert. Qed.

(** The first ground block of Stereo Madness: a block is of no dispatched type. *)
Lemma handleObject_unknown_witness :
  Player_handleObject P1 0%nat (loaded 1) = Ok (marked 0%nat (loaded 1)).
Proof.
  apply (handleObject_unknown_only_marks P1 0%nat (loaded 1)
           (deref (Game.heap (loaded 1)) 0%nat)).
  - evaluate.
  - evaluate.
  - left. do 6 (split; [evaluate|]). evaluate.
Defined.

Lemma mode_drain g : Player.mode (Game.player (drain g)) = Player.mode (Game.player g).
Proof.
  apply (drain_elim (fun g r => Player.mode (Game.player r) = Player.mode (Game.player g))).
  - intros g' _ IH _. rewrite IH. unfold subStep, Game_fixedUpdate.
    destruct (Player.active _); reflexivity.
  - reflexivity.
Qed.

(** X20.  A [mode] portal stores its [value] as the mode of the player
    without a check.  When [MODES] has no entry for it, own or inherited,
    every later [update] of this player and every [jump(true)] raises a
    [TypeError], and so does every frame of a running game if the player
    is the first one. *)
Theorem mode_portal_unknown_value_breaks_update (who : Who) (o : handle) (g : Game.t)
    (ob : LevelObject.t) :
  Game.heap g !! o = Some ob ->
  LevelObject.used ob = false ->
  typeIs ob "portal" = true ->
  effectIs ob "mode" = true ->
  MODES (LevelObject.value ob) = None ->
  (forall s, LevelObject.value ob = VStr s -> existsb (String.eqb s) inherited = false) ->
  exists g',
    Player_handleObject who o g = Ok g'
    /\ Player.mode (this who g') = LevelObject.value ob
    /\ (forall dt keys quadTree, Player_update who dt keys quadTree g' = Throw)
    /\ Player_jump who true g' = Throw
    /\ (who = P1 -> Game.state g = "game" -> Game.paused g = false ->
        forall dt, Game_update dt g' = Throw).
Proof.
  intros Ho Hu T E M _.
  assert (Ee : LevelObject.effect ob = Some "mode").
  { unfold effectIs in E. destruct (LevelObject.effect ob) as [e|]; [|discriminate].
    apply String.eqb_eq in E. now subst. }
  assert (R : Player_handleObject who o g
              = Ok (setThis who (Player.set_mode (LevelObject.value ob) (this who g))
                      (marked o g))).
  { unfold Player_handleObject. rewrite (deref_lookup _ _ _ Ho), Hu, T.
    unfold andThen, modifyObj, when, effectIs. rewrite Ee.
    cbn [String.eqb Ascii.eqb Bool.eqb]. unfold onThis. destruct who; reflexivity. }
  eexists. split; [exact R|].
  split; [rewrite this_setThis; reflexivity|]. split; [|split].
  - intros dt keys qt. unfold Player_update. rewrite this_setThis.
    unfold Player_move. cbn [Player.mode Player.set_mode]. rewrite M. reflexivity.
  - unfold Player_jump. rewrite this_setThis. cbn [Player.mode Player.set_mode Player.onGround].
    rewrite orb_true_r, M. reflexivity.
  - intros -> S P dt. cbn [setThis].
    rewrite Game_update_running by (cbn; assumption).
    unfold andThen at 1. rewrite advanceClock_eq.
    unfold andThen at 1. unfold updatePlayers, andThen.
    unfold Player_update. cbn [this]. unfold Player_move.
    match goal with |- context [drain ?x] =>
      pose proof (mode_drain x) as D; set (gd := drain x) in * end.
    unfold tick in D.
    cbn [Game.player Game.set_time Game.set_accumulator Game.set_player Player.mode
         Player.set_mode] in D.
    rewrite D, M. reflexivity.
Qed.

(** A portal to the mode [jetpack]. *)
Lemma mode_portal_witness :
  exists g', Player_handleObject P1 0%nat (Game.set_heap [oddPortal] blankGame) = Ok g'
             /\ Player_update P1 step [] None g' = Throw.
Proof.
  destruct (mode_portal_unknown_value_breaks_update P1 0%nat
              (Game.set_heap [oddPortal] blankGame) oddPortal)
    as (g' & R & _ & U & _); try reflexivity.
  - intros s [= <-]. reflexivity.
  - exists g'. split; [exact R|apply U].
Defined.

(** X21.  Any number of consecutive contacts with an unused coin, one at
    least, count the coin once: [coins] goes up by one, the coin is used,
    the players, [orbs], [stars] and the state stay as they are, and up to
    40 particles become active. *)
Theorem coin_counted_once (who : Who) (o : handle) (g : Game.t) (ob : LevelObject.t)
    (n : nat) :
  Game.heap g !! o = Some ob ->
  LevelObject.used ob = false ->
  typeIs ob "coin" = true ->
  exists g',
    times (S n) (Player_handleObject who o) g = Ok g'
    /\ Game.coins g' = S (Game.coins g)
    /\ isUsed g' o = true
    /\ Game.player g' = Game.player g /\ Game.player2 g' = Game.player2 g
    /\ Game.orbs g' = Game.orbs g /\ Game.stars g' = Game.stars g
    /\ Game.state g' = Game.state g
    /\ Game.activeParticles g'
       = Nat.max (Game.activeParticles g)
           (Nat.min (Game.activeParticles g + 40) (length (Game.particlesPool g))).
Proof.
  intros Ho Hu T.
  assert (Ht : LevelObject.type ob = "coin") by (apply String.eqb_eq, T).
  set (g1 := Game.set_coins (S (Game.coins g)) (marked o g)).
  assert (R : Player_handleObject who o g
              = Ok (Game_addParticle (LevelObject.x ob) (LevelObject.y ob) "coin" 40 g1)).
  { unfold Player_handleObject. rewrite (deref_lookup _ _ _ Ho), Hu.
    unfold typeIs. rewrite Ht. cbn [String.eqb Ascii.eqb Bool.eqb].
    reflexivity. }
  destruct (addParticle_count (LevelObject.x ob) (LevelObject.y ob) "coin" 40 g1) as [_ Hn].
  destruct (addParticle_writes (LevelObject.x ob) (LevelObject.y ob) "coin" 40 g1)
    as (ps & k & c & E).
  rewrite E in R, Hn.
  assert (U : isUsed (Game.set_randomCalls c
                (Game.set_activeParticles k (Game.set_particles ps g1))) o = true).
  { unfold isUsed, deref, g1, marked. cbn [Game.heap Game.set_heap Game.set_coins
      Game.set_randomCalls Game.set_activeParticles Game.set_particles].
    rewrite list_lookup_alter_eq, Ho. reflexivity. }
  eexists. split.
  - cbn [times]. unfold andThen at 1. rewrite R.
    apply times_noop, used_noop_object, U.
  - split; [reflexivity|]. split; [exact U|].
    cbn in Hn |- *. rewrite Hn. repeat split; reflexivity.
Qed.

(** Three contacts with the first coin of Stereo Madness. *)
Lemma coin_counted_witness :
  exists g', times 3 (Player_handleObject P1 167%nat) (loaded 1) = Ok g'
             /\ Game.coins g' = 1%nat.
Proof.
  destruct (coin_counted_once P1 167%nat (loaded 1) (deref (Game.heap (loaded 1)) 167%nat) 2)
    as (g' & R & C & _).
  - evaluate.
  - evaluate.
  - evaluate.
  - exists g'. split; [exact R|]. rewrite C. evaluate.
Defined.

(** Outside a running level a frame does nothing. *)
Lemma update_idle dt g :
  Game.state g = "menu" -> Game_update dt g = Ok g.
Proof.
  intros S. unfold Game_update. destruct (Game.paused g); [reflexivity|].
  rewrite S. reflexivity.
Qed.

(** X22.  [checkWin] does nothing unless the first player is beyond the
    level width, and the second one too if it is active; otherwise it adds
    one star and leaves the game in the menu, where no later frame changes
    anything: the star is awarded once. *)
Theorem checkWin_awards_one_star (g : Game.t) (lv : Level.t) :
  Game.level g = Some lv ->
  let passed := (Player.x (Game.player g) >? Level.width lv)%num
                && (negb (Player.active (Game.player2 g))
                    || (Player.x (Game.player2 g) >? Level.width lv)%num) in
  (passed = false -> Game_checkWin g = Ok g)
  /\ (passed = true ->
      exists g',
        Game_checkWin g = Ok g'
        /\ Game.stars g' = S (Game.stars g)
        /\ Game.state g' = "menu"
        /\ Game.heap g' = Game.heap g /\ Game.player g' = Game.player g
        /\ forall n dt, times n (Game_update dt) g' = Ok g').
Proof.
  intros Hlv passed. unfold Game_checkWin, withLevel. rewrite Hlv. fold passed.
  split; intros ->; [reflexivity|].
  eexists. split; [reflexivity|]. cbn.
  repeat (split; [reflexivity|]).
  intros n dt. apply times_noop, update_idle. reflexivity.
Qed.

(** The cube beyond the end of Stereo Madness. *)
Lemma checkWin_witness :
  exists g', Game_checkWin pastTheEnd = Ok g' /\ Game.stars g' = 1%nat
             /\ Game.state g' = "menu".
Proof.
  destruct (checkWin_awards_one_star pastTheEnd (Level.mk (seq 0 171) (Fin 3600) (Fin 420)))
    as [_ W].
  - evaluate.
  - destruct W as (g' & R & S & M & _); [evaluate|].
    exists g'. split; [exact R|]. split; [rewrite S; evaluate|exact M].
Defined.

(** X23.  Contact with an unused finish line leaves the game in the
    menu without a star: [handleObject] calls [win] and not [checkWin], and
    no later frame changes the stars. *)
Theorem finish_ends_level_without_star (who : Who) (o : handle) (g : Game.t)
    (ob : LevelObject.t) :
  Game.heap g !! o = Some ob ->
  LevelObject.used ob = false ->
  typeIs ob "finish" = true ->
  exists g',
    Player_handleObject who o g = Ok g'
    /\ Game.state g' = "menu"
    /\ Game.stars g' = Game.stars g
    /\ isUsed g' o = true
    /\ forall n dt, exists g'',
         times n (Game_update dt) g' = Ok g'' /\ Game.stars g'' = Game.stars g.
Proof.
  intros Ho Hu T.
  assert (Ht : LevelObject.type ob = "finish") by (apply String.eqb_eq, T).
  assert (R : Player_handleObject who o g = Ok (Game.set_state "menu" (marked o g))).
  { unfold Player_handleObject. rewrite (deref_lookup _ _ _ Ho), Hu.
    unfold typeIs. rewrite Ht. cbn [String.eqb Ascii.eqb Bool.eqb]. reflexivity. }
  eexists. split; [exact R|]. split; [reflexivity|]. split; [reflexivity|]. split.
  - unfold isUsed, deref, marked. cbn [Game.heap Game.set_heap Game.set_state].
    rewrite list_lookup_alter_eq, Ho. reflexivity.
  - intros n dt. eexists. split; [apply times_noop, update_idle; reflexivity|reflexivity].
Qed.

(** The finish line of Stereo Madness. *)
Lemma finish_witness :
  exists g', Player_handleObject P1 170%nat (loaded 1) = Ok g'
             /\ Game.state g' = "menu" /\ Game.stars g' = 0%nat.
Proof.
  destruct (finish_ends_level_without_star P1 170%nat (loaded 1)
              (deref (Game.heap (loaded 1)) 170%nat))
    as (g' & R & M & S & _).
  - evaluate.
  - evaluate.
  - evaluate.
  - exists g'. split; [exact R|]. split; [exact M|]. rewrite S. evaluate.
Defined.

(** ** The replay cursor *)

(** What [jump] leaves alone. *)
Lemma jump_frame who hold g :
  is_Some (MODES (Player.mode (this who g))) ->
  exists g', Player_jump who hold g = Ok g'
    /\ Game.time g' = Game.time g /\ Game.replays g' = Game.replays g
    /\ Game.replayIndex g' = Game.replayIndex g
    /\ Game.heap g' = Game.heap g
    /\ Player.mode (Game.player g') = Player.mode (Game.player g).
Proof.
  intros [md M]. unfold Player_jump. destruct (_ || _); [|eauto 10].
  rewrite M. eexists. split; [reflexivity|]. destruct who; cbn; auto.
Qed.

Lemma replayFrom_cursor (pending : list ReplayEvent.t) : forall g,
  is_Some (MODES (Player.mode (Game.player g))) ->
  exists g' k,
    replayFrom pending g = Ok g'
    /\ Game.replayIndex g' = (Game.replayIndex g + k)%nat
    /\ (k <= length pending)%nat
    /\ Forall (fun ev => due g ev = true) (take k pending)
    /\ (forall ev, pending !! k = Some ev -> due g ev = false)
    /\ Game.replays g' = Game.replays g /\ Game.time g' = Game.time g
    /\ Game.heap g' = Game.heap g.
Proof.
  induction pending as [|ev pending IH]; intros g M; cbn [replayFrom].
  - exists g, 0%nat. split; [reflexivity|]. split; [lia|]. split; [cbn; lia|].
    split; [apply Forall_nil; exact I|]. split; [intros ? [=]|auto].
  - fold (due g ev). destruct (due g ev) eqn:D.
    + set (g1 := Game.set_replayIndex (S (Game.replayIndex g)) g).
      assert (M1 : is_Some (MODES (Player.mode (this P1 g1)))) by exact M.
      assert (S1 : exists g2, (when (fun _ => String.eqb (ReplayEvent.action ev) "jump")
                                 (Player_jump P1 true) ;;
                               when (fun _ => String.eqb (ReplayEvent.action ev) "release")
                                 (Player_jump P1 false)) g1 = Ok g2
                   /\ Game.time g2 = Game.time g /\ Game.replays g2 = Game.replays g
                   /\ Game.replayIndex g2 = S (Game.replayIndex g)
                   /\ Game.heap g2 = Game.heap g
                   /\ Player.mode (Game.player g2) = Player.mode (Game.player g)).
      { unfold andThen, when.
        destruct (String.eqb (ReplayEvent.action ev) "jump").
        - destruct (jump_frame P1 true g1 M1) as (ga & -> & A1 & A2 & A3 & A4 & A5).
          destruct (String.eqb (ReplayEvent.action ev) "release").
          + destruct (jump_frame P1 false ga) as (gb & -> & B1 & B2 & B3 & B4 & B5).
            { cbn [this]. rewrite A5. exact M. }
            exists gb. split; [reflexivity|]. rewrite B1, B2, B3, B4, B5, A1, A2, A3, A4, A5.
            repeat split; reflexivity.
          + exists ga. split; [reflexivity|]. rewrite A1, A2, A3, A4, A5.
            repeat split; reflexivity.
        - destruct (String.eqb (ReplayEvent.action ev) "release").
          + destruct (jump_frame P1 false g1 M1) as (gb & -> & B1 & B2 & B3 & B4 & B5).
            exists gb. split; [reflexivity|]. rewrite B1, B2, B3, B4, B5.
            repeat split; reflexivity.
          + exists g1. repeat split; reflexivity. }
      destruct S1 as (g2 & R2 & T2 & L2 & I2 & H2 & M2).
      destruct (IH g2) as (g' & k & R & Ik & Lk & Fk & Nk & L' & T' & H').
      { rewrite M2. exact M. }
      assert (Dg : forall e, due g2 e = due g e) by (intros e; unfold due; now rewrite T2).
      exists g', (S k). split.
      * unfold andThen at 1. unfold modify at 1. fold g1.
        unfold andThen in R2 |- *. destruct (when _ _ g1) as [ga| |]; try discriminate.
        rewrite R2. exact R.
      * split; [rewrite Ik, I2; lia|]. split; [cbn; lia|]. split.
        -- cbn [take]. apply Forall_cons. split; [exact D|].
           eapply Forall_impl; [exact Fk|]. intros e He. cbn beta in *. rewrite <- Dg. exact He.
        -- split; [|rewrite L', T', H'; auto].
           cbn. intros e He. rewrite <- Dg. apply Nk, He.
    + exists g, 0%nat. split; [reflexivity|]. split; [lia|]. split; [cbn; lia|].
      split; [apply Forall_nil; exact I|]. split; [|auto].
      cbn. intros e [= <-]. exact D.
Qed.

(** X24.  When [MODES] has an entry for the mode of the first player,
    [playReplay] succeeds; it changes neither the log, nor the clock, nor
    the level objects; [replayIndex] moves forward and not beyond the end
    of the log; every event it has passed was due, and the event it stops
    at, if there is one, is not. *)
Theorem playReplay_consumes_due_prefix (g : Game.t) :
  is_Some (MODES (Player.mode (Game.player g))) ->
  exists g',
    Game_playReplay g = Ok g'
    /\ Game.replays g' = Game.replays g
    /\ Game.time g' = Game.time g
    /\ Game.heap g' = Game.heap g
    /\ (Game.replayIndex g <= Game.replayIndex g')%nat
    /\ (Game.replayIndex g' <= Nat.max (Game.replayIndex g) (length (Game.replays g)))%nat
    /\ (forall i ev, (Game.replayIndex g <= i < Game.replayIndex g')%nat ->
          Game.replays g !! i = Some ev -> due g ev = true)
    /\ (forall ev, Game.replays g !! Game.replayIndex g' = Some ev -> due g ev = false).
Proof.
  intros M. unfold Game_playReplay.
  destruct (replayFrom_cursor (drop (Game.replayIndex g) (Game.replays g)) g M)
    as (g' & k & R & Ik & Lk & Fk & Nk & L' & T' & H').
  exists g'. split; [exact R|]. split; [exact L'|]. split; [exact T'|]. split; [exact H'|].
  rewrite length_drop in Lk. split; [lia|]. split; [lia|]. split.
  - intros i ev [Li Ui] Hev. rewrite Forall_lookup in Fk.
    apply (Fk (i - Game.replayIndex g)%nat ev).
    rewrite lookup_take_lt by lia. rewrite lookup_drop.
    replace (Game.replayIndex g + (i - Game.replayIndex g))%nat with i by lia. exact Hev.
  - intros ev Hev. apply Nk. rewrite lookup_drop, <- Ik. exact Hev.
Qed.

(** A log of two events, the second far ahead. *)
Lemma playReplay_witness :
  exists g', Game_playReplay taped = Ok g' /\ (Game.replayIndex g' <= 2)%nat.
Proof.
  destruct (playReplay_consumes_due_prefix taped) as (g' & R & _ & _ & _ & _ & U & _).
  - eexists. evaluate.
  - exists g'. split; [exact R|exact U].
Defined.

(** ** The player: speed limits, pause, what an update may write *)

Lemma modeIs_mode p s : modeIs p s = true -> Player.mode p = VStr s.
Proof.
  unfold modeIs. destruct (Player.mode p) as [| |m]; try discriminate.
  intros H. apply String.eqb_eq in H. now subst.
Qed.

Lemma clamp_range (v : num) :
  nmax (nmin v (Fin 10)) (Fin (-10)) = NaN
  \/ exists q, nmax (nmin v (Fin 10)) (Fin (-10)) = Fin q /\ -10 <= q /\ q <= 10.
Proof.
  destruct v as [q|]; [right|left; reflexivity].
  cbn [nmin nmax lift2]. eexists. split; [reflexivity|].
  set (m := Qred (if Qle_bool q 10 then q else 10)).
  assert (Hm : m <= 10).
  { unfold m. rewrite Qred_correct. destruct (Qle_bool q 10) eqn:A; [|lra].
    apply Qle_bool_iff in A. exact A. }
  clearbody m. rewrite Qred_correct.
  destruct (Qle_bool m (-10)) eqn:B.
  - lra.
  - assert (~ m <= -10) by (intros C; apply Qle_bool_iff in C; congruence).
    lra.
Qed.

(** X25.  The first part of [update]: in mode [ufo] the vertical
    velocity ends within [[-10, 10]] (or is [NaN]); in mode [ball] it ends
    at zero and the vertical position is the one before the move. *)
Theorem move_vertical_limits (dt speedMult : num) (input : bool) (p : Player.t) :
  (modeIs p "ufo" = true ->
   exists p', Player_move dt speedMult input p = Ok p'
     /\ (Player.vy p' = NaN \/ exists v, Player.vy p' = Fin v /\ -10 <= v /\ v <= 10))
  /\ (modeIs p "ball" = true ->
      exists p', Player_move dt speedMult input p = Ok p'
        /\ Player.vy p' = Fin 0
        /\ forall y d, Player.y p = Fin y -> dt = Fin d ->
             exists y', Player.y p' = Fin y' /\ y' == y).
Proof.
  destruct p as [x y vx vy mode flip mini size active onGround jumpHold dashHold mirror].
  split; intros M; apply modeIs_mode in M; cbn [Player.mode] in M; subst mode;
    unfold Player_move, modeIs;
    cbn [MODES String.eqb Ascii.eqb Bool.eqb Player.mode Player.x Player.y Player.vx
         Player.vy Player.flip Player.mini Player.size Player.active Player.onGround
         Player.jumpHold Player.dashHold Player.mirror
         Player.set_vx Player.set_vy Player.set_jumpHold Player.set_flip Player.set_x
         Player.set_y Player.set_onGround
         ModeData.baseSpeed ModeData.gravity ModeData.jump ModeData.thrust ModeData.speed].
  - eexists. split; [reflexivity|].
    match goal with |- context [nmax (nmin ?v _) _] => generalize v end.
    intros v. destruct (_ =? _)%num;
      cbn [Player.vy Player.set_vy Player.set_x Player.set_y Player.set_onGround];
      apply clamp_range.
  - eexists. split; [reflexivity|].
    destruct (_ =? _)%num;
      cbn [Player.vy Player.y Player.set_vy Player.set_x Player.set_y Player.set_onGround
           Player.set_flip];
      (split; [reflexivity|]); intros y0 d -> ->; cbn [nadd nmul lift2];
      eexists; (split; [reflexivity|]); rewrite !Qred_correct; ring.
Qed.

(** X26.  In a running game a press of [Escape] pauses: every later
    frame then only records the clock reading in [lastTime], and [update]
    changes nothing; a second press, after the release, resumes. *)
Theorem pause_freezes_simulation (g : Game.t) :
  Game.state g = "game" ->
  Game.paused g = false ->
  let gp := Game_keydown "Escape" g in
  Game.paused gp = true
  /\ (forall now, Game_loop now gp = Ok (Game.set_lastTime now gp))
  /\ (forall dt, Game_update dt gp = Ok gp)
  /\ Game.paused (Game_keydown "Escape" (Game_keyup "Escape" gp)) = false
  /\ Game.time gp = Game.time g /\ Game.player gp = Game.player g
  /\ Game.accumulator gp = Game.accumulator g.
Proof.
  intros S P gp.
  assert (E : gp = Game.set_paused true
                     (if existsb (String.eqb "Escape") (Game.keys g) then g
                      else Game.set_keys (Game.keys g ++ ["Escape"]) g)).
  { unfold gp, Game_keydown. change (String.eqb "Escape" "Escape") with true. cbv iota.
    unfold Game_togglePause.
    destruct (existsb _ _); cbn [Game.state Game.paused Game.set_keys]; rewrite S, P;
      reflexivity. }
  assert (Pp : Game.paused gp = true) by (rewrite E; reflexivity).
  split; [exact Pp|]. split; [|split; [|split]].
  - intros now. unfold Game_loop, andThen, modify, Game_update.
    cbn [Game.paused Game.set_lastTime]. rewrite Pp. reflexivity.
  - intros dt. unfold Game_update. rewrite Pp. reflexivity.
  - unfold Game_keydown at 1. change (String.eqb "Escape" "Escape") with true. cbv iota.
    unfold Game_togglePause, Game_keyup. rewrite E.
    destruct (existsb (String.eqb "Escape") (Game.keys g));
      destruct (existsb _ _); cbn; rewrite S; reflexivity.
  - rewrite E. destruct (existsb _ _); repeat split; reflexivity.
Qed.

(** Stereo Madness paused. *)
Lemma pause_witness :
  Game_update (Fin (1 # 60)) (Game_keydown "Escape" (loaded 1))
  = Ok (Game_keydown "Escape" (loaded 1)).
Proof.
  destruct (pause_freezes_simulation (loaded 1)) as (_ & _ & U & _).
  - evaluate.
  - evaluate.
  - apply U.
Defined.

(** X27.  A successful [update] of a player leaves the accumulator alone
    and changes no level object other than by raising its [used] flag. *)
Theorem player_update_only_marks_objects (who : Who) (dt : num) (keys : list string)
    (quadTree : option QuadTree) (g g' : Game.t) :
  Player_update who dt keys quadTree g = Ok g' ->
  Game.accumulator g' = Game.accumulator g
  /\ forall o ob, Game.heap g !! o = Some ob ->
       Game.heap g' !! o = Some ob
       \/ Game.heap g' !! o = Some (LevelObject.set_used true ob).
Proof.
  intros H. destruct (Player_update_calm who dt keys quadTree g g' H) as [F A].
  split; [exact A|exact F].
Qed.

(** The first update of the cube in Stereo Madness. *)
Lemma player_update_witness :
  exists g', Player_update P1 step [] (Game.quadTree (loaded 1)) (loaded 1) = Ok g'
             /\ Game.accumulator g' = Fin 0.
Proof.
  assert (R : Player_update P1 step [] (Game.quadTree (loaded 1)) (loaded 1)
              = Ok (valueOf (Player_update P1 step [] (Game.quadTree (loaded 1)) (loaded 1))))
    by evaluate.
  destruct (player_update_only_marks_objects P1 step [] (Game.quadTree (loaded 1))
              (loaded 1) _ R) as [A _].
  eexists. split; [exact R|]. rewrite A. evaluate.
Defined.

(** ** The editor and the camera *)

Lemma round_near (q : Q) :
  exists k : Z, Math_round (Fin q / TILE) = Fin (inject_Z k)
    /\ inject_Z k * 30 - 15 <= q /\ q < inject_Z k * 30 + 15.
Proof.
  unfold Math_round. change TILE with (Fin 30). cbn [ndiv lift2].
  eexists. split; [reflexivity|].
  pose proof (Qfloor_le (Qred (q / 30) + (1 # 2))) as A.
  pose proof (Qlt_floor (Qred (q / 30) + (1 # 2))) as B.
  rewrite inject_Z_plus in B. change (inject_Z 1) with 1 in B.
  set (k := Qfloor _) in *. clearbody k.
  assert (E : Qred (q / 30) == q * (1 # 30)) by (rewrite Qred_correct; field).
  rewrite E in A, B. lra.
Qed.

(** X28.  With the grid on and the pointer at finite coordinates, the
    object that the editor places has both coordinates on multiples of 30,
    at most 15 away from the pointer, width and height 30, a group from 1
    to 10 when [Math.random] is in [[0, 1)], the current type and no [used]
    flag. *)
Theorem editor_snaps_to_grid (e : Editor.t) (rnd mx my : Q) :
  Editor.gridSnap e = true ->
  Editor.mouseX e = Fin mx -> Editor.mouseY e = Fin my ->
  0 <= rnd -> rnd < 1 ->
  let ob := Editor_object e rnd in
  exists (i j : Z) (x y : Q) (grp : Z),
    LevelObject.x ob = Fin x /\ x == inject_Z i * 30
    /\ x - 15 <= mx /\ mx < x + 15
    /\ LevelObject.y ob = Fin y /\ y == inject_Z j * 30
    /\ y - 15 <= my /\ my < y + 15
    /\ LevelObject.w ob = Fin 30 /\ LevelObject.h ob = Fin 30
    /\ LevelObject.group ob = Some grp /\ (1 <= grp <= 10)%Z
    /\ LevelObject.type ob = Editor.currentType e
    /\ LevelObject.used ob = false.
Proof.
  intros G X Y R0 R1 ob.
  destruct (round_near mx) as (i & Ei & Li & Ui).
  destruct (round_near my) as (j & Ej & Lj & Uj).
  exists i, j. unfold ob, Editor_object. rewrite G, X, Y, Ei, Ej.
  change TILE with (Fin 30). cbn [nmul lift2 LevelObject.x LevelObject.y LevelObject.w
    LevelObject.h LevelObject.group LevelObject.type LevelObject.used].
  do 3 eexists.
  split; [reflexivity|]. split; [apply Qred_correct|].
  split; [rewrite Qred_correct; lra|]. split; [rewrite Qred_correct; lra|].
  split; [reflexivity|]. split; [apply Qred_correct|].
  split; [rewrite Qred_correct; lra|]. split; [rewrite Qred_correct; lra|].
  split; [reflexivity|]. split; [reflexivity|]. split; [reflexivity|].
  split; [|split; reflexivity].
  assert (F : (0 <= Qfloor (rnd * 10) < 10)%Z).
  { apply Qfloor_range; [lra|]. change (inject_Z 10) with 10. lra. }
  lia.
Qed.

(** The pointer at [(47, 100)]. *)
Lemma editor_snap_witness :
  LevelObject.x (Editor_object brush (1 # 2)) = Fin 60
  /\ LevelObject.y (Editor_object brush (1 # 2)) = Fin 90.
Proof.
  destruct (editor_snaps_to_grid brush (1 # 2) 47 100)
    as (i & j & x & y & grp & _); try reflexivity; try lra.
  split; evaluate.
Defined.

(** X29.  An object placed with a type [portal-e], [orb-e] or
    [trigger-e] keeps this whole string as its type and gets the effect
    [e].  Its type is then none of [portal], [orb] and [trigger], and a
    contact of a player with it only raises its [used] flag. *)
Theorem editor_prefixed_types_never_dispatch (e : Editor.t) (s : string) (g : Game.t)
    (lv : Level.t) (t : QuadTree) (who : Who) :
  Editor.currentType e = String.append "portal-" s
  \/ Editor.currentType e = String.append "orb-" s
  \/ Editor.currentType e = String.append "trigger-" s ->
  Game.level g = Some lv ->
  Game.quadTree g = Some t ->
  let o := length (Game.heap g) in
  exists g' ob,
    Editor_handleInput e true g = Ok g'
    /\ Game.heap g' = Game.heap g ++ [ob]
    /\ Game.level g' = Some (Level.mk (Level.objects lv ++ [o]) (Level.width lv)
                                      (Level.height lv))
    /\ LevelObject.type ob = Editor.currentType e
    /\ LevelObject.effect ob = Some s
    /\ typeIs ob "portal" = false /\ typeIs ob "orb" = false
    /\ typeIs ob "trigger" = false
    /\ Player_handleObject who o g' = Ok (marked o g').
Proof.
  intros Ht Hlv Hqt o.
  set (ob := Editor_object e (Game.randomSource g (Game.randomCalls g))).
  assert (Hty : LevelObject.type ob = Editor.currentType e) by reflexivity.
  assert (Hu : LevelObject.used ob = false) by reflexivity.
  assert (He : LevelObject.effect ob = Some s).
  { unfold ob, Editor_object. cbn [LevelObject.effect].
    destruct Ht as [-> |[-> | ->]]; reflexivity. }
  assert (Hno : typeIs ob "portal" = false /\ typeIs ob "tele" = false
                /\ typeIs ob "orb" = false /\ typeIs ob "pad" = false
                /\ typeIs ob "coin" = false /\ typeIs ob "finish" = false
                /\ typeIs ob "spike" = false /\ typeIs ob "trigger" = false).
  { unfold typeIs. rewrite Hty.
    destruct Ht as [-> |[-> | ->]]; cbn; destruct s; repeat split; reflexivity. }
  eexists _, ob. split.
  - unfold Editor_handleInput, withLevel. rewrite Hlv. cbv zeta.
    unfold andThen, modify, Game_insert.
    cbn [Game.quadTree Game.set_randomCalls Game.set_level Game.set_heap]. rewrite Hqt.
    reflexivity.
  - cbn [Game.heap Game.level Game.set_quadTree Game.set_randomCalls Game.set_level
         Game.set_heap].
    split; [reflexivity|]. split; [reflexivity|]. split; [exact Hty|]. split; [exact He|].
    destruct Hno as (N1 & N2 & N3 & N4 & N5 & N6 & N7 & N8).
    split; [exact N1|]. split; [exact N3|]. split; [exact N8|].
    apply (handleObject_inert who o _ ob).
    + cbn [Game.heap Game.set_quadTree Game.set_randomCalls Game.set_level Game.set_heap].
      unfold o. rewrite lookup_app_r by lia. now rewrite Nat.sub_diag.
    + exact Hu.
    + left. auto 10.
Qed.

(** A [portal-gravity] placed in Stereo Madness. *)
Lemma editor_prefixed_witness :
  exists g', Editor_handleInput brush true (loaded 1) = Ok g'
             /\ Player_handleObject P1 171%nat g' = Ok (marked 171%nat g').
Proof.
  destruct (editor_prefixed_types_never_dispatch brush "gravity" (loaded 1)
              (Level.mk (seq 0 171) (Fin 3600) (Fin 420))
              (indexOf (Game.heap (loaded 1)) (Level.mk (seq 0 171) (Fin 3600) (Fin 420)))
              P1)
    as (g' & ob & R & _ & _ & _ & _ & _ & _ & _ & H).
  - left. reflexivity.
  - evaluate.
  - evaluate.
  - exists g'. split; [exact R|].
    assert (L : length (Game.heap (loaded 1)) = 171%nat) by evaluate.
    rewrite L in H. exact H.
Defined.

(** X30.  With the second player inactive and finite values,
    [updateCam] never lowers [cam.x]: the result is at least the old value
    and at least the player's position minus the lead, and it is the old
    value when the player is behind it. *)
Theorem camera_never_scrolls_back (lead : num) (cam : Cam.t) (g : Game.t) (c l px : Q) :
  Player.active (Game.player2 g) = false ->
  Cam.x cam = Fin c -> lead = Fin l -> Player.x (Game.player g) = Fin px ->
  exists c',
    Cam.x (Game_updateCam lead cam g) = Fin c'
    /\ c <= c' /\ px - l <= c'
    /\ (px - l <= c -> c' == c)
    /\ Cam.zoom (Game_updateCam lead cam g) = Cam.zoom cam.
Proof.
  intros A X -> P. unfold Game_updateCam. rewrite A, X, P. cbn [Cam.x Cam.zoom nsub nmax lift2].
  eexists. split; [reflexivity|]. rewrite Qred_correct.
  destruct (Qle_bool (Qred (px - l)) c) eqn:E.
  - apply Qle_bool_iff in E. rewrite Qred_correct in E. repeat split; try lra.
  - assert (N : ~ Qred (px - l) <= c) by (intros H; apply Qle_bool_iff in H; congruence).
    rewrite Qred_correct in *. repeat split; try lra.
Qed.

(** The camera at 3000 and the cube back at the start of Stereo Madness. *)
Lemma camera_witness :
  Cam.x (Game_updateCam (Fin 100) (Cam.mk (Fin 3000) (Fin 0) (Fin 1)) (loaded 1)) = Fin 3000.
Proof.
  destruct (camera_never_scrolls_back (Fin 100) (Cam.mk (Fin 3000) (Fin 0) (Fin 1))
              (loaded 1) 3000 100 90) as (c' & E & _); try evaluate.
Defined.
